(** * Paragraph grouping of OCR detections (api/main.py)

    A shallow embedding of the grouping core of the RapidOCR service:
    [calculate_bbox_properties], [calculate_distance],
    [is_horizontally_aligned], [is_vertically_aligned],
    [should_merge_bubbles], [manga_reading_order_sort],
    [calculate_collective_bbox] and [group_paragraphs].

    Python floats are IEEE-754 binary64 values; they are modelled by the
    executable specification of the Standard Library ([spec_float], with
    53 bits of precision and maximal exponent 1024), so every definition
    below can be evaluated on concrete detections. *)

From Stdlib Require Import String Ascii ZArith List Bool Lia Permutation Sorted.
From Stdlib Require Import Floats.SpecFloat.
Import ListNotations.
Local Open Scope list_scope.

(** ** Python floats *)

Module F64.

Definition float := spec_float.

Definition prec : Z := 53.
Definition emax : Z := 1024.

Definition add : float -> float -> float := SFadd prec emax.
Definition sub : float -> float -> float := SFsub prec emax.
Definition mul : float -> float -> float := SFmul prec emax.
Definition div : float -> float -> float := SFdiv prec emax.
Definition sqrt : float -> float := SFsqrt prec emax.
Definition neg : float -> float := SFopp.

(** The comparison operators [<], [>], [==] and [<=] of Python floats:
    every comparison with a NaN is false, and the two zeros are equal. *)
Definition lt (x y : float) : bool := SFltb x y.
Definition gt (x y : float) : bool :=
  match SFcompare x y with Some Gt => true | _ => false end.
Definition eqb (x y : float) : bool := SFeqb x y.
Definition le (x y : float) : bool := SFleb x y.

(** [float(n)] for a Python int [n]. *)
Definition of_Z (n : Z) : float := binary_normalize prec emax n 0 false.
Definition of_nat (n : nat) : float := of_Z (Z.of_nat n).

Definition zero : float := S754_zero false.
Definition inf : float := S754_infinity false.
Definition nan : float := S754_nan.

(** The literals of the source, as the nearest binary64 values. *)
Definition two : float := S754_finite false 4503599627370496 (-51).
Definition c0_3 : float := S754_finite false 5404319552844595 (-54).
Definition c1_5 : float := S754_finite false 6755399441055744 (-52).
Definition c0_8 : float := S754_finite false 7205759403792794 (-53).

Definition is_nan (x : float) : bool :=
  match x with S754_nan => true | _ => false end.

(** [math.isfinite]. *)
Definition is_finite (x : float) : bool :=
  match x with S754_zero _ | S754_finite _ _ _ => true | _ => false end.

(** Decimal fractions [n / 10^k], correctly rounded (how a decimal literal
    is read). *)
Definition of_ratio (n d : Z) : float := div (of_Z n) (of_Z d).

End F64.

Abbreviation float := F64.float.

(** ** Errors

    The exceptions the grouping code can raise. *)

Inductive exn : Type :=
| ValueError         (* min() or max() of an empty sequence *)
| ZeroDivisionError.

(** The outcome of a call: a value, an exception, or [OutOfFuel] when the
    bound given to the model of a [while] loop is exhausted (no Python
    outcome corresponds to it, and the termination theorem shows that it
    never occurs). *)
Inductive result (A : Type) : Type :=
| Ok (a : A)
| Raise (e : exn)
| OutOfFuel.
Arguments Ok {A} a.
Arguments Raise {A} e.
Arguments OutOfFuel {A}.

Definition bind {A B : Type} (r : result A) (k : A -> result B) : result B :=
  match r with
  | Ok a => k a
  | Raise e => Raise e
  | OutOfFuel => OutOfFuel
  end.

Notation "x <- r ;; k" := (bind r (fun x => k))
  (at level 61, r at next level, right associativity).

Fixpoint mapM {A B : Type} (f : A -> result B) (l : list A) : result (list B) :=
  match l with
  | [] => Ok []
  | a :: l' => b <- f a ;; bs <- mapM f l' ;; Ok (b :: bs)
  end.

(** ** Python built-ins used by the source *)

(** [min(xs)] and [max(xs)] keep the first extremal element and replace it
    only by a strictly smaller (greater) one; on an empty list they raise
    [ValueError]. *)
Fixpoint min_from (best : float) (l : list float) : float :=
  match l with
  | [] => best
  | x :: l' => min_from (if F64.lt x best then x else best) l'
  end.

Fixpoint max_from (best : float) (l : list float) : float :=
  match l with
  | [] => best
  | x :: l' => max_from (if F64.gt x best then x else best) l'
  end.

Definition py_min (l : list float) : result float :=
  match l with
  | [] => Raise ValueError
  | x :: l' => Ok (min_from x l')
  end.

Definition py_max (l : list float) : result float :=
  match l with
  | [] => Raise ValueError
  | x :: l' => Ok (max_from x l')
  end.

(** [min(a, b)] and [max(a, b)]. *)
Definition min2 (a b : float) : float := min_from a [b].
Definition max2 (a b : float) : float := max_from a [b].

(** [sum(xs)] as CPython computes it up to version 3.11: a left fold from
    the int [0]. *)
Definition py_sum (l : list float) : float := fold_left F64.add l F64.zero.

(** From CPython 3.12 on, [sum] over floats carries a compensation term
    (Neumaier) that is added at the end when it is finite and not zero.
    Only the score of a paragraph goes through [sum]: the functions below
    are written with [py_sum], and [group_paragraphs_with] is
    [group_paragraphs] with the interpreter's [sum] as a parameter. *)
Fixpoint sum_compensated (f c : float) (l : list float) : float * float :=
  match l with
  | [] => (f, c)
  | x :: l' =>
      let t := F64.add f x in
      let c' :=
        if F64.le (SFabs x) (SFabs f)
        then F64.add c (F64.add (F64.sub f t) x)
        else F64.add c (F64.add (F64.sub x t) f) in
      sum_compensated t c' l'
  end.

Definition py_sum_compensated (l : list float) : float :=
  match l with
  | [] => F64.zero
  | x :: l' =>
      let '(f, c) := sum_compensated (F64.add F64.zero x) F64.zero l' in
      if negb (F64.eqb c F64.zero) && F64.is_finite c then F64.add f c else f
  end.

(** [sorted(l, key=...)]: keys are computed once per element, and the sort
    is stable and uses [<] on the keys only.  For keys that [<] orders
    consistently there is one stable sorted arrangement, whatever the
    algorithm; it is built here by insertion from the right.

    With a NaN among the keys [<] is not an order, and the arrangement that
    CPython leaves depends on the runs and merges of its algorithm (and on
    its version).  The model agrees with it on lists of two elements and on
    lists in which no element compares below its predecessor, which both
    return as they are; beyond that, only in returning a rearrangement of
    the input.  What is proved below of inputs with NaN keys rests on no
    more than the rearrangement. *)
Section Sorted.
Context {K A : Type}.
Variable ltK : K -> K -> bool.

Fixpoint insert_keyed (x : K * A) (l : list (K * A)) : list (K * A) :=
  match l with
  | [] => [x]
  | y :: l' =>
      if ltK (fst y) (fst x) then y :: insert_keyed x l' else x :: y :: l'
  end.

Fixpoint sort_keyed (l : list (K * A)) : list (K * A) :=
  match l with
  | [] => []
  | x :: l' => insert_keyed x (sort_keyed l')
  end.
End Sorted.

(** The order of Python 2-tuples of floats: the first position where the
    components differ (by [==]) decides. *)
Definition key := (float * float)%type.

Definition key_lt (k1 k2 : key) : bool :=
  if F64.eqb (fst k1) (fst k2)
  then if F64.eqb (snd k1) (snd k2) then false else F64.lt (snd k1) (snd k2)
  else F64.lt (fst k1) (fst k2).

(** [' '.join(texts)]. *)
Definition join_space (texts : list string) : string := String.concat " " texts.

(** ** Data model *)

(** A corner [[x, y]] of a box, and a box: the list of its corners, of any
    length (the source never looks at the length). *)
Definition point := (float * float)%type.
Definition bbox := list point.

(** One OCR result: the tuple [(bbox, text, score)]. *)
Definition detection := (bbox * string * float)%type.

Definition det_bbox (d : detection) : bbox := fst (fst d).
Definition det_text (d : detection) : string := snd (fst d).
Definition det_score (d : detection) : float := snd d.

(** The dict returned by [calculate_bbox_properties]. *)
Record props : Type := mkProps {
  center_x : float;
  center_y : float;
  left : float;
  right : float;
  top : float;
  bottom : float;
  width : float;
  height : float
}.

(** An entry of [items_with_props]. *)
Record item : Type := mkItem {
  i_bbox : bbox;
  i_text : string;
  i_score : float;
  i_props : props;
  used : bool
}.

Definition mark_used (it : item) : item :=
  mkItem (i_bbox it) (i_text it) (i_score it) (i_props it) true.

Definition item_det (it : item) : detection := (i_bbox it, i_text it, i_score it).

(** The dict appended to [paragraphs]; [calculate_collective_bbox] may
    return [None]. *)
Record paragraph : Type := mkParagraph {
  p_text : string;
  p_bbox : option bbox;
  p_score : float;
  item_count : nat;
  individual_items : list detection
}.

(** ** The functions of the source *)

Definition calculate_bbox_properties (b : bbox) : result props :=
  let xs := map fst b in
  let ys := map snd b in
  left <- py_min xs ;;
  right <- py_max xs ;;
  top <- py_min ys ;;
  bottom <- py_max ys ;;
  let center_x := F64.div (F64.add left right) F64.two in
  let center_y := F64.div (F64.add top bottom) F64.two in
  let width := F64.sub right left in
  let height := F64.sub bottom top in
  Ok (mkProps center_x center_y left right top bottom width height).

(** [math.sqrt] raises on a negative argument; the argument here is a sum
    of two squares, which is never negative (lemma [sum_squares_not_neg]
    below), so the square root is taken directly. *)
Definition calculate_distance (p1 p2 : props) : float :=
  let dx := F64.sub (center_x p1) (center_x p2) in
  let dy := F64.sub (center_y p1) (center_y p2) in
  F64.sqrt (F64.add (F64.mul dx dx) (F64.mul dy dy)).

Definition is_horizontally_aligned_tol (p1 p2 : props) (tolerance_factor : float) : bool :=
  let overlap_top := max2 (top p1) (top p2) in
  let overlap_bottom := min2 (bottom p1) (bottom p2) in
  let overlap_height := max2 F64.zero (F64.sub overlap_bottom overlap_top) in
  let min_height := min2 (height p1) (height p2) in
  F64.gt overlap_height (F64.mul min_height tolerance_factor).

Definition is_vertically_aligned_tol (p1 p2 : props) (tolerance_factor : float) : bool :=
  let overlap_left := max2 (left p1) (left p2) in
  let overlap_right := min2 (right p1) (right p2) in
  let overlap_width := max2 F64.zero (F64.sub overlap_right overlap_left) in
  let min_width := min2 (width p1) (width p2) in
  F64.gt overlap_width (F64.mul min_width tolerance_factor).

(** Both are only called with the default [tolerance_factor=0.3]. *)
Definition is_horizontally_aligned (p1 p2 : props) : bool :=
  is_horizontally_aligned_tol p1 p2 F64.c0_3.

Definition is_vertically_aligned (p1 p2 : props) : bool :=
  is_vertically_aligned_tol p1 p2 F64.c0_3.

Definition relative_distance (p1 p2 : props) : float :=
  let avg_width := F64.div (F64.add (width p1) (width p2)) F64.two in
  let avg_height := F64.div (F64.add (height p1) (height p2)) F64.two in
  let avg_size := F64.div (F64.add avg_width avg_height) F64.two in
  let distance := calculate_distance p1 p2 in
  if F64.gt avg_size F64.zero then F64.div distance avg_size else F64.inf.

Definition should_merge_bubbles (p1 p2 : props) (max_distance_factor : float) : bool :=
  let relative_distance := relative_distance p1 p2 in
  if F64.gt relative_distance max_distance_factor then false
  else
    let h_aligned := is_horizontally_aligned p1 p2 in
    let v_aligned := is_vertically_aligned p1 p2 in
    if F64.lt relative_distance F64.c1_5 && (h_aligned || v_aligned) then true
    else if F64.lt relative_distance F64.c0_8 then true
    else false.

Definition props_key (p : props) : key := (center_y p, F64.neg (center_x p)).

Definition sort_key (d : detection) : result key :=
  p <- calculate_bbox_properties (det_bbox d) ;;
  Ok (props_key p).

(** [sorted] calls [sort_key] on every element first (an empty bbox raises
    there), then sorts the elements on their keys. *)
Definition keyed_of (d : detection) : result (key * detection) :=
  k <- sort_key d ;; Ok (k, d).

Definition manga_reading_order_sort (results : list detection) : result (list detection) :=
  keyed <- mapM keyed_of results ;;
  Ok (map snd (sort_keyed key_lt keyed)).

Definition calculate_collective_bbox (paragraph_items : list item) : result (option bbox) :=
  match paragraph_items with
  | [] => Ok None
  | _ =>
      let all_xs := flat_map (fun it => map fst (i_bbox it)) paragraph_items in
      let all_ys := flat_map (fun it => map snd (i_bbox it)) paragraph_items in
      min_x <- py_min all_xs ;;
      max_x <- py_max all_xs ;;
      min_y <- py_min all_ys ;;
      max_y <- py_max all_ys ;;
      Ok (Some [(min_x, min_y); (max_x, min_y); (max_x, max_y); (min_x, max_y)])
  end.

(** *** The clustering loops of [group_paragraphs]

    [items_with_props] is a list of dicts shared with [paragraph_items];
    the only field ever written is ['used'], and it is read through
    [items_with_props] only, so a paragraph holds the entries it collected
    (with the flag set, as the shared dict has it). *)

(** [current_item['used'] = True] for the entry at index [i]. *)
Fixpoint mark_used_at (i : nat) (items : list item) : list item :=
  match items, i with
  | [], _ => []
  | it :: rest, O => mark_used it :: rest
  | it :: rest, S i' => it :: mark_used_at i' rest
  end.

(** The [for para_item in paragraph_items] loop with its [break]. *)
Definition merges_with (max_distance_factor : float) (paragraph_items : list item)
    (candidate_item : item) : bool :=
  existsb (fun para_item =>
             should_merge_bubbles (i_props para_item) (i_props candidate_item)
                                  max_distance_factor)
          paragraph_items.

(** One pass of [for j, candidate_item in enumerate(items_with_props)]:
    returns the entries with their updated flags, the grown
    [paragraph_items] and the final value of [search_expanded]. *)
Fixpoint scan (max_distance_factor : float) (items : list item)
    (paragraph_items : list item) : list item * list item * bool :=
  match items with
  | [] => ([], paragraph_items, false)
  | candidate_item :: rest =>
      if used candidate_item then
        let '(rest', paragraph_items', search_expanded) :=
          scan max_distance_factor rest paragraph_items in
        (candidate_item :: rest', paragraph_items', search_expanded)
      else if merges_with max_distance_factor paragraph_items candidate_item then
        let candidate_item' := mark_used candidate_item in
        let '(rest', paragraph_items', _) :=
          scan max_distance_factor rest (paragraph_items ++ [candidate_item']) in
        (candidate_item' :: rest', paragraph_items', true)
      else
        let '(rest', paragraph_items', search_expanded) :=
          scan max_distance_factor rest paragraph_items in
        (candidate_item :: rest', paragraph_items', search_expanded)
  end.

(** [while search_expanded: ...], bounded by [fuel] passes. *)
Fixpoint grow (fuel : nat) (max_distance_factor : float) (items : list item)
    (paragraph_items : list item) : result (list item * list item) :=
  match fuel with
  | O => OutOfFuel
  | S fuel' =>
      let '(items', paragraph_items', search_expanded) :=
        scan max_distance_factor items paragraph_items in
      if search_expanded
      then grow fuel' max_distance_factor items' paragraph_items'
      else Ok (items', paragraph_items')
  end.

(** The body of the outer loop after the cluster is closed:
    [paragraph_items.sort(key=...)], join, collective bbox, mean score,
    member list. *)
Definition sort_items (paragraph_items : list item) : list item :=
  map snd (sort_keyed key_lt
             (map (fun x => (props_key (i_props x), x)) paragraph_items)).

Definition make_paragraph (paragraph_items : list item) : result paragraph :=
  let paragraph_items := sort_items paragraph_items in
  let paragraph_text := join_space (map i_text paragraph_items) in
  collective_bbox <- calculate_collective_bbox paragraph_items ;;
  avg_score <-
    match List.length paragraph_items with
    | O => Raise ZeroDivisionError
    | n => Ok (F64.div (py_sum (map i_score paragraph_items)) (F64.of_nat n))
    end ;;
  let individual_items := map item_det paragraph_items in
  Ok (mkParagraph paragraph_text collective_bbox avg_score
                  (List.length paragraph_items) individual_items).

(** [for i, current_item in enumerate(items_with_props)], from index [i]
    with [n] entries left to visit. *)
Fixpoint seed_loop (n i : nat) (max_distance_factor : float) (items : list item)
    (paragraphs : list paragraph) : result (list paragraph) :=
  match n with
  | O => Ok paragraphs
  | S n' =>
      match nth_error items i with
      | None => Ok paragraphs
      | Some current_item =>
          if used current_item then
            seed_loop n' (S i) max_distance_factor items paragraphs
          else
            let items1 := mark_used_at i items in
            st <- grow (S (List.length items)) max_distance_factor items1
                       [mark_used current_item] ;;
            paragraph_data <- make_paragraph (snd st) ;;
            seed_loop n' (S i) max_distance_factor (fst st)
                      (paragraphs ++ [paragraph_data])
      end
  end.

Definition make_item (d : detection) : result item :=
  props <- calculate_bbox_properties (det_bbox d) ;;
  Ok (mkItem (det_bbox d) (det_text d) (det_score d) props false).

Definition group_paragraphs (results : list detection) (max_distance_factor : float)
    : result (list paragraph) :=
  match results with
  | [] => Ok []
  | _ =>
      sorted_results <- manga_reading_order_sort results ;;
      items_with_props <- mapM make_item sorted_results ;;
      seed_loop (List.length items_with_props) 0 max_distance_factor items_with_props []
  end.

(** *** The interpreter's [sum]

    The result of [sum] is the one thing in the source that depends on the
    version of the interpreter.  These are [make_paragraph], the outer loop
    and [group_paragraphs] again, with [sum] as a parameter: [py_sum] for
    CPython up to 3.11, [py_sum_compensated] from 3.12 on. *)

Definition make_paragraph_with (sum : list float -> float)
    (paragraph_items : list item) : result paragraph :=
  let paragraph_items := sort_items paragraph_items in
  let paragraph_text := join_space (map i_text paragraph_items) in
  collective_bbox <- calculate_collective_bbox paragraph_items ;;
  avg_score <-
    match List.length paragraph_items with
    | O => Raise ZeroDivisionError
    | n => Ok (F64.div (sum (map i_score paragraph_items)) (F64.of_nat n))
    end ;;
  let individual_items := map item_det paragraph_items in
  Ok (mkParagraph paragraph_text collective_bbox avg_score
                  (List.length paragraph_items) individual_items).

Fixpoint seed_loop_with (sum : list float -> float) (n i : nat)
    (max_distance_factor : float) (items : list item)
    (paragraphs : list paragraph) : result (list paragraph) :=
  match n with
  | O => Ok paragraphs
  | S n' =>
      match nth_error items i with
      | None => Ok paragraphs
      | Some current_item =>
          if used current_item then
            seed_loop_with sum n' (S i) max_distance_factor items paragraphs
          else
            let items1 := mark_used_at i items in
            st <- grow (S (List.length items)) max_distance_factor items1
                       [mark_used current_item] ;;
            paragraph_data <- make_paragraph_with sum (snd st) ;;
            seed_loop_with sum n' (S i) max_distance_factor (fst st)
                           (paragraphs ++ [paragraph_data])
      end
  end.

Definition group_paragraphs_with (sum : list float -> float)
    (results : list detection) (max_distance_factor : float)
    : result (list paragraph) :=
  match results with
  | [] => Ok []
  | _ =>
      sorted_results <- manga_reading_order_sort results ;;
      items_with_props <- mapM make_item sorted_results ;;
      seed_loop_with sum (List.length items_with_props) 0 max_distance_factor
                     items_with_props []
  end.

(** A paragraph with its score computed again, by [sum], from its members. *)
Definition rescore (sum : list float -> float) (p : paragraph) : paragraph :=
  mkParagraph (p_text p) (p_bbox p)
              (F64.div (sum (map det_score (individual_items p)))
                       (F64.of_nat (item_count p)))
              (item_count p) (individual_items p).

(** ** The numeric order behind the float comparisons

    A float that is not a NaN is placed by three integers, compared
    lexicographically: its class (negative infinity, negative, zero,
    positive, positive infinity), its signed exponent and its signed
    mantissa.  [SFcompare] is that lexicographic comparison. *)

Definition cls (x : float) : Z :=
  match x with
  | S754_infinity true => (-2)%Z
  | S754_finite true _ _ => (-1)%Z
  | S754_zero _ => 0%Z
  | S754_finite false _ _ => 1%Z
  | S754_infinity false => 2%Z
  | S754_nan => 3%Z
  end.

Definition sexp (x : float) : Z :=
  match x with
  | S754_finite true _ e => (- e)%Z
  | S754_finite false _ e => e
  | _ => 0%Z
  end.

Definition sman (x : float) : Z :=
  match x with
  | S754_finite true m _ => Zneg m
  | S754_finite false m _ => Zpos m
  | _ => 0%Z
  end.

Definition num_lt (x y : float) : Prop :=
  (cls x < cls y \/
   (cls x = cls y /\ (sexp x < sexp y \/ (sexp x = sexp y /\ sman x < sman y))))%Z.

Definition num_eq (x y : float) : Prop :=
  cls x = cls y /\ sexp x = sexp y /\ sman x = sman y.

Definition not_nan (x : float) : Prop := F64.is_nan x = false.

Definition key_ok (k : key) : Prop := not_nan (fst k) /\ not_nan (snd k).

(** The order on keys that a sorted list satisfies: [k2] is not below [k1]. *)
Definition key_le (k1 k2 : key) : Prop := key_lt k2 k1 = false.

(** Keys that compare equal in both components. *)
Definition key_eqb (k1 k2 : key) : bool :=
  F64.eqb (fst k1) (fst k2) && F64.eqb (snd k1) (snd k2).

(** ** Shapes of floats *)

(** The shape of a rounded result of sign [s]. *)
Definition has_sign (s : bool) (x : float) : Prop :=
  match x with
  | S754_zero s' | S754_infinity s' | S754_finite s' _ _ => s' = s
  | S754_nan => False
  end.

(** Neither a NaN nor an infinity. *)
Definition finite (x : float) : Prop := F64.is_finite x = true.

(** Not below zero (a NaN included, as [x < 0] is false for it). *)
Definition not_negative (x : float) : Prop :=
  match x with
  | S754_zero _ | S754_nan => True
  | S754_infinity s | S754_finite s _ _ => s = false
  end.

(** Equal as numbers: the same float, or two zeros of any signs. *)
Definition same_number (x y : float) : Prop :=
  x = y \/ exists s s', x = S754_zero s /\ y = S754_zero s'.

(** ** Invariants of the clustering loops *)

(** The entries a pass may still collect. *)
Definition unusedb (it : item) : bool := negb (used it).

Definition unused_count (items : list item) : nat :=
  List.length (filter unusedb items).

(** How a pass may change an entry: not at all, or by setting the flag of
    an entry that was not used yet. *)
Definition flag_step (a b : item) : Prop :=
  b = a \/ (used a = false /\ b = mark_used a).

(** What one pass over the entries does.  [added] is what the pass appends
    to [paragraph_items]. *)
Record scan_post (items paragraph_items : list item)
    (r : list item * list item * bool) (added : list item) : Prop := {
  sp_para : snd (fst r) = paragraph_items ++ added;
  sp_flags : Forall2 flag_step items (fst (fst r));
  sp_expanded : snd r = match added with [] => false | _ => true end;
  sp_count : unused_count items = unused_count (fst (fst r)) + List.length added;
  sp_members : Forall (fun a => exists c, In c items /\ used c = false /\ a = mark_used c) added;
  sp_split : Permutation (map item_det (filter unusedb items))
                         (map item_det added ++ map item_det (filter unusedb (fst (fst r))));
  sp_final : added = [] -> fst (fst r) = items
}.

(** The [while] loop: with more passes allowed than there are unused
    entries, it stops at a pass that adds nothing. *)
Record grow_post (mdf : float) (items paragraph_items : list item)
    (st : list item * list item) (added : list item) : Prop := {
  gp_para : snd st = paragraph_items ++ added;
  gp_flags : Forall2 flag_step items (fst st);
  gp_members : Forall (fun a => exists c, In c items /\ used c = false /\ a = mark_used c) added;
  gp_split : Permutation (map item_det (filter unusedb items))
                         (map item_det added ++ map item_det (filter unusedb (fst st)));
  gp_fixed : scan mdf (fst st) (snd st) = (fst st, snd st, false)
}.

(** Every entry before index [i] is used. *)
Definition used_before (i : nat) (items : list item) : Prop :=
  forall j it, j < i -> nth_error items j = Some it -> used it = true.

(** A paragraph built from a non-empty cluster of entries satisfying [Q]. *)
Definition built_from (Q : item -> Prop) (p : paragraph) : Prop :=
  exists para, para <> [] /\ Forall Q para /\ make_paragraph para = Ok p.

(** What is known of every entry of [items_with_props]. *)
Definition item_of (l : list detection) (it : item) : Prop :=
  In (item_det it) l /\ calculate_bbox_properties (i_bbox it) = Ok (i_props it).

(** ** Well-formed input and what is stated of the output *)

(** A point with finite coordinates. *)
Definition finite_point (pt : point) : Prop := finite (fst pt) /\ finite (snd pt).

(** A point, and a detection, without a NaN coordinate. *)
Definition numeric_point (pt : point) : Prop := not_nan (fst pt) /\ not_nan (snd pt).

Definition numeric_detection (d : detection) : Prop :=
  Forall numeric_point (det_bbox d).

(** A detection whose coordinates are all finite (no NaN, no infinity). *)
Definition finite_detection (d : detection) : Prop := Forall finite_point (det_bbox d).

(** The inputs the specification does not count as errors. *)
Definition finite_input (l : list detection) : Prop := Forall finite_detection l.

(** A detection whose derived center is a pair of numbers, and a list of
    such detections: the lists on which the two sort keys are never a NaN.
    (A NaN center needs a NaN coordinate, or infinite coordinates of both
    signs.) *)
Definition numeric_center (d : detection) : Prop :=
  forall p, calculate_bbox_properties (det_bbox d) = Ok p ->
            not_nan (center_x p) /\ not_nan (center_y p).

Definition numeric_centers (l : list detection) : Prop := Forall numeric_center l.

(** Reading order on rectangles: [center_y] ascending, then [center_x]
    descending. *)
Definition reading_le (p1 p2 : props) : Prop :=
  F64.le (center_y p1) (center_y p2) = true /\
  (F64.eqb (center_y p1) (center_y p2) = true ->
   F64.le (center_x p2) (center_x p1) = true).

(** The same, on detections, through their derived rectangles. *)
Definition det_reading_le (d1 d2 : detection) : Prop :=
  exists p1 p2,
    calculate_bbox_properties (det_bbox d1) = Ok p1 /\
    calculate_bbox_properties (det_bbox d2) = Ok p2 /\
    reading_le p1 p2.

(** Detections equal on both sort keys. *)
Definition same_center (d1 d2 : detection) : bool :=
  match calculate_bbox_properties (det_bbox d1),
        calculate_bbox_properties (det_bbox d2) with
  | Ok p1, Ok p2 =>
      F64.eqb (center_y p1) (center_y p2) && F64.eqb (center_x p1) (center_x p2)
  | _, _ => false
  end.

(** A relation that holds between every two consecutive entries. *)
Definition consecutive {X : Type} (R : X -> X -> Prop) (l : list X) : Prop :=
  forall i a b, nth_error l i = Some a -> nth_error l (S i) = Some b -> R a b.

(** The rectangle [bb] is axis-aligned and every corner of [d] lies inside. *)
Definition encloses (bb : option bbox) (d : detection) : Prop :=
  exists min_x min_y max_x max_y,
    bb = Some [(min_x, min_y); (max_x, min_y); (max_x, max_y); (min_x, max_y)] /\
    Forall (fun pt =>
              F64.le min_x (fst pt) = true /\ F64.le (fst pt) max_x = true /\
              F64.le min_y (snd pt) = true /\ F64.le (snd pt) max_y = true)
           (det_bbox d).

(** A rectangle record whose edges and extents are numbers. *)
Definition rect_ok (p : props) : Prop :=
  not_nan (left p) /\ not_nan (right p) /\ not_nan (top p) /\ not_nan (bottom p) /\
  not_nan (width p) /\ not_nan (height p).

(** A rectangle record in which a NaN edge shows in the extent: the width
    is a NaN when [left] or [right] is, and the height when [top] or
    [bottom] is.  Every record that [calculate_bbox_properties] returns is
    of this kind, whatever the bbox (width and height are differences of the
    edges), and so is every record whose edges are numbers. *)
Definition nan_edges_show (p : props) : Prop :=
  (not_nan (width p) -> not_nan (left p) /\ not_nan (right p)) /\
  (not_nan (height p) -> not_nan (top p) /\ not_nan (bottom p)).

(** Flattening all [individual_items] of a result. *)
Definition flatten_items (ps : list paragraph) : list detection :=
  List.concat (map individual_items ps).

(** Any two detections of [l] that are equal on both sort keys are the same
    detection. *)
Definition centers_identify (l : list detection) : Prop :=
  forall d1 d2, In d1 l -> In d2 l -> same_center d1 d2 = true -> d1 = d2.

(** ** The merge decision as the specification words it *)

(** Distance of two centers. *)
Definition euclidean (x1 y1 x2 y2 : float) : float :=
  let dx := F64.sub x1 x2 in
  let dy := F64.sub y1 y2 in
  F64.sqrt (F64.add (F64.mul dx dx) (F64.mul dy dy)).

(** [distance / avg_size] if [avg_size > 0], infinite otherwise, with
    [avg_size = ((width1 + width2) / 2 + (height1 + height2) / 2) / 2]. *)
Definition spec_relative_distance (r1 r2 : props) : float :=
  let avg_size :=
    F64.div (F64.add (F64.div (F64.add (width r1) (width r2)) F64.two)
                     (F64.div (F64.add (height r1) (height r2)) F64.two))
            F64.two in
  if F64.gt avg_size F64.zero
  then F64.div (euclidean (center_x r1) (center_y r1) (center_x r2) (center_y r2)) avg_size
  else F64.inf.

(** The rows [(condition, merge?)] of the decision table. *)
Definition decision_table (relative_distance max_distance_factor : float)
    (h_aligned v_aligned : bool) : list (bool * bool) :=
  [ (F64.gt relative_distance max_distance_factor, false);
    (F64.lt relative_distance F64.c1_5 && (h_aligned || v_aligned), true);
    (F64.lt relative_distance F64.c0_8, true);
    (true, false) ].

(** Evaluated in order, first match wins. *)
Fixpoint first_match (rows : list (bool * bool)) : bool :=
  match rows with
  | [] => false
  | (condition, verdict) :: rows' => if condition then verdict else first_match rows'
  end.

(** The verdict of the table for two rectangle records. *)
Definition merge_decision (r1 r2 : props) (max_distance_factor : float) : bool :=
  first_match (decision_table (spec_relative_distance r1 r2) max_distance_factor
                              (is_horizontally_aligned r1 r2)
                              (is_vertically_aligned r1 r2)).

(** A rectangle record of zero width and zero height. *)
Definition zero_size (r : props) : Prop :=
  F64.eqb (width r) F64.zero = true /\ F64.eqb (height r) F64.zero = true.

(** ** Scenario data *)

(** The axis-aligned box with corners [(x0, y0)] and [(x1, y1)], as the
    four points [(x0,y0), (x1,y0), (x1,y1), (x0,y1)]. *)
Definition rect (x0 y0 x1 y1 : Z) : bbox :=
  [(F64.of_Z x0, F64.of_Z y0); (F64.of_Z x1, F64.of_Z y0);
   (F64.of_Z x1, F64.of_Z y1); (F64.of_Z x0, F64.of_Z y1)].

(** The two detections of scenario A. *)
Definition D1 : detection := (rect 0 0 10 10, "A"%string, F64.of_ratio 9 10).
Definition D2 : detection := (rect 12 0 22 10, "B"%string, F64.of_ratio 8 10).

(** The paragraph that [group_paragraphs] returns for [D1; D2]. *)
Definition scenario_A_paragraph : paragraph :=
  {| p_text := "B A";
     p_bbox := Some (rect 0 0 22 10);
     p_score := F64.div (F64.add (F64.of_ratio 8 10) (F64.of_ratio 9 10)) F64.two;
     item_count := 2;
     individual_items := [D2; D1] |}.

(** The rectangle records of [D1] and [D2]. *)
Definition props_D1 : props :=
  mkProps (F64.of_Z 5) (F64.of_Z 5) (F64.of_Z 0) (F64.of_Z 10)
          (F64.of_Z 0) (F64.of_Z 10) (F64.of_Z 10) (F64.of_Z 10).
Definition props_D2 : props :=
  mkProps (F64.of_Z 17) (F64.of_Z 5) (F64.of_Z 12) (F64.of_Z 22)
          (F64.of_Z 0) (F64.of_Z 10) (F64.of_Z 10) (F64.of_Z 10).

(** Two coincident points. *)
Definition dot : props :=
  mkProps (F64.of_Z 3) (F64.of_Z 4) (F64.of_Z 3) (F64.of_Z 3)
          (F64.of_Z 4) (F64.of_Z 4) F64.zero F64.zero.

(** A box of three points. *)
Definition triangle : bbox :=
  [(F64.of_Z 0, F64.of_Z 0); (F64.of_Z 10, F64.of_Z 0); (F64.of_Z 5, F64.of_Z 8)].

(** A box of four points, one coordinate of which is a NaN. *)
Definition nan_box : bbox :=
  [(F64.nan, F64.of_Z 0); (F64.of_Z 10, F64.of_Z 0);
   (F64.of_Z 10, F64.of_Z 10); (F64.of_Z 0, F64.of_Z 10)].

(** A detection with that box, and the rectangle record derived from it. *)
Definition nan_det : detection := (nan_box, "N"%string, F64.of_ratio 9 10).

Definition props_nan_box : props :=
  mkProps F64.nan (F64.of_Z 5) F64.nan F64.nan
          (F64.of_Z 0) (F64.of_Z 10) F64.nan (F64.of_Z 10).


(** Six boxes that end in one paragraph.  [regroup_X] and [regroup_Y] share
    a center, and so do [regroup_T] and [regroup_U]. *)
Definition scored (b : bbox) (t : string) : detection := (b, t, F64.of_ratio 9 10).
Definition regroup_S : detection := scored (rect 38 19 48 29) "S".
Definition regroup_Y : detection := scored (rect 46 29 54 31) "Y".
Definition regroup_X : detection := scored (rect 49 20 51 40) "X".
Definition regroup_U : detection := scored (rect 65 54 67 56) "U".
Definition regroup_T : detection := scored (rect 51 35 81 75) "T".
Definition regroup_Q : detection := scored (rect 10 10 90 110) "Q".

Definition regroup_input : list detection :=
  [regroup_S; regroup_Y; regroup_X; regroup_U; regroup_T; regroup_Q].

(** Six boxes that end in one paragraph, in which the boxes that share a
    center, [zero_T] and [zero_U], hold its right edge: a zero, written
    [0.0] in the one and [-0.0] in the other. *)
Definition zero_S : detection := scored (rect (-27) 19 (-11) 29) "S".
Definition zero_Y : detection := scored (rect (-71) 26 (-23) 38) "Y".
Definition zero_X : detection := scored (rect (-63) 22 (-31) 42) "X".
Definition zero_T : detection := scored (rect (-38) 49 0 75) "T".
Definition zero_U : detection :=
  scored [(F64.of_Z (-38), F64.of_Z 58); (S754_zero true, F64.of_Z 58);
          (S754_zero true, F64.of_Z 66); (F64.of_Z (-38), F64.of_Z 66)] "U".
Definition zero_Q : detection := scored (rect (-51) 36 (-29) 94) "Q".

Definition zero_input : list detection :=
  [zero_S; zero_Y; zero_X; zero_U; zero_T; zero_Q].

(** ** Notions for the structure of the result *)

(** The sort key of an entry of [items_with_props]. *)
Definition item_key (it : item) : key := props_key (i_props it).

(** [b] is not before [a] in the order of the sort keys. *)
Definition key_not_above (a b : item) : Prop :=
  key_lt (item_key b) (item_key a) = false.

(** [added] is what the inner loop appended to [base], in the order of
    collection: every entry merged with an entry collected before it. *)
Fixpoint linked (mdf : float) (base added : list item) : Prop :=
  match added with
  | [] => True
  | c :: rest => merges_with mdf base c = true /\ linked mdf (base ++ [c]) rest
  end.

(** An entry, with its flag set, that was unused in [items]. *)
Definition from_unused (items : list item) (m : item) : Prop :=
  exists u, In u items /\ used u = false /\ m = mark_used u.

(** The merge verdict on two detections, through their rectangles. *)
Definition merges_det (mdf : float) (a b : detection) : Prop :=
  exists pa pb,
    calculate_bbox_properties (det_bbox a) = Ok pa /\
    calculate_bbox_properties (det_bbox b) = Ok pb /\
    should_merge_bubbles pa pb mdf = true.

Definition never_merges (mdf : float) (a b : detection) : Prop :=
  forall pa pb,
    calculate_bbox_properties (det_bbox a) = Ok pa ->
    calculate_bbox_properties (det_bbox b) = Ok pb ->
    should_merge_bubbles pa pb mdf = false.

(** Every detection of [rest] merges with one listed before it. *)
Fixpoint chained (mdf : float) (seen rest : list detection) : Prop :=
  match rest with
  | [] => True
  | d :: rest' => Exists (fun a => merges_det mdf a d) seen /\
                  chained mdf (seen ++ [d]) rest'
  end.

(** [avg_size] of [should_merge_bubbles]. *)
Definition avg_size (p1 p2 : props) : float :=
  let avg_width := F64.div (F64.add (width p1) (width p2)) F64.two in
  let avg_height := F64.div (F64.add (height p1) (height p2)) F64.two in
  F64.div (F64.add avg_width avg_height) F64.two.

(** The eight fields of two rectangle records are equal as numbers. *)
Definition same_rectangle (p p' : props) : Prop :=
  same_number (left p) (left p') /\ same_number (right p) (right p') /\
  same_number (top p) (top p') /\ same_number (bottom p) (bottom p') /\
  same_number (width p) (width p') /\ same_number (height p) (height p') /\
  same_number (center_x p) (center_x p') /\ same_number (center_y p) (center_y p').

(** The corners [(l,t), (r,t), (r,b), (l,b)] of a rectangle record. *)
Definition corners (p : props) : bbox :=
  [(left p, top p); (right p, top p); (right p, bottom p); (left p, bottom p)].

(** [v] is an x (a y) coordinate of a corner of a member. *)
Definition is_member_x (items : list item) (v : float) : Prop :=
  exists it pt, In it items /\ In pt (i_bbox it) /\ fst pt = v.
Definition is_member_y (items : list item) (v : float) : Prop :=
  exists it pt, In it items /\ In pt (i_bbox it) /\ snd pt = v.

(** The entries of [items_with_props] for [D2] and [D1]. *)
Definition scenario_A_items : list item :=
  [ mkItem (det_bbox D2) (det_text D2) (det_score D2) props_D2 false;
    mkItem (det_bbox D1) (det_text D1) (det_score D1) props_D1 false ].

(** A detection without any corner point, for the error cases. *)
Definition no_box : detection := ([], "?"%string, F64.of_ratio 5 10).

(** A box far from [D1], for the case of no merge. *)
Definition D3 : detection := (rect 200 0 210 10, "C"%string, F64.of_ratio 7 10).

(** ** Clusterings

    What a result of [group_paragraphs] is with respect to the merge
    verdict [G]: every cluster can be listed from one of its members so that
    each further member is in relation with one listed before it, and no
    member of a cluster is in relation, either way, with a member of
    another cluster. *)

Section Clustering.
Context {D : Type}.
Variable G : D -> D -> Prop.

Fixpoint chain (seen rest : list D) : Prop :=
  match rest with
  | [] => True
  | d :: rest' => Exists (fun a => G a d) seen /\ chain (seen ++ [d]) rest'
  end.

Definition connected (c : list D) : Prop :=
  exists seed rest, Permutation (seed :: rest) c /\ chain [seed] rest.

Definition separated (c c' : list D) : Prop :=
  forall a b, In a c -> In b c' -> ~ G a b /\ ~ G b a.

Definition clustering (cl : list (list D)) : Prop :=
  Forall connected cl /\ ForallOrdPairs separated cl.
End Clustering.

(** ** Equivalent results *)

(** Not a NaN, as a test. *)
Definition numericb (x : float) : bool := negb (F64.is_nan x).

(** Two points, and two bboxes, with the same numbers as coordinates. *)
Definition same_point (a b : point) : Prop :=
  same_number (fst a) (fst b) /\ same_number (snd a) (snd b).

Definition same_box (b b' : option bbox) : Prop :=
  match b, b' with
  | Some r, Some r' => Forall2 same_point r r'
  | None, None => True
  | _, _ => False
  end.

(** A paragraph made from a seed and what the inner loop collected. *)
Definition collected (mdf : float) (p : paragraph) : Prop :=
  exists seed added,
    make_paragraph (seed :: added) = Ok p /\ linked mdf [seed] added /\
    Forall (fun it => calculate_bbox_properties (i_bbox it) = Ok (i_props it))
           (seed :: added).

(** Two paragraphs of the same members: the same detections with the same
    multiplicities, hence the same count, and the same bbox; and the very
    same paragraph (members in the same order, same text, same score) when
    no two distinct members have the same center. *)
Definition same_cluster (p q : paragraph) : Prop :=
  Permutation (individual_items p) (individual_items q) /\
  item_count q = item_count p /\
  same_box (p_bbox p) (p_bbox q) /\
  (centers_identify (individual_items p) -> q = p).

(** Two results with the same clusters, in any order of the paragraphs. *)
Definition equivalent_partition (ps ps' : list paragraph) : Prop :=
  exists qs, Permutation qs ps' /\ Forall2 same_cluster ps qs.

(** ** The pre-pass of [api_read_text]

    Before grouping, a text without any space is split by the word
    splitter, when there is one ([wordninja], or [None] when it could not
    be imported), and the tokens are joined by single spaces. *)

(** [" " in text]. *)
Definition contains_space (text : string) : bool :=
  existsb (Ascii.eqb " "%char) (list_ascii_of_string text).

Definition fix_text (splitter : option (string -> list string)) (text : string)
    : string :=
  match splitter with
  | Some split => if negb (contains_space text) then join_space (split text) else text
  | None => text
  end.

(** [fixed_results], as the tuples handed to [group_paragraphs]. *)
Definition fix_results (splitter : option (string -> list string))
    (results : list detection) : list detection :=
  map (fun d => (det_bbox d, fix_text splitter (det_text d), det_score d)) results.

(** The paragraphs of a response: the grouping of the fixed results with
    [max_distance_factor=2.0]. *)
Definition read_text_paragraphs (splitter : option (string -> list string))
    (results : list detection) : result (list paragraph) :=
  group_paragraphs (fix_results splitter results) F64.two.

(** * Properties *)

(** ** Float comparisons *)

Lemma compare_rank (x y : float) :
  not_nan x -> not_nan y ->
  match SFcompare x y with
  | Some Lt => num_lt x y
  | Some Eq => num_eq x y
  | Some Gt => num_lt y x
  | None => False
  end.
Proof.
  unfold not_nan, num_lt, num_eq.
  destruct x as [sx|sx| |sx mx ex], y as [sy|sy| |sy my ey];
    simpl; try discriminate; intros _ _;
    try (destruct sx; simpl; try lia; fail);
    try (destruct sy; simpl; try lia; fail);
    try (destruct sx, sy; simpl; lia).
  change (Pos.compare_cont Eq mx my) with (Pos.compare mx my).
  destruct sx, sy; simpl; try lia;
    destruct (Z.compare_spec ex ey); try lia;
    destruct (Pos.compare_spec mx my); simpl; subst; lia.
Qed.

Ltac fcmp x y :=
  let H := fresh "Hcmp" in
  match goal with
  | Hx : not_nan x, Hy : not_nan y |- _ =>
      pose proof (compare_rank x y Hx Hy) as H; destruct (SFcompare x y) as [[ | | ]|];
      try contradiction
  end.

Ltac funfold :=
  unfold F64.lt, F64.gt, F64.eqb, F64.le, SFltb, SFeqb, SFleb in *.

Lemma lt_iff (x y : float) :
  not_nan x -> not_nan y -> (F64.lt x y = true <-> num_lt x y).
Proof.
  intros Hx Hy. funfold. fcmp x y; unfold num_lt, num_eq in *;
    split; intros; try discriminate; try reflexivity; lia.
Qed.

Lemma eqb_iff (x y : float) :
  not_nan x -> not_nan y -> (F64.eqb x y = true <-> num_eq x y).
Proof.
  intros Hx Hy. funfold. fcmp x y; unfold num_lt, num_eq in *;
    split; intros; try discriminate; try reflexivity; lia.
Qed.

Lemma gt_lt (x y : float) : F64.gt x y = F64.lt y x.
Proof.
  funfold.
  destruct x as [sx|sx| |sx mx ex], y as [sy|sy| |sy my ey]; simpl; try reflexivity;
    try (destruct sx; reflexivity); try (destruct sy; reflexivity);
    try (destruct sx, sy; reflexivity).
  change (Pos.compare_cont Eq mx my) with (Pos.compare mx my).
  change (Pos.compare_cont Eq my mx) with (Pos.compare my mx).
  rewrite (Pos.compare_antisym mx my), (Z.compare_antisym ex ey).
  destruct sx, sy; simpl; try reflexivity;
    destruct (ex ?= ey)%Z; simpl; try reflexivity;
    destruct (mx ?= my)%positive; reflexivity.
Qed.

Lemma le_iff (x y : float) :
  not_nan x -> not_nan y -> (F64.le x y = true <-> num_lt x y \/ num_eq x y).
Proof.
  intros Hx Hy. funfold. fcmp x y; unfold num_lt, num_eq in *;
    split; intros; try discriminate; try reflexivity; lia.
Qed.

Lemma lt_false_iff (x y : float) :
  not_nan x -> not_nan y -> (F64.lt x y = false <-> num_lt y x \/ num_eq x y).
Proof.
  intros Hx Hy. funfold. fcmp x y; unfold num_lt, num_eq in *;
    split; intros; try discriminate; try reflexivity; lia.
Qed.

Lemma eqb_false_iff (x y : float) :
  not_nan x -> not_nan y -> (F64.eqb x y = false <-> num_lt x y \/ num_lt y x).
Proof.
  intros Hx Hy. funfold. fcmp x y; unfold num_lt, num_eq in *;
    split; intros; try discriminate; try reflexivity; lia.
Qed.

Lemma lt_true_not_nan (x y : float) : F64.lt x y = true -> not_nan x /\ not_nan y.
Proof.
  unfold F64.lt, SFltb, not_nan. destruct x, y; simpl; try discriminate; auto.
Qed.

Lemma le_true_not_nan (x y : float) : F64.le x y = true -> not_nan x /\ not_nan y.
Proof.
  unfold F64.le, SFleb, not_nan. destruct x, y; simpl; try discriminate; auto.
Qed.

Lemma neg_not_nan (x : float) : not_nan x -> not_nan (F64.neg x).
Proof. destruct x; simpl; auto. Qed.

Lemma num_lt_neg (x y : float) :
  not_nan x -> not_nan y -> (num_lt (F64.neg x) (F64.neg y) <-> num_lt y x).
Proof.
  unfold num_lt, not_nan.
  destruct x as [sx|sx| |sx mx ex], y as [sy|sy| |sy my ey];
    try destruct sx; try destruct sy; simpl; try discriminate; lia.
Qed.

Lemma num_eq_neg (x y : float) :
  not_nan x -> not_nan y -> (num_eq (F64.neg x) (F64.neg y) <-> num_eq x y).
Proof.
  unfold num_eq, not_nan.
  destruct x as [sx|sx| |sx mx ex], y as [sy|sy| |sy my ey];
    try destruct sx; try destruct sy; simpl; try discriminate; lia.
Qed.

(** ** The order on sort keys *)

Lemma key_lt_iff (a b : key) :
  key_ok a -> key_ok b ->
  (key_lt a b = true <->
   num_lt (fst a) (fst b) \/ (num_eq (fst a) (fst b) /\ num_lt (snd a) (snd b))).
Proof.
  intros [Ha1 Ha2] [Hb1 Hb2]. unfold key_lt.
  destruct (F64.eqb (fst a) (fst b)) eqn:E1.
  - apply eqb_iff in E1; auto.
    destruct (F64.eqb (snd a) (snd b)) eqn:E2.
    + apply eqb_iff in E2; auto. unfold num_lt, num_eq in *.
      split; intros; try discriminate. lia.
    + rewrite lt_iff by auto. unfold num_lt, num_eq in *. split; intros; [ right; auto | lia ].
  - apply eqb_false_iff in E1; auto. rewrite lt_iff by auto.
    unfold num_lt, num_eq in *. split; intros; [ left; auto | lia ].
Qed.

Lemma key_le_iff (a b : key) :
  key_ok a -> key_ok b ->
  (key_le a b <->
   num_lt (fst a) (fst b) \/
   (num_eq (fst a) (fst b) /\ (num_lt (snd a) (snd b) \/ num_eq (snd a) (snd b)))).
Proof.
  intros Ha Hb. unfold key_le.
  pose proof (key_lt_iff b a Hb Ha) as H.
  destruct (key_lt b a).
  - destruct H as [H _]. specialize (H eq_refl).
    unfold num_lt, num_eq in *. split; intros; [ discriminate | lia ].
  - assert (H' : ~ (num_lt (fst b) (fst a) \/
                    num_eq (fst b) (fst a) /\ num_lt (snd b) (snd a)))
      by (intro C; apply H in C; discriminate).
    unfold num_lt, num_eq in *. split; intros; [ lia | reflexivity ].
Qed.

Lemma key_le_trans (a b c : key) :
  key_ok a -> key_ok b -> key_ok c -> key_le a b -> key_le b c -> key_le a c.
Proof.
  intros Ha Hb Hc. rewrite !key_le_iff by assumption.
  unfold num_lt, num_eq. lia.
Qed.

Lemma key_lt_le (a b : key) :
  key_ok a -> key_ok b -> key_lt a b = true -> key_le a b.
Proof.
  intros Ha Hb. rewrite key_lt_iff, key_le_iff by assumption.
  unfold num_lt, num_eq. lia.
Qed.

Lemma key_le_total (a b : key) :
  key_ok a -> key_ok b -> key_lt a b = false -> key_le b a.
Proof. intros _ _ H. exact H. Qed.

Lemma key_eqb_iff (a b : key) :
  key_ok a -> key_ok b -> (key_eqb a b = true <-> key_le a b /\ key_le b a).
Proof.
  intros Ha Hb. rewrite !key_le_iff by assumption.
  unfold key_eqb. rewrite andb_true_iff.
  destruct Ha, Hb. rewrite !eqb_iff by assumption.
  unfold num_lt, num_eq. lia.
Qed.

(** ** [min] and [max] *)

Lemma min_from_in (l : list float) : forall b, In (min_from b l) (b :: l).
Proof.
  induction l as [|x l IH]; intros b; simpl.
  - now left.
  - destruct (IH (if F64.lt x b then x else b)) as [H|H].
    + destruct (F64.lt x b); rewrite <- H; auto.
    + auto.
Qed.

Lemma max_from_in (l : list float) : forall b, In (max_from b l) (b :: l).
Proof.
  induction l as [|x l IH]; intros b; simpl.
  - now left.
  - destruct (IH (if F64.gt x b then x else b)) as [H|H].
    + destruct (F64.gt x b); rewrite <- H; auto.
    + auto.
Qed.

Lemma le_refl (x : float) : not_nan x -> F64.le x x = true.
Proof. intros Hx. apply le_iff; auto. unfold num_lt, num_eq. lia. Qed.

Lemma le_trans (x y z : float) :
  not_nan x -> not_nan y -> not_nan z ->
  F64.le x y = true -> F64.le y z = true -> F64.le x z = true.
Proof.
  intros Hx Hy Hz. rewrite !le_iff by assumption. unfold num_lt, num_eq. lia.
Qed.

Lemma min_from_le (l : list float) :
  forall b, not_nan b -> Forall not_nan l ->
  forall x, In x (b :: l) -> F64.le (min_from b l) x = true.
Proof.
  induction l as [|y l IH]; intros b Hb Hl x Hx; simpl.
  - destruct Hx as [<-|[]]. now apply le_refl.
  - inversion Hl as [|? ? Hy Hl']; subst.
    set (b' := if F64.lt y b then y else b).
    assert (Hb' : not_nan b') by (unfold b'; destruct (F64.lt y b); assumption).
    assert (Hm : not_nan (min_from b' l)).
    { destruct (min_from_in l b') as [<-|Hin]; auto.
      rewrite Forall_forall in Hl'. auto. }
    assert (Hbb : F64.le b' b = true /\ F64.le b' y = true).
    { unfold b'. destruct (F64.lt y b) eqn:E.
      - apply lt_iff in E; auto. rewrite !le_iff by assumption.
        unfold num_lt, num_eq in *. lia.
      - apply lt_false_iff in E; auto. rewrite !le_iff by assumption.
        unfold num_lt, num_eq in *. lia. }
    destruct Hx as [<-|[<-|Hx]].
    + apply le_trans with b'; auto. apply IH; simpl; auto. tauto.
    + apply le_trans with b'; auto. apply IH; simpl; auto. tauto.
    + apply IH; simpl; auto.
Qed.

Lemma max_from_ge (l : list float) :
  forall b, not_nan b -> Forall not_nan l ->
  forall x, In x (b :: l) -> F64.le x (max_from b l) = true.
Proof.
  induction l as [|y l IH]; intros b Hb Hl x Hx; simpl.
  - destruct Hx as [<-|[]]. now apply le_refl.
  - inversion Hl as [|? ? Hy Hl']; subst.
    rewrite gt_lt.
    set (b' := if F64.lt b y then y else b).
    assert (Hb' : not_nan b') by (unfold b'; destruct (F64.lt b y); assumption).
    assert (Hm : not_nan (max_from b' l)).
    { destruct (max_from_in l b') as [<-|Hin]; auto.
      rewrite Forall_forall in Hl'. auto. }
    assert (Hbb : F64.le b b' = true /\ F64.le y b' = true).
    { unfold b'. destruct (F64.lt b y) eqn:E.
      - apply lt_iff in E; auto. rewrite !le_iff by assumption.
        unfold num_lt, num_eq in *. lia.
      - apply lt_false_iff in E; auto. rewrite !le_iff by assumption.
        unfold num_lt, num_eq in *. lia. }
    destruct Hx as [<-|[<-|Hx]].
    + apply le_trans with b'; auto. tauto. apply IH; simpl; auto.
    + apply le_trans with b'; auto. tauto. apply IH; simpl; auto.
    + apply IH; simpl; auto.
Qed.

(** ** The stable sort *)

Section StableSort.
Context {K A : Type}.
Variable ltK : K -> K -> bool.

Let leK (x y : K * A) : Prop := ltK (fst y) (fst x) = false.

Lemma insert_keyed_perm (x : K * A) (l : list (K * A)) :
  Permutation (insert_keyed ltK x l) (x :: l).
Proof.
  induction l as [|y l IH]; simpl.
  - apply Permutation_refl.
  - destruct (ltK (fst y) (fst x)).
    + eapply perm_trans; [ apply perm_skip, IH | apply perm_swap ].
    + apply Permutation_refl.
Qed.

Lemma sort_keyed_perm (l : list (K * A)) : Permutation (sort_keyed ltK l) l.
Proof.
  induction l as [|x l IH]; simpl.
  - constructor.
  - eapply perm_trans; [ apply insert_keyed_perm | now apply perm_skip ].
Qed.

(** Elements selected by [p] that are never strictly below one another
    keep their input order. *)
Lemma insert_keyed_filter (p : K * A -> bool) (x : K * A) (l : list (K * A)) :
  (p x = true -> forall y, In y l -> ltK (fst y) (fst x) = true -> p y = false) ->
  filter p (insert_keyed ltK x l) = filter p (x :: l).
Proof.
  induction l as [|y l IH]; intros H; simpl.
  - reflexivity.
  - destruct (ltK (fst y) (fst x)) eqn:E; [ | reflexivity ].
    simpl. rewrite IH by (intros Hx z Hz; apply H; simpl; auto).
    simpl. destruct (p x) eqn:Px; [ | reflexivity ].
    rewrite (H eq_refl y (or_introl eq_refl) E). reflexivity.
Qed.

Lemma sort_keyed_stable (p : K * A -> bool) (l : list (K * A)) :
  (forall x y, In x l -> In y l -> p x = true -> p y = true ->
               ltK (fst y) (fst x) = false) ->
  filter p (sort_keyed ltK l) = filter p l.
Proof.
  induction l as [|x l IH]; intros H; simpl.
  - reflexivity.
  - rewrite insert_keyed_filter.
    + simpl. rewrite IH by (intros; apply H; simpl; auto). reflexivity.
    + intros Px y Hy E.
      destruct (p y) eqn:Py; [ | reflexivity ].
      assert (Hy' : In y l)
        by (eapply Permutation_in; [ apply sort_keyed_perm | exact Hy ]).
      rewrite (H x y) in E; simpl; auto.
Qed.

(** Two sorted arrangements of one multiset are equal when elements that
    are mutually not below each other are equal. *)
Lemma sorted_unique (l1 : list (K * A)) :
  forall l2,
  StronglySorted leK l1 -> StronglySorted leK l2 -> Permutation l1 l2 ->
  (forall x y, In x l1 -> In y l1 -> leK x y -> leK y x -> x = y) ->
  l1 = l2.
Proof.
  induction l1 as [|a l1 IH]; intros l2 S1 S2 P Huniq.
  - apply Permutation_nil in P. now subst.
  - destruct l2 as [|b l2].
    { apply Permutation_sym, Permutation_nil in P. discriminate. }
    inversion S1 as [|? ? S1' F1]; inversion S2 as [|? ? S2' F2]; subst.
    rewrite Forall_forall in F1, F2.
    assert (Hab : a = b).
    { assert (Ha : In a (b :: l2))
        by (eapply Permutation_in; [ exact P | now left ]).
      assert (Hb : In b (a :: l1))
        by (eapply Permutation_in; [ apply Permutation_sym; exact P | now left ]).
      destruct Ha as [Ha|Ha]; [ now symmetry | ].
      destruct Hb as [Hb|Hb]; [ assumption | ].
      apply Huniq; simpl; auto. }
    subst b. f_equal. apply IH; auto.
    + eapply Permutation_cons_inv; exact P.
    + intros; apply Huniq; simpl; auto.
Qed.

Variable ok : K -> Prop.
Hypothesis le_transK : forall a b c, ok a -> ok b -> ok c ->
  ltK b a = false -> ltK c b = false -> ltK c a = false.
Hypothesis lt_leK : forall a b, ok a -> ok b -> ltK a b = true -> ltK b a = false.

Lemma insert_keyed_sorted (x : K * A) (l : list (K * A)) :
  ok (fst x) -> Forall (fun y => ok (fst y)) l ->
  StronglySorted leK l -> StronglySorted leK (insert_keyed ltK x l).
Proof.
  intros Hx. induction l as [|y l IH]; intros Hok S; simpl.
  - repeat constructor.
  - inversion Hok as [|? ? Hy Hok']; inversion S as [|? ? S' F]; subst.
    destruct (ltK (fst y) (fst x)) eqn:E.
    + constructor; [ now apply IH | ].
      rewrite Forall_forall in *. intros z Hz.
      apply (Permutation_in _ (insert_keyed_perm x l)) in Hz.
      destruct Hz as [<-|Hz]; [ | now apply F ].
      unfold leK. now apply lt_leK.
    + constructor; [ exact S | ].
      constructor; [ exact E | ].
      rewrite Forall_forall in *. intros z Hz. unfold leK.
      apply le_transK with (fst y); auto. now apply F.
Qed.

Lemma sort_keyed_sorted (l : list (K * A)) :
  Forall (fun y => ok (fst y)) l -> StronglySorted leK (sort_keyed ltK l).
Proof.
  induction l as [|x l IH]; intros Hok; simpl.
  - constructor.
  - inversion Hok; subst. apply insert_keyed_sorted; auto.
    rewrite Forall_forall in *. intros y Hy.
    apply (Permutation_in _ (sort_keyed_perm l)) in Hy. auto.
Qed.

End StableSort.

(** ** Rounding never invents a NaN or a sign *)

Lemma iter_pos_inv {T : Type} (f : T -> T) (P : T -> Prop) :
  (forall x, P x -> P (f x)) ->
  forall n x, P x -> P (iter_pos f n x).
Proof.
  intros Hf. induction n as [n IH|n IH|]; intros x Hx; simpl; auto.
Qed.

Lemma shr_1_nonneg (mrs : shr_record) :
  (0 <= shr_m mrs)%Z -> (0 <= shr_m (shr_1 mrs))%Z.
Proof.
  destruct mrs as [m r s]. simpl.
  destruct m as [|[p|p|]|[p|p|]]; simpl; lia.
Qed.

Lemma shr_nonneg (mrs : shr_record) (e n : Z) :
  (0 <= shr_m mrs)%Z -> (0 <= shr_m (fst (shr mrs e n)))%Z.
Proof.
  intros H. unfold shr. destruct n; simpl; auto.
  apply iter_pos_inv with (P := fun r => (0 <= shr_m r)%Z); auto.
  apply shr_1_nonneg.
Qed.

Lemma shr_fexp_nonneg (m e : Z) (l : location) :
  (0 <= m)%Z -> (0 <= shr_m (fst (shr_fexp F64.prec F64.emax m e l)))%Z.
Proof.
  intros H. unfold shr_fexp. apply shr_nonneg.
  destruct l as [|[ | | ]]; simpl; assumption.
Qed.

Lemma round_nearest_even_nonneg (m : Z) (l : location) :
  (0 <= m)%Z -> (0 <= round_nearest_even m l)%Z.
Proof.
  intros H. destruct l as [|[ | | ]]; simpl; try lia.
  destruct (Z.even m); lia.
Qed.

Lemma binary_round_aux_sign (s : bool) (m e : Z) (l : location) :
  (0 <= m)%Z -> has_sign s (binary_round_aux F64.prec F64.emax s m e l).
Proof.
  intros H. unfold binary_round_aux.
  pose proof (shr_fexp_nonneg m e l H) as H1.
  destruct (shr_fexp F64.prec F64.emax m e l) as [mrs' e'].
  simpl in H1.
  pose proof (shr_fexp_nonneg _ e' loc_Exact
                (round_nearest_even_nonneg _ (loc_of_shr_record mrs') H1)) as H2.
  destruct (shr_fexp F64.prec F64.emax
              (round_nearest_even (shr_m mrs') (loc_of_shr_record mrs')) e' loc_Exact)
    as [mrs'' e''].
  simpl in H2.
  destruct (shr_m mrs'') as [|p|p]; simpl; try reflexivity; try lia.
  destruct (e'' <=? _)%Z; simpl; reflexivity.
Qed.

Lemma binary_round_sign (s : bool) (m : positive) (e : Z) :
  has_sign s (binary_round F64.prec F64.emax s m e).
Proof.
  unfold binary_round.
  destruct (shl_align m e _) as [mz ez].
  apply binary_round_aux_sign. lia.
Qed.

Lemma has_sign_not_nan (s : bool) (x : float) : has_sign s x -> not_nan x.
Proof. destruct x; simpl; intros H; try reflexivity; contradiction. Qed.

Lemma binary_normalize_not_nan (m e : Z) (s : bool) :
  not_nan (binary_normalize F64.prec F64.emax m e s).
Proof.
  unfold binary_normalize. destruct m; try reflexivity;
    eapply has_sign_not_nan, binary_round_sign.
Qed.

Lemma finite_not_nan (x : float) : finite x -> not_nan x.
Proof. destruct x; simpl; unfold finite, not_nan; simpl; congruence. Qed.

Lemma add_finite_not_nan (x y : float) :
  finite x -> finite y -> not_nan (F64.add x y).
Proof.
  unfold finite, F64.add, SFadd.
  destruct x as [sx|sx| |sx mx ex], y as [sy|sy| |sy my ey];
    simpl; try discriminate; intros _ _; try reflexivity.
  - destruct sx, sy; reflexivity.
  - apply binary_normalize_not_nan.
Qed.

Lemma sub_finite_not_nan (x y : float) :
  finite x -> finite y -> not_nan (F64.sub x y).
Proof.
  unfold finite, F64.sub, SFsub.
  destruct x as [sx|sx| |sx mx ex], y as [sy|sy| |sy my ey];
    simpl; try discriminate; intros _ _; try reflexivity.
  - destruct sx, sy; reflexivity.
  - apply binary_normalize_not_nan.
Qed.

Lemma div_two_not_nan (x : float) : not_nan x -> not_nan (F64.div x F64.two).
Proof.
  unfold not_nan, F64.div, F64.two, SFdiv.
  destruct x as [sx|sx| |sx mx ex]; simpl; try discriminate; intros _; try reflexivity.
  destruct (SFdiv_core_binary F64.prec F64.emax (Z.pos mx) ex
              (Z.pos 4503599627370496) (-51)) as [[mz ez] lz] eqn:E.
  eapply has_sign_not_nan, binary_round_aux_sign.
  unfold SFdiv_core_binary in E.
  set (m' := match _ with Z.pos _ => _ | Z0 => _ | Z.neg _ => _ end) in E.
  assert (Hm' : (0 <= m')%Z).
  { unfold m'. destruct (_ - _ - _)%Z; try lia. apply Z.shiftl_nonneg. lia. }
  pose proof (Z.div_pos m' (Z.pos 4503599627370496) Hm' eq_refl) as Hq.
  unfold Z.div in Hq.
  destruct (Z.div_eucl m' (Z.pos 4503599627370496)) as [q r].
  inversion E; subst. exact Hq.
Qed.

Lemma has_sign_false_not_negative (x : float) : has_sign false x -> not_negative x.
Proof. destruct x; simpl; auto. Qed.

Lemma square_not_negative (x : float) : not_negative (F64.mul x x).
Proof.
  unfold F64.mul, SFmul. destruct x as [s|s| |s m e]; simpl; auto.
  - now destruct s.
  - apply has_sign_false_not_negative.
    replace (xorb s s) with false by (now destruct s).
    apply binary_round_aux_sign. lia.
Qed.

Lemma add_not_negative (x y : float) :
  not_negative x -> not_negative y -> not_negative (F64.add x y).
Proof.
  unfold F64.add, SFadd.
  destruct x as [sx|sx| |sx mx ex], y as [sy|sy| |sy my ey]; simpl; auto;
    intros Hx Hy; subst; simpl; auto;
    try (repeat match goal with s : bool |- _ => destruct s end; simpl; auto; fail).
  apply has_sign_false_not_negative, binary_round_sign.
Qed.

Lemma not_negative_lt_zero (x : float) : not_negative x -> F64.lt x F64.zero = false.
Proof.
  destruct x as [s|s| |s m e]; simpl; intros H; subst; reflexivity.
Qed.

Lemma sum_squares_not_neg (dx dy : float) :
  F64.lt (F64.add (F64.mul dx dx) (F64.mul dy dy)) F64.zero = false.
Proof.
  apply not_negative_lt_zero, add_not_negative; apply square_not_negative.
Qed.

(** ** The clustering loops *)

Lemma flag_step_refl (l : list item) : Forall2 flag_step l l.
Proof. induction l; constructor; auto. now left. Qed.

Lemma flag_step_trans (l1 l2 l3 : list item) :
  Forall2 flag_step l1 l2 -> Forall2 flag_step l2 l3 -> Forall2 flag_step l1 l3.
Proof.
  intros H. revert l3. induction H as [|a b l1 l2 Hab H IH]; intros l3 H3.
  - inversion H3. constructor.
  - inversion H3 as [|? c ? l3' Hbc H3']; subst. constructor; auto.
    destruct Hab as [->|[Ha ->]]; [ exact Hbc | ].
    destruct Hbc as [->|[Hb _]]; [ right; auto | discriminate ].
Qed.

Lemma flag_step_det (a b : item) : flag_step a b -> item_det b = item_det a.
Proof. intros [->|[_ ->]]; reflexivity. Qed.

Lemma flag_step_length (l1 l2 : list item) :
  Forall2 flag_step l1 l2 -> List.length l2 = List.length l1.
Proof. intros H. symmetry. eapply Forall2_length; eauto. Qed.

Lemma flag_step_dets (l1 l2 : list item) :
  Forall2 flag_step l1 l2 -> map item_det l2 = map item_det l1.
Proof.
  induction 1 as [|a b l1 l2 Hab H IH]; simpl; [ reflexivity | ].
  now rewrite IH, (flag_step_det a b).
Qed.

Lemma filter_unused_used (c : item) (l : list item) :
  used c = true -> filter unusedb (c :: l) = filter unusedb l.
Proof. intros H. simpl. unfold unusedb at 1. now rewrite H. Qed.

Lemma filter_unused_unused (c : item) (l : list item) :
  used c = false -> filter unusedb (c :: l) = c :: filter unusedb l.
Proof. intros H. simpl. unfold unusedb at 1. now rewrite H. Qed.

Lemma members_cons (c : item) (rest added : list item) :
  Forall (fun a => exists c0, In c0 rest /\ used c0 = false /\ a = mark_used c0) added ->
  Forall (fun a => exists c0, In c0 (c :: rest) /\ used c0 = false /\ a = mark_used c0) added.
Proof.
  apply Forall_impl. intros a (c0 & ? & ? & ?). exists c0. simpl; auto.
Qed.

Lemma scan_spec (mdf : float) (items : list item) :
  forall paragraph_items,
  exists added, scan_post items paragraph_items (scan mdf items paragraph_items) added.
Proof.
  induction items as [|c rest IH]; intros para.
  - exists []. constructor; simpl; auto using app_nil_r.
  - cbn [scan]. destruct (used c) eqn:Hu.
    + destruct (IH para) as [added [P1 P2 P3 P4 P5 P6 P7]].
      destruct (scan mdf rest para) as [[rest' para'] e]; cbn [fst snd] in *.
      exists added. constructor; cbn [fst snd]; auto using members_cons.
      * constructor; auto. now left.
      * unfold unused_count in *. rewrite !filter_unused_used by assumption. exact P4.
      * rewrite !filter_unused_used by assumption. exact P6.
      * intros E. now rewrite P7.
    + destruct (merges_with mdf para c) eqn:Hm.
      * destruct (IH (para ++ [mark_used c])) as [added [P1 P2 P3 P4 P5 P6 P7]].
        destruct (scan mdf rest (para ++ [mark_used c])) as [[rest' para'] e];
          cbn [fst snd] in *.
        exists (mark_used c :: added). constructor; cbn [fst snd]; auto.
        -- now rewrite P1, <- app_assoc.
        -- constructor; auto. right; auto.
        -- unfold unused_count in *.
           rewrite filter_unused_unused by assumption.
           rewrite filter_unused_used by reflexivity.
           cbn [List.length]. rewrite P4. lia.
        -- constructor; [ exists c; simpl; auto | now apply members_cons ].
        -- rewrite filter_unused_unused by assumption.
           rewrite filter_unused_used by reflexivity.
           cbn [map app]. now apply perm_skip.
        -- discriminate.
      * destruct (IH para) as [added [P1 P2 P3 P4 P5 P6 P7]].
        destruct (scan mdf rest para) as [[rest' para'] e]; cbn [fst snd] in *.
        exists added. constructor; cbn [fst snd]; auto using members_cons.
        -- constructor; auto. now left.
        -- unfold unused_count in *. rewrite !filter_unused_unused by assumption.
           cbn [List.length]. rewrite P4. lia.
        -- rewrite !filter_unused_unused by assumption. cbn [map].
           apply Permutation_cons_app. exact P6.
        -- intros E. now rewrite P7.
Qed.

Lemma Forall2_In_r {X Y : Type} (R : X -> Y -> Prop) (l : list X) (l' : list Y) :
  Forall2 R l l' -> forall b, In b l' -> exists a, In a l /\ R a b.
Proof.
  induction 1 as [|x y l l' Hxy H IH]; intros b Hb; [ contradiction | ].
  destruct Hb as [<-|Hb].
  - exists x. simpl; auto.
  - destruct (IH b Hb) as (a & ? & ?). exists a. simpl; auto.
Qed.

Lemma Forall2_In_l {X Y : Type} (R : X -> Y -> Prop) (l : list X) (l' : list Y) :
  Forall2 R l l' -> forall a, In a l -> exists b, In b l' /\ R a b.
Proof.
  induction 1 as [|x y l l' Hxy H IH]; intros a Ha; [ contradiction | ].
  destruct Ha as [<-|Ha].
  - exists y. simpl; auto.
  - destruct (IH a Ha) as (b & ? & ?). exists b. simpl; auto.
Qed.

Lemma members_step (items items' : list item) (added : list item) :
  Forall2 flag_step items items' ->
  Forall (fun a => exists c, In c items' /\ used c = false /\ a = mark_used c) added ->
  Forall (fun a => exists c, In c items /\ used c = false /\ a = mark_used c) added.
Proof.
  intros F. apply Forall_impl. intros a (c & Hc & Hu & ->).
  destruct (Forall2_In_r _ _ _ F c Hc) as (c0 & Hc0 & Hstep).
  destruct Hstep as [->|[_ ->]]; [ eauto | discriminate ].
Qed.

Lemma grow_spec (mdf : float) (fuel : nat) :
  forall items paragraph_items,
  unused_count items < fuel ->
  exists st added,
    grow fuel mdf items paragraph_items = Ok st /\
    grow_post mdf items paragraph_items st added.
Proof.
  induction fuel as [|fuel IH]; intros items para Hfuel; [ lia | ].
  simpl.
  destruct (scan_spec mdf items para) as [added [P1 P2 P3 P4 P5 P6 P7]].
  destruct (scan mdf items para) as [[items' para'] e] eqn:E; simpl in *.
  destruct added as [|a added]; subst e.
  - exists (items', para'), []. split; [ reflexivity | ].
    rewrite (P7 eq_refl) in *. rewrite app_nil_r in P1. subst para'.
    constructor; simpl; auto using app_nil_r, flag_step_refl.
  - destruct (IH items' para') as (st & added' & Hst & [G1 G2 G3 G4 G5]).
    { simpl in P4. lia. }
    exists st, ((a :: added) ++ added'). split; [ exact Hst | ].
    constructor; auto.
    + rewrite G1, P1. now rewrite app_assoc.
    + eapply flag_step_trans; eauto.
    + apply Forall_app. split; [ exact P5 | ].
      eapply members_step; eauto.
    + rewrite map_app, <- app_assoc.
      eapply perm_trans; [ exact P6 | ].
      apply Permutation_app_head. exact G4.
Qed.

(** ** Building a paragraph *)

Lemma sort_items_perm (para : list item) : Permutation (sort_items para) para.
Proof.
  unfold sort_items.
  eapply perm_trans.
  - apply Permutation_map, sort_keyed_perm.
  - rewrite map_map. simpl. rewrite map_id. apply Permutation_refl.
Qed.

Lemma py_min_ok (l : list float) : l <> [] -> exists m, py_min l = Ok m /\ In m l.
Proof.
  destruct l as [|x l]; [ congruence | ]. intros _.
  exists (min_from x l). split; [ reflexivity | apply min_from_in ].
Qed.

Lemma py_max_ok (l : list float) : l <> [] -> exists m, py_max l = Ok m /\ In m l.
Proof.
  destruct l as [|x l]; [ congruence | ]. intros _.
  exists (max_from x l). split; [ reflexivity | apply max_from_in ].
Qed.

Lemma calculate_bbox_properties_ok (b : bbox) :
  b <> [] -> exists p, calculate_bbox_properties b = Ok p.
Proof.
  destruct b as [|pt b]; [ congruence | ]. intros _.
  unfold calculate_bbox_properties. simpl. eauto.
Qed.

Lemma calculate_bbox_properties_nil : calculate_bbox_properties [] = Raise ValueError.
Proof. reflexivity. Qed.

Lemma calculate_bbox_properties_inv (b : bbox) (p : props) :
  calculate_bbox_properties b = Ok p -> b <> [].
Proof. destruct b; [ discriminate | congruence ]. Qed.

Lemma calculate_collective_bbox_ok (para : list item) :
  para <> [] -> Forall (fun it => i_bbox it <> []) para ->
  exists min_x max_x min_y max_y,
    calculate_collective_bbox para =
      Ok (Some [(min_x, min_y); (max_x, min_y); (max_x, max_y); (min_x, max_y)]) /\
    py_min (flat_map (fun it => map fst (i_bbox it)) para) = Ok min_x /\
    py_max (flat_map (fun it => map fst (i_bbox it)) para) = Ok max_x /\
    py_min (flat_map (fun it => map snd (i_bbox it)) para) = Ok min_y /\
    py_max (flat_map (fun it => map snd (i_bbox it)) para) = Ok max_y.
Proof.
  destruct para as [|it para]; [ congruence | ]. intros _ Hb.
  inversion Hb as [|? ? Hit _]; subst.
  unfold calculate_collective_bbox.
  set (xs := flat_map (fun it => map fst (i_bbox it)) (it :: para)).
  set (ys := flat_map (fun it => map snd (i_bbox it)) (it :: para)).
  assert (Hxs : xs <> []).
  { unfold xs. simpl. destruct (i_bbox it); [ congruence | discriminate ]. }
  assert (Hys : ys <> []).
  { unfold ys. simpl. destruct (i_bbox it); [ congruence | discriminate ]. }
  destruct (py_min_ok xs Hxs) as (min_x & E1 & _).
  destruct (py_max_ok xs Hxs) as (max_x & E2 & _).
  destruct (py_min_ok ys Hys) as (min_y & E3 & _).
  destruct (py_max_ok ys Hys) as (max_y & E4 & _).
  exists min_x, max_x, min_y, max_y.
  rewrite E1, E2, E3, E4. simpl. auto.
Qed.

Lemma make_paragraph_ok (para : list item) :
  para <> [] -> Forall (fun it => i_bbox it <> []) para ->
  exists p, make_paragraph para = Ok p /\
            individual_items p = map item_det (sort_items para) /\
            p_text p = join_space (map i_text (sort_items para)) /\
            item_count p = List.length para /\
            calculate_collective_bbox (sort_items para) = Ok (p_bbox p).
Proof.
  intros Hne Hb.
  pose proof (sort_items_perm para) as Hperm.
  assert (Hne' : sort_items para <> []).
  { intros E. rewrite E in Hperm. apply Permutation_nil in Hperm. contradiction. }
  assert (Hb' : Forall (fun it => i_bbox it <> []) (sort_items para)).
  { rewrite Forall_forall in *. intros it Hit. apply Hb.
    eapply Permutation_in; eauto. }
  destruct (calculate_collective_bbox_ok _ Hne' Hb')
    as (min_x & max_x & min_y & max_y & E & _).
  unfold make_paragraph. rewrite E. cbn [bind].
  destruct (List.length (sort_items para)) as [|n] eqn:El.
  { apply length_zero_iff_nil in El. contradiction. }
  cbn [bind]. eexists. split; [ reflexivity | ]. cbn.
  repeat split. rewrite <- El. now apply Permutation_length.
Qed.

Lemma make_paragraph_inv (para : list item) (p : paragraph) :
  make_paragraph para = Ok p ->
  individual_items p = map item_det (sort_items para) /\
  p_text p = join_space (map i_text (sort_items para)) /\
  item_count p = List.length (sort_items para) /\
  calculate_collective_bbox (sort_items para) = Ok (p_bbox p) /\
  p_score p = F64.div (py_sum (map i_score (sort_items para)))
                      (F64.of_nat (List.length (sort_items para))).
Proof.
  unfold make_paragraph.
  destruct (calculate_collective_bbox (sort_items para)) as [cb|e|]; cbn [bind];
    try discriminate.
  destruct (List.length (sort_items para)) as [|n] eqn:El; cbn [bind]; try discriminate.
  intros H. inversion H; subst; cbn. auto.
Qed.

(** ** The seeding loop *)

Lemma mark_used_at_spec (items : list item) :
  forall i cur,
  nth_error items i = Some cur -> used cur = false ->
  Forall2 flag_step items (mark_used_at i items) /\
  nth_error (mark_used_at i items) i = Some (mark_used cur) /\
  Permutation (map item_det (filter unusedb items))
              (item_det cur :: map item_det (filter unusedb (mark_used_at i items))).
Proof.
  induction items as [|a items IH]; intros [|i] cur Hn Hu; simpl in Hn; try discriminate.
  - inversion Hn; subst a. cbn [mark_used_at nth_error]. repeat split.
    + constructor; [ right; auto | apply flag_step_refl ].
    + rewrite filter_unused_unused by assumption.
      rewrite filter_unused_used by reflexivity. apply Permutation_refl.
  - destruct (IH i cur Hn Hu) as (F & N & P). cbn [mark_used_at nth_error].
    repeat split; auto.
    + constructor; auto. now left.
    + destruct (used a) eqn:Ha.
      * rewrite !filter_unused_used by assumption. exact P.
      * rewrite !filter_unused_unused by assumption. cbn [map].
        eapply perm_trans; [ apply perm_skip, P | apply perm_swap ].
Qed.

Lemma flag_step_nth (l l' : list item) :
  Forall2 flag_step l l' ->
  forall j b, nth_error l' j = Some b ->
  exists a, nth_error l j = Some a /\ flag_step a b.
Proof.
  induction 1 as [|x y l l' Hxy H IH]; intros [|j] b Hb; simpl in *; try discriminate.
  - inversion Hb; subst. eauto.
  - eauto.
Qed.

Lemma used_before_step (i : nat) (items items' : list item) :
  used_before i items -> Forall2 flag_step items items' -> used_before i items'.
Proof.
  intros U F j b Hj Hb.
  destruct (flag_step_nth _ _ F j b Hb) as (a & Ha & [->|[_ ->]]); eauto.
Qed.

Lemma used_before_all (items : list item) :
  used_before (List.length items) items -> filter unusedb items = [].
Proof.
  induction items as [|a items IH]; intros U; [ reflexivity | ].
  rewrite filter_unused_used by (apply (U 0 a); simpl; [ lia | reflexivity ]).
  apply IH. intros j it Hj Hn. apply (U (S j) it); simpl; [ lia | exact Hn ].
Qed.

Section SeedLoop.
Variable mdf : float.
Variable Q : item -> Prop.
Hypothesis Q_mark : forall it, Q it -> Q (mark_used it).


Lemma Q_flag_step (l l' : list item) :
  Forall Q l -> Forall2 flag_step l l' -> Forall Q l'.
Proof.
  intros HQ F. rewrite Forall_forall in *. intros b Hb.
  destruct (Forall2_In_r _ _ _ F b Hb) as (a & Ha & [->|[_ ->]]); auto.
Qed.

Lemma seed_loop_spec (n : nat) :
  forall i items paragraphs,
  i + n = List.length items ->
  used_before i items ->
  Forall Q items ->
  Forall (fun it => i_bbox it <> []) items ->
  exists new,
    seed_loop n i mdf items paragraphs = Ok (paragraphs ++ new) /\
    Forall (built_from Q) new /\
    Permutation (List.concat (map individual_items new))
                (map item_det (filter unusedb items)).
Proof.
  induction n as [|n IH]; intros i items paragraphs Hlen Hused HQ Hbb.
  - exists []. cbn [seed_loop]. rewrite app_nil_r. repeat split; auto.
    rewrite used_before_all; [ constructor | ].
    replace (List.length items) with i by lia. exact Hused.
  - cbn [seed_loop].
    destruct (nth_error items i) as [cur|] eqn:Hcur.
    2:{ apply nth_error_None in Hcur. lia. }
    destruct (used cur) eqn:Hu.
    + apply IH; auto; [ lia | ].
      intros j it Hj Hn. destruct (Nat.eq_dec j i) as [->|Hne].
      * rewrite Hcur in Hn. now inversion Hn; subst.
      * apply (Hused j); auto. lia.
    + destruct (mark_used_at_spec items i cur Hcur Hu) as (F1 & N1 & P1).
      destruct (grow_spec mdf (S (List.length items)) (mark_used_at i items)
                          [mark_used cur]) as (st & added & Hst & [G1 G2 G3 G4 G5]).
      { unfold unused_count.
        pose proof (filter_length_le unusedb (mark_used_at i items)) as Hle.
        rewrite (flag_step_length _ _ F1) in Hle. lia. }
      rewrite Hst. cbn [bind].
      assert (F12 : Forall2 flag_step items (fst st))
        by (eapply flag_step_trans; eauto).
      assert (Hpara : Forall Q (snd st)).
      { rewrite G1. apply Forall_app. split.
        - constructor; [ | constructor ]. apply Q_mark.
          rewrite Forall_forall in HQ. apply HQ. eapply nth_error_In; eauto.
        - rewrite Forall_forall in *. intros a Ha.
          destruct (G3 a Ha) as (c & Hc & _ & ->). apply Q_mark.
          destruct (Forall2_In_r _ _ _ F1 c Hc) as (c0 & Hc0 & [->|[_ ->]]); auto. }
      assert (Hparab : Forall (fun it => i_bbox it <> []) (snd st)).
      { rewrite G1. apply Forall_app. split.
        - constructor; [ | constructor ]. simpl.
          rewrite Forall_forall in Hbb. apply Hbb. eapply nth_error_In; eauto.
        - rewrite Forall_forall in *. intros a Ha.
          destruct (G3 a Ha) as (c & Hc & _ & ->). simpl.
          destruct (Forall2_In_r _ _ _ F1 c Hc) as (c0 & Hc0 & [->|[_ ->]]); simpl; auto. }
      assert (Hne : snd st <> []) by (rewrite G1; discriminate).
      destruct (make_paragraph_ok (snd st) Hne Hparab) as (p & Hp & Hind & _).
      rewrite Hp. cbn [bind].
      destruct (IH (S i) (fst st) (paragraphs ++ [p])) as (new & Hnew & Hbuilt & Hperm).
      * rewrite (flag_step_length _ _ F12). lia.
      * intros j it Hj Hn. destruct (Nat.eq_dec j i) as [->|Hne'].
        -- destruct (flag_step_nth _ _ G2 i it Hn) as (a & Ha & Hs).
           rewrite N1 in Ha. inversion Ha; subst a.
           destruct Hs as [->|[_ ->]]; reflexivity.
        -- eapply used_before_step; [ exact Hused | exact F12 | | exact Hn ]. lia.
      * exact (Q_flag_step items (fst st) HQ F12).
      * rewrite Forall_forall in *. intros b Hb.
        destruct (Forall2_In_r _ _ _ F12 b Hb) as (a & Ha & [->|[_ ->]]); simpl; auto.
      * exists (p :: new). rewrite Hnew, <- app_assoc. split; [ reflexivity | ].
        split.
        -- constructor; auto. exists (snd st). auto.
        -- cbn [map List.concat]. rewrite Hind.
           eapply perm_trans; [ | apply Permutation_sym, P1 ].
           eapply perm_trans;
             [ apply Permutation_app;
               [ apply Permutation_map, sort_items_perm | exact Hperm ] | ].
           rewrite G1. cbn [map app]. apply perm_skip.
           apply Permutation_sym. exact G4.
Qed.

End SeedLoop.

(** ** Sequencing of fallible calls *)

Lemma mapM_inv {X Y : Type} (f : X -> result Y) (l : list X) :
  forall bs, mapM f l = Ok bs -> Forall2 (fun a b => f a = Ok b) l bs.
Proof.
  induction l as [|a l IH]; intros bs H; simpl in H.
  - inversion H. constructor.
  - destruct (f a) as [b|e|] eqn:Ea; cbn [bind] in H; try discriminate.
    destruct (mapM f l) as [bs'|e|]; cbn [bind] in H; try discriminate.
    inversion H; subst. constructor; auto.
Qed.

Lemma mapM_ok {X Y : Type} (f : X -> result Y) (l : list X) :
  Forall (fun a => exists b, f a = Ok b) l -> exists bs, mapM f l = Ok bs.
Proof.
  induction 1 as [|a l [b Hb] H [bs IH]]; simpl.
  - eauto.
  - rewrite Hb, IH. cbn [bind]. eauto.
Qed.

Lemma mapM_raise {X Y : Type} (f : X -> result Y) (e : exn) (l : list X) :
  (forall a, f a = Raise e \/ exists b, f a = Ok b) ->
  Exists (fun a => f a = Raise e) l -> mapM f l = Raise e.
Proof.
  intros Hf. induction 1 as [a l Ha|a l H IH]; simpl.
  - now rewrite Ha.
  - destruct (Hf a) as [Ea|[b Ea]]; rewrite Ea; cbn [bind]; [ reflexivity | ].
    now rewrite IH.
Qed.

(** ** The reading-order sort *)

Lemma sort_key_cases (d : detection) :
  (det_bbox d = [] /\ sort_key d = Raise ValueError) \/
  (det_bbox d <> [] /\ exists p, calculate_bbox_properties (det_bbox d) = Ok p /\
                                 sort_key d = Ok (props_key p)).
Proof.
  unfold sort_key. destruct (det_bbox d) as [|pt b] eqn:E.
  - left. auto.
  - right. split; [ discriminate | ].
    destruct (calculate_bbox_properties_ok (pt :: b)) as [p Hp]; [ discriminate | ].
    exists p. rewrite Hp. auto.
Qed.

Lemma keyed_of_cases (d : detection) :
  keyed_of d = Raise ValueError \/ exists kd, keyed_of d = Ok kd.
Proof.
  unfold keyed_of.
  destruct (sort_key_cases d) as [[_ E]|[_ (p & _ & E)]]; rewrite E; cbn [bind]; eauto.
Qed.

Lemma keyed_of_inv (d : detection) (kd : key * detection) :
  keyed_of d = Ok kd -> sort_key d = Ok (fst kd) /\ snd kd = d.
Proof.
  unfold keyed_of. destruct (sort_key d) as [k|e|]; cbn [bind]; try discriminate.
  intros H. inversion H. auto.
Qed.

Lemma keyed_snd (l : list detection) (keyed : list (key * detection)) :
  Forall2 (fun d kd => keyed_of d = Ok kd) l keyed -> map snd keyed = l.
Proof.
  induction 1 as [|d kd l keyed H _ IH]; simpl; [ reflexivity | ].
  apply keyed_of_inv in H. destruct H as [_ ->]. now rewrite IH.
Qed.

Lemma manga_sort_unfold (l : list detection) :
  manga_reading_order_sort l =
  (keyed <- mapM keyed_of l ;; Ok (map snd (sort_keyed key_lt keyed))).
Proof. reflexivity. Qed.

Lemma manga_sort_inv (l s : list detection) :
  manga_reading_order_sort l = Ok s ->
  exists keyed, mapM keyed_of l = Ok keyed /\
                Forall2 (fun d kd => keyed_of d = Ok kd) l keyed /\
                s = map snd (sort_keyed key_lt keyed).
Proof.
  rewrite manga_sort_unfold.
  destruct (mapM keyed_of l) as [keyed|e|] eqn:E; cbn [bind]; try discriminate.
  intros H. inversion H. exists keyed. repeat split. now apply mapM_inv.
Qed.

Lemma manga_sort_perm (l s : list detection) :
  manga_reading_order_sort l = Ok s -> Permutation s l.
Proof.
  intros H. destruct (manga_sort_inv l s H) as (keyed & _ & F & ->).
  rewrite <- (keyed_snd l keyed F).
  apply Permutation_map, sort_keyed_perm.
Qed.

Lemma manga_sort_ok (l : list detection) :
  Forall (fun d => det_bbox d <> []) l ->
  exists s, manga_reading_order_sort l = Ok s.
Proof.
  intros H. rewrite manga_sort_unfold.
  destruct (mapM_ok keyed_of l) as [keyed E].
  - eapply Forall_impl; [ | exact H ]. intros d Hd. cbv beta in Hd.
    destruct (keyed_of_cases d) as [E|E]; [ | exact E ].
    unfold keyed_of in E. destruct (sort_key_cases d) as [[E0 _]|[_ (p & _ & E1)]].
    + contradiction.
    + rewrite E1 in E. discriminate.
  - rewrite E. cbn [bind]. eauto.
Qed.

Lemma manga_sort_raise (l : list detection) :
  Exists (fun d => det_bbox d = []) l ->
  manga_reading_order_sort l = Raise ValueError.
Proof.
  intros H. rewrite manga_sort_unfold.
  rewrite (mapM_raise keyed_of ValueError); [ reflexivity | apply keyed_of_cases | ].
  eapply Exists_impl; [ | exact H ]. intros d Hd. cbv beta in Hd.
  unfold keyed_of. destruct (sort_key_cases d) as [[_ E]|[E _]]; [ now rewrite E | contradiction ].
Qed.

(** ** [group_paragraphs] as a whole *)

Lemma list_eq_dec_nil {X : Type} (l : list X) : l = [] \/ l <> [].
Proof. destruct l; [ now left | right; discriminate ]. Qed.

Lemma item_of_mark (l : list detection) (it : item) :
  item_of l it -> item_of l (mark_used it).
Proof. intros H. exact H. Qed.

Lemma make_item_inv (d : detection) (it : item) :
  make_item d = Ok it ->
  item_det it = d /\ used it = false /\
  calculate_bbox_properties (i_bbox it) = Ok (i_props it).
Proof.
  unfold make_item.
  destruct (calculate_bbox_properties (det_bbox d)) as [p|e|] eqn:E; cbn [bind];
    try discriminate.
  intros H. inversion H; subst; cbn. destruct d as [[b t] sc]. auto.
Qed.

Lemma make_items_spec (s : list detection) (items : list item) :
  Forall2 (fun d it => make_item d = Ok it) s items ->
  map item_det items = s /\ filter unusedb items = items /\
  Forall (fun it => calculate_bbox_properties (i_bbox it) = Ok (i_props it)) items.
Proof.
  induction 1 as [|d it s items H _ (IH1 & IH2 & IH3)]; [ simpl; auto | ].
  apply make_item_inv in H. destruct H as (H1 & H2 & H3).
  cbn [map]. rewrite filter_unused_unused by assumption.
  rewrite IH1, IH2, H1. auto.
Qed.

Lemma group_paragraphs_unfold (l : list detection) (mdf : float) :
  l <> [] ->
  group_paragraphs l mdf =
  (sorted_results <- manga_reading_order_sort l ;;
   items_with_props <- mapM make_item sorted_results ;;
   seed_loop (List.length items_with_props) 0 mdf items_with_props []).
Proof. destruct l; [ congruence | reflexivity ]. Qed.

Lemma group_paragraphs_ok (l : list detection) (mdf : float) :
  Forall (fun d => det_bbox d <> []) l ->
  exists ps, group_paragraphs l mdf = Ok ps /\
             Permutation (List.concat (map individual_items ps)) l /\
             Forall (built_from (item_of l)) ps.
Proof.
  intros Hb. destruct (list_eq_dec_nil l) as [->|Hne].
  { exists []. simpl. auto. }
  rewrite group_paragraphs_unfold by assumption.
  destruct (manga_sort_ok l Hb) as [s Hs]. rewrite Hs. cbn [bind].
  pose proof (manga_sort_perm l s Hs) as Hperm.
  destruct (mapM_ok make_item s) as [items Hitems].
  { rewrite Forall_forall in *. intros d Hd.
    assert (Hd' : det_bbox d <> [])
      by (apply Hb; eapply Permutation_in; eauto).
    destruct (calculate_bbox_properties_ok _ Hd') as [p Hp].
    unfold make_item. rewrite Hp. cbn [bind]. eauto. }
  rewrite Hitems. cbn [bind].
  destruct (make_items_spec s items (mapM_inv _ _ _ Hitems)) as (I1 & I2 & I3).
  destruct (seed_loop_spec mdf (item_of l) (item_of_mark l)
              (List.length items) 0 items []) as (new & Hnew & Hbuilt & Hp).
  - reflexivity.
  - intros j it Hj. lia.
  - rewrite Forall_forall in *. intros it Hit. split; [ | now apply I3 ].
    eapply Permutation_in; [ exact Hperm | ]. rewrite <- I1. now apply in_map.
  - rewrite Forall_forall in *. intros it Hit.
    eapply calculate_bbox_properties_inv. now apply I3.
  - exists new. rewrite Hnew. split; [ reflexivity | ]. split; [ | exact Hbuilt ].
    rewrite I2, I1 in Hp. eapply perm_trans; eauto.
Qed.

Lemma group_paragraphs_raise (l : list detection) (mdf : float) :
  Exists (fun d => det_bbox d = []) l ->
  group_paragraphs l mdf = Raise ValueError.
Proof.
  intros H. rewrite group_paragraphs_unfold.
  - now rewrite manga_sort_raise.
  - intros ->. inversion H.
Qed.

Lemma bbox_empty_dec (l : list detection) :
  Forall (fun d => det_bbox d <> []) l \/ Exists (fun d => det_bbox d = []) l.
Proof.
  induction l as [|d l [IH|IH]]; auto.
  destruct (det_bbox d) eqn:E.
  - right. now constructor.
  - left. constructor; auto. congruence.
Qed.

Lemma group_paragraphs_inv (l : list detection) (mdf : float) (ps : list paragraph) :
  group_paragraphs l mdf = Ok ps ->
  Forall (fun d => det_bbox d <> []) l /\
  Permutation (List.concat (map individual_items ps)) l /\
  Forall (built_from (item_of l)) ps.
Proof.
  intros H. destruct (bbox_empty_dec l) as [Hb|Hb].
  - destruct (group_paragraphs_ok l mdf Hb) as (ps' & E & P & B).
    rewrite E in H. inversion H; subst. auto.
  - rewrite group_paragraphs_raise in H by assumption. discriminate.
Qed.

(** C1. Partition: on every input the call either returns paragraphs whose
    [individual_items], taken together, are a rearrangement of the input
    detections (each detection in exactly one paragraph, exactly once, with
    multiplicity), or raises [ValueError] because some bbox is empty; the
    loop bound is never exhausted. *)
Theorem group_paragraphs_partition (l : list detection) (mdf : float) :
  match group_paragraphs l mdf with
  | Ok ps => Permutation (List.concat (map individual_items ps)) l
  | Raise e => e = ValueError /\ Exists (fun d => det_bbox d = []) l
  | OutOfFuel => False
  end.
Proof.
  destruct (bbox_empty_dec l) as [Hb|Hb].
  - destruct (group_paragraphs_ok l mdf Hb) as (ps & E & P & _). now rewrite E.
  - rewrite group_paragraphs_raise by assumption. auto.
Qed.

(** ** Well-formed input and the reading order *)

Lemma StronglySorted_consecutive {X : Type} (R : X -> X -> Prop) (l : list X) :
  StronglySorted R l -> consecutive R l.
Proof.
  induction 1 as [|a l HS IH F]; intros i x y Hx Hy.
  - destruct i; discriminate.
  - destruct i as [|i].
    + change (nth_error l 0 = Some y) in Hy. simpl in Hx.
      inversion Hx; subst. rewrite Forall_forall in F. apply F.
      eapply nth_error_In; eauto.
    + change (nth_error l i = Some x) in Hx.
      change (nth_error l (S i) = Some y) in Hy.
      eapply IH; eauto.
Qed.

Lemma StronglySorted_map {X Y : Type} (R : X -> X -> Prop) (R' : Y -> Y -> Prop)
    (f : X -> Y) (l : list X) :
  (forall x y, In x l -> In y l -> R x y -> R' (f x) (f y)) ->
  StronglySorted R l -> StronglySorted R' (map f l).
Proof.
  intros H HS. induction HS as [|a l HS IH F]; simpl; constructor.
  - apply IH. intros; apply H; simpl; auto.
  - rewrite Forall_forall in *. intros y Hy.
    apply in_map_iff in Hy. destruct Hy as (x & <- & Hx).
    apply H; simpl; auto.
Qed.

Lemma filter_map_comm {X Y : Type} (p : Y -> bool) (f : X -> Y) (l : list X) :
  filter p (map f l) = map f (filter (fun x => p (f x)) l).
Proof.
  induction l as [|x l IH]; simpl; [ reflexivity | ].
  destruct (p (f x)); simpl; now rewrite IH.
Qed.

(** *** Derived rectangles of finite boxes *)

Lemma props_fields (b : bbox) (p : props) :
  calculate_bbox_properties b = Ok p ->
  In (left p) (map fst b) /\ In (right p) (map fst b) /\
  In (top p) (map snd b) /\ In (bottom p) (map snd b) /\
  center_x p = F64.div (F64.add (left p) (right p)) F64.two /\
  center_y p = F64.div (F64.add (top p) (bottom p)) F64.two /\
  width p = F64.sub (right p) (left p) /\
  height p = F64.sub (bottom p) (top p).
Proof.
  destruct b as [|pt b]; [ discriminate | ].
  unfold calculate_bbox_properties. cbn [map py_min py_max bind].
  intros H. inversion H; subst; cbn.
  repeat split; try apply min_from_in; apply max_from_in.
Qed.

Lemma finite_coords (b : bbox) :
  Forall finite_point b ->
  Forall finite (map fst b) /\ Forall finite (map snd b).
Proof.
  induction 1 as [|pt b [H1 H2] _ [IH1 IH2]]; simpl; split; constructor; auto.
Qed.

Lemma props_finite (b : bbox) (p : props) :
  Forall finite_point b -> calculate_bbox_properties b = Ok p ->
  finite (left p) /\ finite (right p) /\ finite (top p) /\ finite (bottom p).
Proof.
  intros Hf Hp. apply finite_coords in Hf. destruct Hf as [Hx Hy].
  rewrite Forall_forall in Hx, Hy.
  destruct (props_fields b p Hp) as (H1 & H2 & H3 & H4 & _). auto.
Qed.

Lemma props_center_not_nan (b : bbox) (p : props) :
  Forall finite_point b -> calculate_bbox_properties b = Ok p ->
  not_nan (center_x p) /\ not_nan (center_y p).
Proof.
  intros Hf Hp. destruct (props_finite b p Hf Hp) as (H1 & H2 & H3 & H4).
  destruct (props_fields b p Hp) as (_ & _ & _ & _ & -> & -> & _).
  split; apply div_two_not_nan, add_finite_not_nan; assumption.
Qed.

Lemma props_key_ok (b : bbox) (p : props) :
  Forall finite_point b -> calculate_bbox_properties b = Ok p -> key_ok (props_key p).
Proof.
  intros Hf Hp. destruct (props_center_not_nan b p Hf Hp) as [Hx Hy].
  split; simpl; [ assumption | now apply neg_not_nan ].
Qed.

Lemma key_le_reading (p1 p2 : props) :
  not_nan (center_x p1) -> not_nan (center_y p1) ->
  not_nan (center_x p2) -> not_nan (center_y p2) ->
  (key_le (props_key p1) (props_key p2) <-> reading_le p1 p2).
Proof.
  intros X1 Y1 X2 Y2.
  rewrite key_le_iff by (split; simpl; auto using neg_not_nan).
  unfold reading_le, props_key. cbn [fst snd].
  rewrite num_lt_neg, num_eq_neg by assumption.
  rewrite !le_iff, eqb_iff by assumption.
  unfold num_lt, num_eq. split; intros H; [ split | ]; lia.
Qed.

Lemma eqb_true_not_nan (x y : float) : F64.eqb x y = true -> not_nan x /\ not_nan y.
Proof.
  unfold F64.eqb, SFeqb, not_nan.
  destruct x, y; simpl; try discriminate; auto.
Qed.

Lemma key_eqb_center (p1 p2 : props) :
  not_nan (center_x p1) -> not_nan (center_y p1) ->
  not_nan (center_x p2) -> not_nan (center_y p2) ->
  key_eqb (props_key p1) (props_key p2) =
  F64.eqb (center_y p1) (center_y p2) && F64.eqb (center_x p1) (center_x p2).
Proof.
  intros X1 Y1 X2 Y2. unfold key_eqb, props_key. cbn [fst snd]. f_equal.
  apply eq_true_iff_eq. rewrite !eqb_iff by auto using neg_not_nan.
  now apply num_eq_neg.
Qed.

Lemma keyed_facts_numeric (l : list detection) (keyed : list (key * detection)) :
  numeric_centers l ->
  Forall2 (fun d kd => keyed_of d = Ok kd) l keyed ->
  Forall (fun kd => exists p,
            calculate_bbox_properties (det_bbox (snd kd)) = Ok p /\
            fst kd = props_key p /\
            not_nan (center_x p) /\ not_nan (center_y p)) keyed.
Proof.
  intros Hf F. induction F as [|d kd l keyed H _ IH].
  - constructor.
  - inversion Hf as [|? ? Hd Hl]; subst. constructor; [ | now apply IH ].
    destruct (keyed_of_inv d kd H) as [Hk ->].
    destruct (sort_key_cases d) as [[_ E]|[_ (p & Hp & E)]]; rewrite E in Hk;
      [ discriminate | ].
    inversion Hk as [Hk']. exists p.
    destruct (Hd p Hp). auto.
Qed.

Lemma finite_numeric_centers (l : list detection) :
  finite_input l -> numeric_centers l.
Proof.
  apply Forall_impl. intros d Hd p Hp. exact (props_center_not_nan _ p Hd Hp).
Qed.

Lemma keyed_facts (l : list detection) (keyed : list (key * detection)) :
  finite_input l ->
  Forall2 (fun d kd => keyed_of d = Ok kd) l keyed ->
  Forall (fun kd => exists p,
            calculate_bbox_properties (det_bbox (snd kd)) = Ok p /\
            fst kd = props_key p /\
            not_nan (center_x p) /\ not_nan (center_y p)) keyed.
Proof. intros Hf. apply keyed_facts_numeric. now apply finite_numeric_centers. Qed.

Lemma key_lt_order_trans (a b c : key) :
  key_ok a -> key_ok b -> key_ok c ->
  key_lt b a = false -> key_lt c b = false -> key_lt c a = false.
Proof. intros Ha Hb Hc H1 H2. exact (key_le_trans a b c Ha Hb Hc H1 H2). Qed.

Lemma key_lt_asym (a b : key) :
  key_ok a -> key_ok b -> key_lt a b = true -> key_lt b a = false.
Proof. intros Ha Hb H. exact (key_lt_le a b Ha Hb H). Qed.

Lemma same_center_not_lt (p0 px py : props) :
  F64.eqb (center_y p0) (center_y px) && F64.eqb (center_x p0) (center_x px) = true ->
  F64.eqb (center_y p0) (center_y py) && F64.eqb (center_x p0) (center_x py) = true ->
  key_lt (props_key py) (props_key px) = false.
Proof.
  rewrite !andb_true_iff. intros [Y1 X1] [Y2 X2].
  destruct (eqb_true_not_nan _ _ Y1) as [N0y Nxy].
  destruct (eqb_true_not_nan _ _ X1) as [N0x Nxx].
  destruct (eqb_true_not_nan _ _ Y2) as [_ Nyy].
  destruct (eqb_true_not_nan _ _ X2) as [_ Nyx].
  apply (key_le_reading px py); auto.
  apply eqb_iff in Y1, X1, Y2, X2; auto.
  unfold reading_le. rewrite !le_iff, eqb_iff by assumption.
  unfold num_lt, num_eq in *. lia.
Qed.

(** C4, as stated, fails: a NaN coordinate gives a NaN sort key, every
    comparison with it is false, and the result is not ordered.  Here the
    two detections have the same [center_y] and the sorter returns the
    input as it is; neither arrangement of the two is in reading order.
    With the NaN between them, [D1] stays before [D3], which precedes it in
    reading order (same [center_y], greater [center_x]): no element compares
    below its predecessor, so the sorter moves nothing. *)
Lemma nan_center_is_not_ordered :
  manga_reading_order_sort [nan_det; D1] = Ok [nan_det; D1] /\
  calculate_bbox_properties (det_bbox nan_det) = Ok props_nan_box /\
  calculate_bbox_properties (det_bbox D1) = Ok props_D1 /\
  F64.eqb (center_y props_nan_box) (center_y props_D1) = true /\
  F64.le (center_x props_D1) (center_x props_nan_box) = false /\
  F64.le (center_x props_nan_box) (center_x props_D1) = false /\
  ~ det_reading_le nan_det D1 /\ ~ det_reading_le D1 nan_det /\
  (forall s, Permutation s [nan_det; D1] -> ~ StronglySorted det_reading_le s) /\
  manga_reading_order_sort [D1; nan_det; D3] = Ok [D1; nan_det; D3] /\
  det_reading_le D3 D1 /\ ~ det_reading_le D1 D3.
Proof.
  assert (E1 : calculate_bbox_properties (det_bbox nan_det) = Ok props_nan_box)
    by (vm_compute; reflexivity).
  assert (E2 : calculate_bbox_properties (det_bbox D1) = Ok props_D1)
    by (vm_compute; reflexivity).
  assert (N1 : ~ det_reading_le nan_det D1).
  { intros (p1 & p2 & H1 & H2 & _ & H).
    rewrite E1 in H1. rewrite E2 in H2. inversion H1; inversion H2; subst.
    specialize (H eq_refl). discriminate H. }
  assert (N2 : ~ det_reading_le D1 nan_det).
  { intros (p1 & p2 & H1 & H2 & _ & H).
    rewrite E2 in H1. rewrite E1 in H2. inversion H1; inversion H2; subst.
    specialize (H eq_refl). discriminate H. }
  split; [ vm_compute; reflexivity | ]. split; [ exact E1 | ]. split; [ exact E2 | ].
  split; [ reflexivity | ]. split; [ reflexivity | ]. split; [ reflexivity | ].
  split; [ exact N1 | ]. split; [ exact N2 | ].
  split; [ | split; [ vm_compute; reflexivity | split ] ].
  - intros s P HS.
    assert (Hlen : List.length s = 2) by exact (Permutation_length P).
    destruct s as [|a [|b [|c s]]]; try discriminate Hlen.
    inversion HS as [|? ? _ Hab]; subst. inversion Hab as [|? ? Hab' _]; subst.
    assert (Ha : In a [nan_det; D1])
      by (eapply Permutation_in; [ exact P | now left ]).
    assert (Hb : In b [nan_det; D1])
      by (eapply Permutation_in; [ exact P | right; now left ]).
    destruct Ha as [<-|[<-|[]]]; destruct Hb as [<-|[<-|[]]]; auto.
    + apply Permutation_length_2_inv in P. destruct P as [P|P]; inversion P.
    + apply Permutation_length_2_inv in P. destruct P as [P|P]; inversion P.
  - eexists _, _. split; [ vm_compute; reflexivity | ].
    split; [ exact E2 | ]. split; [ reflexivity | ]. intros _. reflexivity.
  - intros (p1 & p2 & H1 & H2 & _ & H).
    rewrite E2 in H1. inversion H1; subst.
    vm_compute in H2. inversion H2; subst.
    specialize (H eq_refl). discriminate H.
Qed.

(** C4, amended. On detections whose derived centers are numbers (no sort
    key is a NaN; in particular on detections with finite coordinates) the
    reading-order sorter returns a rearrangement of its input that is
    ordered by [center_y] ascending, then [center_x] descending, and
    detections equal on both keys keep the relative order they have in the
    input. *)
Theorem manga_reading_order_sort_stable (l s : list detection) :
  numeric_centers l ->
  manga_reading_order_sort l = Ok s ->
  Permutation s l /\
  StronglySorted det_reading_le s /\
  forall d0, filter (same_center d0) s = filter (same_center d0) l.
Proof.
  intros Hf Hs. split; [ now apply manga_sort_perm | ].
  destruct (manga_sort_inv l s Hs) as (keyed & _ & F & ->).
  pose proof (keyed_facts_numeric l keyed Hf F) as Hk. rewrite Forall_forall in Hk.
  assert (Hin : forall kd, In kd (sort_keyed key_lt keyed) -> In kd keyed)
    by (intros kd; apply Permutation_in, sort_keyed_perm).
  split.
  - apply StronglySorted_map
      with (R := fun x y : key * detection => key_lt (fst y) (fst x) = false).
    + intros x y Hx Hy Hxy.
      destruct (Hk x (Hin x Hx)) as (px & Cx & Kx & Nxx & Nxy).
      destruct (Hk y (Hin y Hy)) as (py & Cy & Ky & Nyx & Nyy).
      exists px, py. split; [ exact Cx | ]. split; [ exact Cy | ].
      rewrite Kx, Ky in Hxy. now apply (key_le_reading px py).
    + apply sort_keyed_sorted with (ok := key_ok).
      * exact key_lt_order_trans.
      * exact key_lt_asym.
      * rewrite Forall_forall. intros kd Hkd.
        destruct (Hk kd Hkd) as (p & _ & -> & Nx & Ny).
        split; simpl; auto using neg_not_nan.
  - intros d0. rewrite <- (keyed_snd l keyed F).
    rewrite !filter_map_comm. f_equal.
    apply sort_keyed_stable. intros x y Hx Hy Px Py.
    destruct (Hk x Hx) as (px & Cx & Kx & _).
    destruct (Hk y Hy) as (py & Cy & Ky & _).
    unfold same_center in Px, Py. rewrite Cx in Px. rewrite Cy in Py.
    destruct (calculate_bbox_properties (det_bbox d0)) as [p0|e|]; try discriminate.
    rewrite Kx, Ky. now apply (same_center_not_lt p0).
Qed.

(** ** The collective bbox *)

Lemma py_min_le (l : list float) (m : float) :
  Forall not_nan l -> py_min l = Ok m -> forall x, In x l -> F64.le m x = true.
Proof.
  destruct l as [|x0 l]; [ discriminate | ]. intros Hn H x Hx.
  inversion H; subst. inversion Hn; subst. now apply min_from_le.
Qed.

Lemma py_max_ge (l : list float) (m : float) :
  Forall not_nan l -> py_max l = Ok m -> forall x, In x l -> F64.le x m = true.
Proof.
  destruct l as [|x0 l]; [ discriminate | ]. intros Hn H x Hx.
  inversion H; subst. inversion Hn; subst. now apply max_from_ge.
Qed.

(** C6, as stated, fails: a NaN coordinate is accepted, and the collective
    bbox of the paragraph then has NaN edges, which enclose no corner (not
    even the numeric ones, here (10, 0)). *)
Lemma nan_corner_is_not_enclosed :
  exists p,
    group_paragraphs [nan_det] F64.two = Ok [p] /\
    individual_items p = [nan_det] /\
    p_bbox p = Some [(F64.nan, F64.of_Z 0); (F64.nan, F64.of_Z 0);
                     (F64.nan, F64.of_Z 10); (F64.nan, F64.of_Z 10)] /\
    In (F64.of_Z 10, F64.of_Z 0) (det_bbox nan_det) /\
    F64.le F64.nan (F64.of_Z 10) = false /\
    ~ encloses (p_bbox p) nan_det.
Proof.
  let r := eval vm_compute in (group_paragraphs [nan_det] F64.two) in
  match r with Ok [?p] => exists p end.
  split; [ vm_compute; reflexivity | ].
  split; [ reflexivity | ]. split; [ reflexivity | ].
  split; [ right; left; reflexivity | ]. split; [ reflexivity | ].
  intros (min_x & min_y & max_x & max_y & E & H).
  cbn [p_bbox] in E. inversion E; subst.
  inversion H as [|? ? (H1 & _) _]. discriminate H1.
Qed.

(** C6, amended. Containment: the bbox of a returned paragraph is an
    axis-aligned rectangle
    [(min_x, min_y), (max_x, min_y), (max_x, max_y), (min_x, max_y)] with
    [min_x <= x <= max_x] and [min_y <= y <= max_y] for each corner [(x, y)]
    of each member exactly when no coordinate of a member of that paragraph
    is a NaN.  On every input, then, the paragraphs without a NaN coordinate
    enclose their members, and the others do not. *)
Theorem collective_bbox_encloses_members (l : list detection) (mdf : float)
    (ps : list paragraph) :
  group_paragraphs l mdf = Ok ps ->
  Forall (fun p => Forall (encloses (p_bbox p)) (individual_items p) <->
                   Forall numeric_detection (individual_items p)) ps.
Proof.
  intros Hg. destruct (group_paragraphs_inv l mdf ps Hg) as (_ & _ & B).
  eapply Forall_impl; [ | exact B ].
  intros p (para & Hne & HQ & Hp).
  destruct (make_paragraph_inv para p Hp) as (-> & _ & _ & Hbb & _).
  pose proof (sort_items_perm para) as Hperm.
  set (sp := sort_items para) in *.
  assert (HQ' : forall it, In it sp -> item_of l it).
  { rewrite Forall_forall in HQ. intros it Hit. apply HQ.
    eapply Permutation_in; eauto. }
  split.
  - intros He. rewrite Forall_forall in He |- *. intros d Hd.
    destruct (He d Hd) as (min_x & min_y & max_x & max_y & _ & Hin).
    eapply Forall_impl; [ | exact Hin ].
    intros pt (H1 & _ & H3 & _).
    split; [ exact (proj2 (le_true_not_nan _ _ H1))
           | exact (proj2 (le_true_not_nan _ _ H3)) ].
  - intros Hn. rewrite Forall_forall in Hn.
    assert (Hnum : forall it pt, In it sp -> In pt (i_bbox it) -> numeric_point pt).
    { intros it pt Hit Hpt.
      assert (Hd : In (item_det it) (map item_det sp)) by now apply in_map.
      specialize (Hn _ Hd). unfold numeric_detection in Hn.
      rewrite Forall_forall in Hn. now apply Hn. }
    assert (Hne' : sp <> []).
    { intros E. rewrite E in Hperm. apply Permutation_nil in Hperm. contradiction. }
    assert (Hb' : Forall (fun it => i_bbox it <> []) sp).
    { rewrite Forall_forall. intros it Hit. destruct (HQ' it Hit) as [_ Hc].
      eapply calculate_bbox_properties_inv; eauto. }
    destruct (calculate_collective_bbox_ok sp Hne' Hb')
      as (min_x & max_x & min_y & max_y & E & E1 & E2 & E3 & E4).
    rewrite E in Hbb. inversion Hbb as [Hbb'].
    set (xs := flat_map (fun it => map fst (i_bbox it)) sp) in *.
    set (ys := flat_map (fun it => map snd (i_bbox it)) sp) in *.
    assert (Hxs : Forall not_nan xs).
    { rewrite Forall_forall. intros x Hx. apply in_flat_map in Hx.
      destruct Hx as (it & Hit & Hx). apply in_map_iff in Hx.
      destruct Hx as (pt & <- & Hpt). apply (Hnum it pt Hit Hpt). }
    assert (Hys : Forall not_nan ys).
    { rewrite Forall_forall. intros y Hy. apply in_flat_map in Hy.
      destruct Hy as (it & Hit & Hy). apply in_map_iff in Hy.
      destruct Hy as (pt & <- & Hpt). apply (Hnum it pt Hit Hpt). }
    rewrite Forall_forall. intros d Hd.
    apply in_map_iff in Hd. destruct Hd as (it & <- & Hit).
    exists min_x, min_y, max_x, max_y. split; [ reflexivity | ].
    rewrite Forall_forall. intros pt Hpt. change (In pt (i_bbox it)) in Hpt.
    assert (Hx : In (fst pt) xs)
      by (apply in_flat_map; exists it; split; [ assumption | now apply in_map ]).
    assert (Hy : In (snd pt) ys)
      by (apply in_flat_map; exists it; split; [ assumption | now apply in_map ]).
    repeat split.
    + now apply (py_min_le xs).
    + now apply (py_max_ge xs).
    + now apply (py_min_le ys).
    + now apply (py_max_ge ys).
Qed.

(** ** Termination *)

(** C10. [group_paragraphs] terminates.  A pass of the inner loop only sets
    flags of entries that were unused (a flag is never cleared, so an entry
    is collected at most once) and appends exactly those entries; a pass
    that reports an expansion leaves strictly fewer unused entries, and one
    that does not changes nothing and is the last.  Hence the [while] loop
    stops within as many passes as there are unused entries, plus one, at a
    pass that adds nothing, and the bound given to it in [group_paragraphs]
    is never exhausted. *)
Theorem group_paragraphs_terminates (l : list detection) (mdf : float)
    (items paragraph_items : list item) :
  match group_paragraphs l mdf with OutOfFuel => False | _ => True end /\
  (let '(items', paragraph_items', search_expanded) :=
     scan mdf items paragraph_items in
   Forall2 flag_step items items' /\
   List.length paragraph_items' + unused_count items' =
     List.length paragraph_items + unused_count items /\
   if search_expanded
   then unused_count items' < unused_count items
   else items' = items /\ paragraph_items' = paragraph_items /\
        forall fuel, grow (S fuel) mdf items paragraph_items =
                     Ok (items, paragraph_items)) /\
  (forall extra, exists st,
     grow (S (unused_count items) + extra) mdf items paragraph_items = Ok st /\
     scan mdf (fst st) (snd st) = (fst st, snd st, false)).
Proof.
  split; [ | split ].
  - destruct (bbox_empty_dec l) as [Hb|Hb].
    + destruct (group_paragraphs_ok l mdf Hb) as (ps & E & _). now rewrite E.
    + now rewrite group_paragraphs_raise.
  - destruct (scan_spec mdf items paragraph_items) as [added [P1 P2 P3 P4 P5 P6 P7]].
    destruct (scan mdf items paragraph_items) as [[items' para'] e] eqn:E;
      cbn [fst snd] in *.
    split; [ exact P2 | ]. split.
    + rewrite P1, length_app. lia.
    + subst e. destruct added as [|a added].
      * rewrite app_nil_r in P1. rewrite (P7 eq_refl) in *. subst para'.
        repeat split. intros fuel. cbn [grow]. now rewrite E.
      * simpl in P4. lia.
  - intros extra.
    destruct (grow_spec mdf (S (unused_count items) + extra) items paragraph_items)
      as (st & added & Hst & [_ _ _ _ G5]); [ lia | ].
    exists st. auto.
Qed.

(** ** The merge decision *)

Lemma eqb_zero (x : float) : F64.eqb x F64.zero = true -> exists s, x = S754_zero s.
Proof.
  destruct x as [s|s| |s m e]; simpl; try discriminate; eauto;
    destruct s; discriminate.
Qed.

Lemma zero_size_relative_distance (r1 r2 : props) :
  zero_size r1 -> zero_size r2 -> relative_distance r1 r2 = F64.inf.
Proof.
  intros [W1 H1] [W2 H2]. unfold relative_distance.
  apply eqb_zero in W1, H1, W2, H2.
  destruct W1 as [a ->], H1 as [b ->], W2 as [c ->], H2 as [d ->].
  destruct a, b, c, d; reflexivity.
Qed.

(** C2. The merge decision of [should_merge_bubbles] is the decision table
    evaluated in order with first match winning, on the relative distance
    [euclidean(center1, center2) / avg_size] ([inf] unless [avg_size > 0]):
    above [max_distance_factor] no merge; below 1.5 and aligned (either
    way) merge; below 0.8 merge; otherwise no merge.  Two zero-size
    rectangles never merge, wherever their centers are. *)
Theorem should_merge_bubbles_table (r1 r2 : props) (max_distance_factor : float) :
  should_merge_bubbles r1 r2 max_distance_factor =
    merge_decision r1 r2 max_distance_factor /\
  (zero_size r1 -> zero_size r2 ->
   should_merge_bubbles r1 r2 max_distance_factor = false).
Proof.
  split.
  - unfold should_merge_bubbles, merge_decision, decision_table, first_match.
    change (spec_relative_distance r1 r2) with (relative_distance r1 r2).
    destruct (F64.gt (relative_distance r1 r2) max_distance_factor); [ reflexivity | ].
    destruct (F64.lt (relative_distance r1 r2) F64.c1_5 &&
              (is_horizontally_aligned r1 r2 || is_vertically_aligned r1 r2));
      [ reflexivity | ].
    destruct (F64.lt (relative_distance r1 r2) F64.c0_8); reflexivity.
  - intros Z1 Z2. unfold should_merge_bubbles.
    rewrite (zero_size_relative_distance r1 r2 Z1 Z2).
    destruct (F64.gt F64.inf max_distance_factor); reflexivity.
Qed.

(** *** Symmetry *)

Lemma add_comm (x y : float) : F64.add x y = F64.add y x.
Proof.
  unfold F64.add, SFadd.
  destruct x as [sx|sx| |sx mx ex], y as [sy|sy| |sy my ey]; try reflexivity;
    try (destruct sx, sy; reflexivity).
  rewrite (Z.min_comm ey ex). f_equal. apply Z.add_comm.
Qed.

Lemma binary_round_neg (m : positive) (e : Z) :
  binary_round F64.prec F64.emax true m e =
  F64.neg (binary_round F64.prec F64.emax false m e).
Proof.
  unfold binary_round, binary_round_aux.
  destruct (shl_align m e _) as [mz ez].
  destruct (shr_fexp F64.prec F64.emax (Z.pos mz) ez loc_Exact) as [mrs' e'].
  destruct (shr_fexp F64.prec F64.emax _ e' loc_Exact) as [mrs'' e''].
  destruct (shr_m mrs''); try reflexivity.
  destruct (e'' <=? _)%Z; reflexivity.
Qed.

Lemma binary_normalize_opp (z e : Z) :
  binary_normalize F64.prec F64.emax (- z) e false =
    F64.neg (binary_normalize F64.prec F64.emax z e false) \/
  (z = 0%Z).
Proof.
  destruct z as [|m|m]; simpl; auto; left.
  - apply binary_round_neg.
  - rewrite binary_round_neg. unfold F64.neg.
    destruct (binary_round F64.prec F64.emax false m e) as [s|s| |s m' e'];
      simpl; try reflexivity; now rewrite negb_involutive.
Qed.

Lemma mul_neg_neg (d : float) : F64.mul (F64.neg d) (F64.neg d) = F64.mul d d.
Proof.
  unfold F64.mul, F64.neg, SFmul, SFopp.
  destruct d as [s|s| |s m e]; try reflexivity; destruct s; reflexivity.
Qed.

Lemma square_sub_swap (x y : float) :
  F64.mul (F64.sub y x) (F64.sub y x) = F64.mul (F64.sub x y) (F64.sub x y).
Proof.
  destruct x as [sx|sx| |sx mx ex], y as [sy|sy| |sy my ey]; try reflexivity;
    try (destruct sx, sy; reflexivity);
    try (destruct sx; reflexivity); try (destruct sy; reflexivity).
  unfold F64.sub, SFsub. rewrite (Z.min_comm ey ex).
  set (ez := Z.min ex ey).
  set (a := cond_Zopp sx (Z.pos (fst (shl_align mx ex ez)))).
  set (b := cond_Zopp sy (Z.pos (fst (shl_align my ey ez)))).
  replace (b - a)%Z with (- (a - b))%Z by lia.
  destruct (binary_normalize_opp (a - b) ez) as [E|E].
  - rewrite E. apply mul_neg_neg.
  - now rewrite E.
Qed.

Lemma calculate_distance_sym (p1 p2 : props) :
  calculate_distance p1 p2 = calculate_distance p2 p1.
Proof.
  unfold calculate_distance.
  now rewrite (square_sub_swap (center_x p1)), (square_sub_swap (center_y p1)).
Qed.

Lemma relative_distance_sym (p1 p2 : props) :
  relative_distance p1 p2 = relative_distance p2 p1.
Proof.
  unfold relative_distance.
  now rewrite (add_comm (width p1)), (add_comm (height p1)), calculate_distance_sym.
Qed.

Lemma same_number_refl (x : float) : same_number x x.
Proof. now left. Qed.

Lemma num_eq_same_number (x y : float) :
  not_nan x -> not_nan y -> num_eq x y -> same_number x y.
Proof.
  unfold not_nan, num_eq, same_number.
  destruct x as [sx|sx| |sx mx ex], y as [sy|sy| |sy my ey];
    simpl; try discriminate; intros _ _ (H1 & H2 & H3);
    try (destruct sx; simpl in *; lia); try (destruct sy; simpl in *; lia).
  - right; eauto.
  - left. destruct sx, sy; simpl in *; try lia; reflexivity.
  - left. destruct sx, sy; simpl in *; try lia;
      (assert (mx = my) by lia; assert (ex = ey) by lia; subst; reflexivity).
Qed.

Lemma max2_sym (a b : float) :
  not_nan a -> not_nan b -> same_number (max2 a b) (max2 b a).
Proof.
  intros Ha Hb. unfold max2. cbn [max_from]. rewrite !gt_lt.
  destruct (F64.lt a b) eqn:E1, (F64.lt b a) eqn:E2; try apply same_number_refl.
  - apply lt_iff in E1, E2; auto. unfold num_lt in *. lia.
  - apply lt_false_iff in E1, E2; auto. apply num_eq_same_number; auto.
    unfold num_lt, num_eq in *. lia.
Qed.

Lemma min2_sym (a b : float) :
  not_nan a -> not_nan b -> same_number (min2 a b) (min2 b a).
Proof.
  intros Ha Hb. unfold min2. cbn [min_from].
  destruct (F64.lt b a) eqn:E1, (F64.lt a b) eqn:E2; try apply same_number_refl.
  - apply lt_iff in E1, E2; auto. unfold num_lt in *. lia.
  - apply lt_false_iff in E1, E2; auto. apply num_eq_same_number; auto.
    unfold num_lt, num_eq in *. lia.
Qed.

Lemma sub_same_number (a a' b b' : float) :
  same_number a a' -> same_number b b' -> same_number (F64.sub a b) (F64.sub a' b').
Proof.
  intros [->|(s1 & s1' & -> & ->)] [->|(s2 & s2' & -> & ->)].
  - apply same_number_refl.
  - destruct a' as [s|s| |s m e]; simpl; try apply same_number_refl.
    right. destruct s, s2, s2'; simpl; eauto.
  - destruct b' as [s|s| |s m e]; simpl; try apply same_number_refl.
    right. destruct s, s1, s1'; simpl; eauto.
  - right. destruct s1, s1', s2, s2'; simpl; eauto.
Qed.

Lemma max2_zero_same_number (v v' : float) :
  same_number v v' -> max2 F64.zero v = max2 F64.zero v'.
Proof.
  intros [->|(s & s' & -> & ->)]; reflexivity.
Qed.

Lemma mul_same_number (a a' c : float) :
  same_number a a' -> same_number (F64.mul a c) (F64.mul a' c).
Proof.
  intros [->|(s & s' & -> & ->)]; [ apply same_number_refl | ].
  destruct c as [sc|sc| |sc m e]; simpl; try apply same_number_refl; right; eauto.
Qed.

Lemma gt_same_number (x a a' : float) :
  same_number a a' -> F64.gt x a = F64.gt x a'.
Proof.
  intros [->|(s & s' & -> & ->)]; [ reflexivity | ].
  destruct x as [sx|sx| |sx m e]; reflexivity.
Qed.

Lemma overlap_test_sym (lo1 hi1 ext1 lo2 hi2 ext2 tol : float) :
  not_nan lo1 -> not_nan hi1 -> not_nan ext1 ->
  not_nan lo2 -> not_nan hi2 -> not_nan ext2 ->
  F64.gt (max2 F64.zero (F64.sub (min2 hi1 hi2) (max2 lo1 lo2)))
         (F64.mul (min2 ext1 ext2) tol) =
  F64.gt (max2 F64.zero (F64.sub (min2 hi2 hi1) (max2 lo2 lo1)))
         (F64.mul (min2 ext2 ext1) tol).
Proof.
  intros L1 H1 E1 L2 H2 E2.
  rewrite (max2_zero_same_number _ (F64.sub (min2 hi2 hi1) (max2 lo2 lo1)))
    by (apply sub_same_number; [ now apply min2_sym | now apply max2_sym ]).
  apply gt_same_number, mul_same_number. now apply min2_sym.
Qed.

Lemma should_merge_bubbles_comm_numeric (p1 p2 : props) (max_distance_factor : float) :
  rect_ok p1 -> rect_ok p2 ->
  should_merge_bubbles p1 p2 max_distance_factor =
  should_merge_bubbles p2 p1 max_distance_factor.
Proof.
  intros (L1 & R1 & T1 & B1 & W1 & H1) (L2 & R2 & T2 & B2 & W2 & H2).
  unfold should_merge_bubbles.
  rewrite (relative_distance_sym p2 p1).
  assert (Hh : is_horizontally_aligned p1 p2 = is_horizontally_aligned p2 p1)
    by (apply overlap_test_sym; assumption).
  assert (Hv : is_vertically_aligned p1 p2 = is_vertically_aligned p2 p1)
    by (apply overlap_test_sym; assumption).
  now rewrite Hh, Hv.
Qed.

(** *** A NaN operand shows in the result *)

Lemma add_not_nan_inv (x y : float) : not_nan (F64.add x y) -> not_nan x /\ not_nan y.
Proof.
  unfold not_nan. destruct x as [sx|sx| |sx mx ex], y as [sy|sy| |sy my ey];
    intros H; try (split; reflexivity); discriminate H.
Qed.

Lemma sub_not_nan_inv (x y : float) : not_nan (F64.sub x y) -> not_nan x /\ not_nan y.
Proof.
  unfold not_nan. destruct x as [sx|sx| |sx mx ex], y as [sy|sy| |sy my ey];
    intros H; try (split; reflexivity); discriminate H.
Qed.

Lemma mul_not_nan_inv (x y : float) : not_nan (F64.mul x y) -> not_nan x /\ not_nan y.
Proof.
  unfold not_nan. destruct x as [sx|sx| |sx mx ex], y as [sy|sy| |sy my ey];
    intros H; try (split; reflexivity); discriminate H.
Qed.

Lemma div_not_nan_inv (x y : float) : not_nan (F64.div x y) -> not_nan x /\ not_nan y.
Proof.
  unfold not_nan. destruct x as [sx|sx| |sx mx ex], y as [sy|sy| |sy my ey];
    intros H; try (split; reflexivity); discriminate H.
Qed.

Lemma sqrt_not_nan_inv (x : float) : not_nan (F64.sqrt x) -> not_nan x.
Proof.
  unfold not_nan. destruct x as [sx|sx| |sx mx ex];
    intros H; try reflexivity; discriminate H.
Qed.

Lemma neg_not_nan_inv (x : float) : not_nan (F64.neg x) -> not_nan x.
Proof. unfold not_nan. destruct x; simpl; auto. Qed.

(** *** What a merge tells of the two records *)

Lemma merge_below_1_5 (p1 p2 : props) (f : float) :
  should_merge_bubbles p1 p2 f = true ->
  F64.lt (relative_distance p1 p2) F64.c1_5 = true.
Proof.
  unfold should_merge_bubbles.
  destruct (F64.gt (relative_distance p1 p2) f); [ discriminate | ].
  destruct (F64.lt (relative_distance p1 p2) F64.c1_5) eqn:L; [ reflexivity | ].
  cbn [andb].
  destruct (F64.lt (relative_distance p1 p2) F64.c0_8) eqn:L8; [ | discriminate ].
  intros _. destruct (lt_true_not_nan _ _ L8) as [Nr N8].
  assert (N15 : not_nan F64.c1_5) by reflexivity.
  apply (lt_iff _ F64.c0_8 Nr N8) in L8.
  apply (lt_false_iff _ F64.c1_5 Nr N15) in L.
  unfold num_lt, num_eq in *. unfold F64.c0_8, F64.c1_5 in *.
  cbn [cls sexp sman] in *. lia.
Qed.

(** Two records that merge have numeric centers, widths and heights: a NaN
    in any of them makes the relative distance a NaN or infinite. *)
Lemma merge_numeric (p1 p2 : props) (f : float) :
  should_merge_bubbles p1 p2 f = true ->
  (not_nan (center_x p1) /\ not_nan (center_y p1) /\
   not_nan (width p1) /\ not_nan (height p1)) /\
  (not_nan (center_x p2) /\ not_nan (center_y p2) /\
   not_nan (width p2) /\ not_nan (height p2)).
Proof.
  intros H. apply merge_below_1_5 in H.
  change (relative_distance p1 p2)
    with (if F64.gt (avg_size p1 p2) F64.zero
          then F64.div (calculate_distance p1 p2) (avg_size p1 p2)
          else F64.inf) in H.
  destruct (F64.gt (avg_size p1 p2) F64.zero); [ | discriminate H ].
  destruct (lt_true_not_nan _ _ H) as [Hq _].
  destruct (div_not_nan_inv _ _ Hq) as [Hd Ha].
  unfold calculate_distance in Hd. apply sqrt_not_nan_inv in Hd.
  destruct (add_not_nan_inv _ _ Hd) as [Hx Hy].
  destruct (mul_not_nan_inv _ _ Hx) as [Hdx _].
  destruct (mul_not_nan_inv _ _ Hy) as [Hdy _].
  destruct (sub_not_nan_inv _ _ Hdx) as [X1 X2].
  destruct (sub_not_nan_inv _ _ Hdy) as [Y1 Y2].
  unfold avg_size in Ha.
  destruct (div_not_nan_inv _ _ Ha) as [Ha' _].
  destruct (add_not_nan_inv _ _ Ha') as [Hw Hh].
  destruct (div_not_nan_inv _ _ Hw) as [Hw' _].
  destruct (div_not_nan_inv _ _ Hh) as [Hh' _].
  destruct (add_not_nan_inv _ _ Hw') as [W1 W2].
  destruct (add_not_nan_inv _ _ Hh') as [H1 H2].
  repeat split; assumption.
Qed.

Lemma derived_nan_edges_show (b : bbox) (p : props) :
  calculate_bbox_properties b = Ok p -> nan_edges_show p.
Proof.
  intros Hp. destruct (props_fields b p Hp) as (_ & _ & _ & _ & _ & _ & Hw & Hh).
  unfold nan_edges_show. rewrite Hw, Hh. split; intros H.
  - destruct (sub_not_nan_inv _ _ H). auto.
  - destruct (sub_not_nan_inv _ _ H). auto.
Qed.

Lemma rect_ok_nan_edges_show (p : props) : rect_ok p -> nan_edges_show p.
Proof. intros (L & R & T & B & _). split; auto. Qed.

Lemma merge_rect_ok (p1 p2 : props) (f : float) :
  nan_edges_show p1 -> nan_edges_show p2 ->
  should_merge_bubbles p1 p2 f = true -> rect_ok p1 /\ rect_ok p2.
Proof.
  intros [A1 B1] [A2 B2] H.
  destruct (merge_numeric p1 p2 f H) as ((_ & _ & W1 & H1) & (_ & _ & W2 & H2)).
  destruct (A1 W1), (B1 H1), (A2 W2), (B2 H2).
  unfold rect_ok. auto 10.
Qed.

Lemma merge_comm_nan_edges_show (p1 p2 : props) (f : float) :
  nan_edges_show p1 -> nan_edges_show p2 ->
  should_merge_bubbles p1 p2 f = should_merge_bubbles p2 p1 f.
Proof.
  intros N1 N2.
  destruct (should_merge_bubbles p1 p2 f) eqn:E12.
  - destruct (merge_rect_ok p1 p2 f N1 N2 E12) as [R1 R2].
    now rewrite <- (should_merge_bubbles_comm_numeric p1 p2 f R1 R2).
  - destruct (should_merge_bubbles p2 p1 f) eqn:E21; [ | reflexivity ].
    destruct (merge_rect_ok p2 p1 f N2 N1 E21) as [R2 R1].
    rewrite (should_merge_bubbles_comm_numeric p1 p2 f R1 R2) in E12. congruence.
Qed.



Lemma derived_rect_ok (b : bbox) (p : props) :
  Forall finite_point b -> calculate_bbox_properties b = Ok p -> rect_ok p.
Proof.
  intros Hf Hp. destruct (props_finite b p Hf Hp) as (H1 & H2 & H3 & H4).
  destruct (props_fields b p Hp) as (_ & _ & _ & _ & _ & _ & Hw & Hh).
  unfold rect_ok. rewrite Hw, Hh.
  repeat split; auto using finite_not_nan, sub_finite_not_nan.
Qed.

(** ** Scenario A *)

(** The literals of the source are the decimals they denote, correctly
    rounded. *)
Lemma literals_rounded :
  F64.two = F64.of_Z 2 /\ F64.c0_3 = F64.of_ratio 3 10 /\
  F64.c1_5 = F64.of_ratio 15 10 /\ F64.c0_8 = F64.of_ratio 8 10.
Proof. vm_compute. repeat split. Qed.

(** Both variants of [sum] give the same total of the two scores. *)
Lemma scenario_A_sum :
  py_sum_compensated [det_score D2; det_score D1] = py_sum [det_score D2; det_score D1].
Proof. vm_compute. reflexivity. Qed.

(** C5, as stated, fails on the score: the mean of the two scores, computed
    in binary64, is not the float [0.85]. *)
Lemma scenario_A_score_is_not_0_85 :
  exists p, group_paragraphs [D1; D2] F64.two = Ok [p] /\
            p_text p = "B A"%string /\
            F64.eqb (p_score p) (F64.of_ratio 85 100) = false.
Proof. exists scenario_A_paragraph. vm_compute. repeat split. Qed.

(** C5, amended. For [D1] and [D2] with the default factor 2.0 the call
    returns exactly one paragraph, with text "B A", bbox the axis-aligned
    rectangle with corners (0,0) and (22,10), item_count 2 and score
    [(0.8 + 0.9) / 2] as binary64 computes it, which is
    0.8500000000000001, the float next above 0.85. *)
Theorem scenario_A_merge :
  group_paragraphs [D1; D2] F64.two = Ok [scenario_A_paragraph] /\
  p_score scenario_A_paragraph = S754_finite false 7656119366529844 (-53) /\
  F64.of_ratio 85 100 = S754_finite false 7656119366529843 (-53).
Proof. vm_compute. repeat split. Qed.

(** ** Malformed boxes *)

(** C8, as stated, fails: a bbox of three points is not rejected, its
    rectangle is derived and the detection is grouped. *)
Lemma three_point_bbox_is_accepted :
  List.length triangle = 3 /\
  (exists p, calculate_bbox_properties triangle = Ok p /\
             width p = F64.of_Z 10 /\ height p = F64.of_Z 8) /\
  exists p, group_paragraphs [(triangle, "A"%string, F64.of_ratio 9 10)] F64.two = Ok [p].
Proof.
  split; [ reflexivity | ]. split.
  - let r := eval vm_compute in (calculate_bbox_properties triangle) in
    match r with Ok ?p => exists p end.
    vm_compute. repeat split.
  - let r := eval vm_compute in
      (group_paragraphs [(triangle, "A"%string, F64.of_ratio 9 10)] F64.two) in
    match r with Ok [?p] => exists p end.
    vm_compute. reflexivity.
Qed.

Lemma nan_bbox_is_accepted :
  exists p, calculate_bbox_properties nan_box = Ok p /\ left p = F64.nan.
Proof.
  let r := eval vm_compute in (calculate_bbox_properties nan_box) in
  match r with Ok ?p => exists p end.
  vm_compute. split; reflexivity.
Qed.

(** C8, amended. The core validates nothing: [calculate_bbox_properties]
    raises (the [ValueError] of [min] on an empty sequence) exactly when the
    bbox has no point, and derives a rectangle from every bbox that has at
    least one point, whatever their number and whether or not the
    coordinates are finite. *)
Theorem calculate_bbox_properties_total (b : bbox) :
  match b with
  | [] => calculate_bbox_properties b = Raise ValueError
  | _ :: _ => exists p, calculate_bbox_properties b = Ok p
  end.
Proof.
  destruct b as [|pt b]; [ reflexivity | ].
  apply calculate_bbox_properties_ok. discriminate.
Qed.

(** ** Instances *)

Ltac finite_tac :=
  repeat first [ apply Forall_nil | apply Forall_cons | split ];
  vm_compute; reflexivity.

Lemma scenario_A_finite : finite_input [D1; D2].
Proof. unfold finite_input, finite_detection. finite_tac. Defined.

Lemma scenario_A_numeric_centers : numeric_centers [D1; D2].
Proof. exact (finite_numeric_centers _ scenario_A_finite). Defined.

Lemma manga_reading_order_sort_stable_witness :
  numeric_centers [D1; D2] /\
  manga_reading_order_sort [D1; D2] = Ok [D2; D1] /\
  (Permutation [D2; D1] [D1; D2] /\
   StronglySorted det_reading_le [D2; D1] /\
   forall d0, filter (same_center d0) [D2; D1] = filter (same_center d0) [D1; D2]).
Proof.
  split; [ exact scenario_A_numeric_centers | ].
  split; [ vm_compute; reflexivity | ].
  apply (manga_reading_order_sort_stable [D1; D2] [D2; D1]).
  - exact scenario_A_numeric_centers.
  - vm_compute; reflexivity.
Defined.

Lemma collective_bbox_encloses_members_witness :
  group_paragraphs [D1; D2] F64.two = Ok [scenario_A_paragraph] /\
  Forall numeric_detection (individual_items scenario_A_paragraph) /\
  Forall (encloses (p_bbox scenario_A_paragraph))
         (individual_items scenario_A_paragraph).
Proof.
  assert (Hg : group_paragraphs [D1; D2] F64.two = Ok [scenario_A_paragraph])
    by (vm_compute; reflexivity).
  assert (Hn : Forall numeric_detection (individual_items scenario_A_paragraph)).
  { unfold numeric_detection, numeric_point. finite_tac. }
  split; [ exact Hg | ]. split; [ exact Hn | ].
  pose proof (collective_bbox_encloses_members [D1; D2] F64.two _ Hg) as H.
  inversion H as [|? ? H1 _]; subst. exact (proj2 H1 Hn).
Defined.

Lemma props_D1_derived :
  calculate_bbox_properties (det_bbox D1) = Ok props_D1 /\
  calculate_bbox_properties (det_bbox D2) = Ok props_D2.
Proof. vm_compute. split; reflexivity. Qed.

Lemma props_nan_box_derived : calculate_bbox_properties nan_box = Ok props_nan_box.
Proof. vm_compute. reflexivity. Qed.


Lemma should_merge_bubbles_table_witness :
  zero_size dot /\
  should_merge_bubbles dot dot F64.two = merge_decision dot dot F64.two /\
  should_merge_bubbles dot dot F64.two = false.
Proof.
  assert (Z : zero_size dot) by (split; reflexivity).
  split; [ exact Z | ].
  split.
  - exact (proj1 (should_merge_bubbles_table dot dot F64.two)).
  - exact (proj2 (should_merge_bubbles_table dot dot F64.two) Z Z).
Defined.

(** ** Re-grouping a result without ties *)

Lemma keyed_perm (l l' : list detection) :
  Permutation l l' ->
  forall keyed keyed',
  Forall2 (fun d kd => keyed_of d = Ok kd) l keyed ->
  Forall2 (fun d kd => keyed_of d = Ok kd) l' keyed' ->
  Permutation keyed keyed'.
Proof.
  induction 1 as [|x l l' P IH|x y l|l l1 l' P1 IH1 P2 IH2]; intros keyed keyed' F F'.
  - inversion F; inversion F'; subst. constructor.
  - inversion F as [|? a ? ks Ha Fa]; inversion F' as [|? b ? ks' Hb Fb]; subst.
    rewrite Ha in Hb. inversion Hb; subst. apply perm_skip. now apply IH.
  - inversion F as [|? a ? ks Ha Fa]; inversion F' as [|? b ? ks' Hb Fb]; subst.
    inversion Fa as [|? a2 ? ks2 Ha2 Fa2]; inversion Fb as [|? b2 ? ks2' Hb2 Fb2]; subst.
    rewrite Ha in Hb2. rewrite Ha2 in Hb. inversion Hb; inversion Hb2; subst.
    assert (E : ks2 = ks2').
    { clear - Fa2 Fb2. revert ks2' Fb2.
      induction Fa2 as [|d kd l ks H _ IH]; intros ks2' Fb2; inversion Fb2; subst.
      - reflexivity.
      - f_equal; [ congruence | now apply IH ]. }
    subst. apply perm_swap.
  - destruct (mapM_ok keyed_of l1) as [keyed1 E1].
    { rewrite Forall_forall. intros d Hd.
      apply (Permutation_in _ (Permutation_sym P1)) in Hd.
      destruct (Forall2_In_l _ _ _ F d Hd) as (kd & _ & Hkd). eauto. }
    apply mapM_inv in E1.
    eapply perm_trans; [ eapply IH1 | eapply IH2 ]; eauto.
Qed.

Lemma manga_sort_perm_invariant (l l' s : list detection) :
  finite_input l -> centers_identify l -> Permutation l' l ->
  manga_reading_order_sort l = Ok s ->
  manga_reading_order_sort l' = Ok s.
Proof.
  intros Hf Hc P Hs.
  destruct (manga_sort_inv l s Hs) as (keyed & _ & F & ->).
  destruct (mapM_ok keyed_of l') as [keyed' E'].
  { rewrite Forall_forall. intros d Hd.
    apply (Permutation_in _ P) in Hd.
    destruct (Forall2_In_l _ _ _ F d Hd) as (kd & _ & Hkd). eauto. }
  rewrite manga_sort_unfold, E'. cbn [bind]. do 2 f_equal.
  pose proof (mapM_inv _ _ _ E') as F'.
  pose proof (keyed_perm l' l P keyed' keyed F' F) as Pk.
  pose proof (keyed_facts l keyed Hf F) as Hk. rewrite Forall_forall in Hk.
  assert (Hok : forall ks, Permutation ks keyed -> Forall (fun y => key_ok (fst y)) ks).
  { intros ks Pks. rewrite Forall_forall. intros kd Hkd.
    apply (Permutation_in _ Pks) in Hkd.
    destruct (Hk kd Hkd) as (p & _ & -> & Nx & Ny).
    split; simpl; auto using neg_not_nan. }
  apply (sorted_unique key_lt).
  - apply sort_keyed_sorted with (ok := key_ok);
      [ exact key_lt_order_trans | exact key_lt_asym | now apply Hok ].
  - apply sort_keyed_sorted with (ok := key_ok);
      [ exact key_lt_order_trans | exact key_lt_asym | ].
    apply Hok, Permutation_refl.
  - eapply perm_trans; [ apply sort_keyed_perm | ].
    eapply perm_trans; [ exact Pk | apply Permutation_sym, sort_keyed_perm ].
  - intros x y Hx Hy Hxy Hyx.
    assert (Hx' : In x keyed).
    { eapply Permutation_in; [ exact Pk | ].
      eapply Permutation_in; [ apply sort_keyed_perm | exact Hx ]. }
    assert (Hy' : In y keyed).
    { eapply Permutation_in; [ exact Pk | ].
      eapply Permutation_in; [ apply sort_keyed_perm | exact Hy ]. }
    destruct (Hk x Hx') as (px & Cx & Kx & Nxx & Nxy).
    destruct (Hk y Hy') as (py & Cy & Ky & Nyx & Nyy).
    destruct (Forall2_In_r _ _ _ F x Hx') as (dx & Hdx & Kdx).
    destruct (Forall2_In_r _ _ _ F y Hy') as (dy & Hdy & Kdy).
    destruct (keyed_of_inv _ _ Kdx) as [Sx Ex].
    destruct (keyed_of_inv _ _ Kdy) as [Sy Ey].
    assert (Hsame : same_center dx dy = true).
    { unfold same_center. rewrite <- Ex, <- Ey, Cx, Cy.
      rewrite <- key_eqb_center by assumption.
      rewrite <- Kx, <- Ky.
      apply key_eqb_iff.
      - rewrite Kx. split; simpl; auto using neg_not_nan.
      - rewrite Ky. split; simpl; auto using neg_not_nan.
      - split; assumption. }
    pose proof (Hc dx dy Hdx Hdy Hsame) as Hd.
    rewrite <- Hd, Kdx in Kdy. now inversion Kdy.
Qed.

(** X24. For detections with finite coordinates among which two with the
    same center are the same detection, flattening the [individual_items]
    of the result and grouping them again with the same factor returns the
    very same list of paragraphs, in the same order. *)
Theorem regroup_returns_same_list (l : list detection) (mdf : float) (ps : list paragraph) :
  finite_input l -> centers_identify l ->
  group_paragraphs l mdf = Ok ps ->
  group_paragraphs (flatten_items ps) mdf = Ok ps.
Proof.
  intros Hf Hc Hg.
  destruct (group_paragraphs_inv l mdf ps Hg) as (_ & P & _).
  fold (flatten_items ps) in P.
  destruct (list_eq_dec_nil l) as [->|Hne].
  - apply Permutation_sym, Permutation_nil in P. rewrite P.
    simpl in Hg. inversion Hg; subst. reflexivity.
  - assert (Hne' : flatten_items ps <> []).
    { intros E. rewrite E in P. apply Permutation_nil in P.
      contradiction. }
    rewrite group_paragraphs_unfold in Hg |- * by assumption.
    destruct (manga_reading_order_sort l) as [s|e|] eqn:Hs; cbn [bind] in Hg;
      try discriminate.
    rewrite (manga_sort_perm_invariant l (flatten_items ps) s Hf Hc P Hs).
    cbn [bind]. exact Hg.
Qed.

Lemma scenario_A_centers : centers_identify [D1; D2].
Proof.
  intros d1 d2 [<-|[<-|[]]] [<-|[<-|[]]] H;
    try reflexivity; vm_compute in H; discriminate.
Defined.

Lemma regroup_returns_same_list_witness :
  finite_input [D1; D2] /\ centers_identify [D1; D2] /\
  group_paragraphs [D1; D2] F64.two = Ok [scenario_A_paragraph] /\
  group_paragraphs (flatten_items [scenario_A_paragraph]) F64.two =
    Ok [scenario_A_paragraph].
Proof.
  split; [ exact scenario_A_finite | ].
  split; [ exact scenario_A_centers | ].
  split; [ vm_compute; reflexivity | ].
  apply (regroup_returns_same_list [D1; D2] F64.two).
  - exact scenario_A_finite.
  - exact scenario_A_centers.
  - vm_compute; reflexivity.
Defined.

(** * Further properties of the code *)

(** ** The order of collection *)

Lemma linked_app (mdf : float) (added : list item) :
  forall base added',
  linked mdf base added -> linked mdf (base ++ added) added' ->
  linked mdf base (added ++ added').
Proof.
  induction added as [|c added IH]; intros base added' H1 H2.
  - now rewrite app_nil_r in H2.
  - destruct H1 as [Hc H1]. split; [ exact Hc | ].
    apply IH; [ exact H1 | ]. now rewrite <- app_assoc.
Qed.

Lemma scan_linked (mdf : float) (items : list item) :
  forall para, exists added,
    snd (fst (scan mdf items para)) = para ++ added /\ linked mdf para added.
Proof.
  induction items as [|c rest IH]; intros para.
  - exists []. simpl. now rewrite app_nil_r.
  - cbn [scan]. destruct (used c).
    + destruct (IH para) as (added & E & L).
      destruct (scan mdf rest para) as [[rest' para'] e]. exists added. auto.
    + destruct (merges_with mdf para c) eqn:Hm.
      * destruct (IH (para ++ [mark_used c])) as (added & E & L).
        destruct (scan mdf rest (para ++ [mark_used c])) as [[rest' para'] e].
        cbn [fst snd] in *. exists (mark_used c :: added). split.
        -- now rewrite E, <- app_assoc.
        -- split; [ exact Hm | exact L ].
      * destruct (IH para) as (added & E & L).
        destruct (scan mdf rest para) as [[rest' para'] e]. exists added. auto.
Qed.

Lemma grow_linked (mdf : float) (fuel : nat) :
  forall items para st,
  grow fuel mdf items para = Ok st ->
  exists added, snd st = para ++ added /\ linked mdf para added.
Proof.
  induction fuel as [|fuel IH]; intros items para st H; [ discriminate | ].
  cbn [grow] in H.
  destruct (scan_linked mdf items para) as (added & E & L).
  destruct (scan mdf items para) as [[items' para'] e]. cbn [fst snd] in E.
  destruct e.
  - destruct (IH items' para' st H) as (added' & E' & L').
    exists (added ++ added'). split.
    + now rewrite E', E, app_assoc.
    + apply linked_app; [ exact L | now rewrite <- E ].
  - inversion H; subst. exists added. auto.
Qed.

(** At a pass that adds nothing, no unused entry merges with the cluster. *)
Lemma scan_fixed_no_merge (mdf : float) (items : list item) :
  forall para items' para',
  scan mdf items para = (items', para', false) ->
  forall u, In u items -> used u = false -> merges_with mdf para u = false.
Proof.
  induction items as [|c rest IH]; intros para items' para' H u Hu Hused;
    [ contradiction | ].
  cbn [scan] in H. destruct (used c) eqn:Hc.
  - destruct (scan mdf rest para) as [[rest' p'] e] eqn:E. inversion H; subst.
    destruct Hu as [->|Hu]; [ congruence | ]. eapply IH; eauto.
  - destruct (merges_with mdf para c) eqn:Hm.
    + destruct (scan mdf rest (para ++ [mark_used c])) as [[rest' p'] e].
      discriminate.
    + destruct (scan mdf rest para) as [[rest' p'] e] eqn:E. inversion H; subst.
      destruct Hu as [->|Hu]; [ exact Hm | ]. eapply IH; eauto.
Qed.

(** When no unused entry merges with the cluster, a pass changes nothing. *)
Lemma scan_no_merge (mdf : float) (items : list item) :
  forall para,
  (forall u, In u items -> used u = false -> merges_with mdf para u = false) ->
  scan mdf items para = (items, para, false).
Proof.
  induction items as [|c rest IH]; intros para H; [ reflexivity | ].
  cbn [scan]. destruct (used c) eqn:Hc.
  - rewrite IH by (intros; apply H; simpl; auto). reflexivity.
  - rewrite (H c (or_introl eq_refl) Hc).
    rewrite IH by (intros; apply H; simpl; auto). reflexivity.
Qed.

Lemma merges_with_false (mdf : float) (para : list item) (u : item) :
  merges_with mdf para u = false ->
  forall a, In a para -> should_merge_bubbles (i_props a) (i_props u) mdf = false.
Proof.
  unfold merges_with. intros H a Ha.
  destruct (should_merge_bubbles (i_props a) (i_props u) mdf) eqn:E; [ | reflexivity ].
  assert (existsb (fun p => should_merge_bubbles (i_props p) (i_props u) mdf) para = true)
    by (apply existsb_exists; eauto).
  congruence.
Qed.

Lemma from_unused_step (items items' : list item) (m : item) :
  Forall2 flag_step items items' -> from_unused items' m -> from_unused items m.
Proof.
  intros F (c & Hc & Hu & ->).
  destruct (Forall2_In_r _ _ _ F c Hc) as (c0 & Hc0 & [->|[_ ->]]);
    [ exists c0; auto | discriminate ].
Qed.

Lemma StronglySorted_nth {X : Type} (R : X -> X -> Prop) (l : list X) :
  StronglySorted R l ->
  forall i j a b, i < j -> nth_error l i = Some a -> nth_error l j = Some b -> R a b.
Proof.
  induction 1 as [|x l HS IH F]; intros i j a b Hij Ha Hb.
  - destruct i; discriminate.
  - destruct j as [|j]; [ lia | ]. change (nth_error l j = Some b) in Hb.
    destruct i as [|i].
    + simpl in Ha. inversion Ha; subst. rewrite Forall_forall in F.
      apply F. eapply nth_error_In; eauto.
    + change (nth_error l i = Some a) in Ha.
      apply (IH i j a b); [ lia | assumption | assumption ].
Qed.

Lemma StronglySorted_flag_step (R : item -> item -> Prop) (l l' : list item) :
  (forall a a' b b', i_props a' = i_props a -> i_props b' = i_props b ->
                     R a b -> R a' b') ->
  Forall2 flag_step l l' -> StronglySorted R l -> StronglySorted R l'.
Proof.
  intros HR F. induction F as [|a a' l l' Ha F IH]; intros HS; [ constructor | ].
  inversion HS as [|? ? HS' Hall]; subst. constructor; [ now apply IH | ].
  rewrite Forall_forall in *. intros b' Hb'.
  destruct (Forall2_In_r _ _ _ F b' Hb') as (b & Hb & Hstep).
  apply (HR a a' b b').
  - destruct Ha as [->|[_ ->]]; reflexivity.
  - destruct Hstep as [->|[_ ->]]; reflexivity.
  - now apply Hall.
Qed.

Section Trace.
Variable mdf : float.
Variable Rel : item -> item -> Prop.
Hypothesis Rel_refl : forall a, Rel a a.
Hypothesis Rel_data : forall a a' b b',
  i_props a' = i_props a -> i_props b' = i_props b -> Rel a b -> Rel a' b'.

Lemma Rel_first_unused (items : list item) (i : nat) (cur m : item) :
  StronglySorted Rel items -> used_before i items ->
  nth_error items i = Some cur -> from_unused items m ->
  Rel (mark_used cur) m.
Proof.
  intros HS Hused Hcur (u & Hu & Huu & ->).
  destruct (In_nth_error _ _ Hu) as [j Hj].
  apply (Rel_data cur (mark_used cur) u (mark_used u)); try reflexivity.
  destruct (Nat.lt_trichotomy j i) as [Hlt|[->|Hgt]].
  - rewrite (Hused j u Hlt Hj) in Huu. discriminate.
  - rewrite Hcur in Hj. inversion Hj; subst. apply Rel_refl.
  - eapply StronglySorted_nth; eauto.
Qed.

(** The clusters behind the paragraphs that the outer loop appends: each is
    a seed followed by what the inner loop collected, in that order; its
    seed is related by [Rel] to all its members and to all members of later
    clusters; and no member of a later cluster merges with a member of an
    earlier one. *)
Lemma seed_loop_trace (n : nat) :
  forall i items paragraphs,
  i + n = List.length items ->
  used_before i items ->
  Forall (fun it => i_bbox it <> []) items ->
  StronglySorted Rel items ->
  exists cs new,
    seed_loop n i mdf items paragraphs = Ok (paragraphs ++ new) /\
    Forall2 (fun c p => make_paragraph c = Ok p) cs new /\
    Forall (fun c => exists seed added,
              c = seed :: added /\ linked mdf [seed] added /\ Forall (Rel seed) c) cs /\
    Forall (Forall (from_unused items)) cs /\
    ForallOrdPairs
      (fun c c' =>
         (forall a b, In a c -> In b c' ->
                      should_merge_bubbles (i_props a) (i_props b) mdf = false) /\
         (forall seed rest, c = seed :: rest -> Forall (Rel seed) c')) cs.
Proof.
  induction n as [|n IH]; intros i items paragraphs Hlen Hused Hbb HS.
  - exists [], []. cbn [seed_loop]. rewrite app_nil_r.
    repeat split; constructor.
  - cbn [seed_loop].
    destruct (nth_error items i) as [cur|] eqn:Hcur.
    2:{ apply nth_error_None in Hcur. lia. }
    destruct (used cur) eqn:Hu.
    + apply IH; auto; [ lia | ].
      intros j it Hj Hn. destruct (Nat.eq_dec j i) as [->|Hne].
      * rewrite Hcur in Hn. now inversion Hn; subst.
      * apply (Hused j); auto. lia.
    + destruct (mark_used_at_spec items i cur Hcur Hu) as (F1 & N1 & P1).
      destruct (grow_spec mdf (S (List.length items)) (mark_used_at i items)
                          [mark_used cur]) as (st & added & Hst & [G1 G2 G3 G4 G5]).
      { unfold unused_count.
        pose proof (filter_length_le unusedb (mark_used_at i items)) as Hle.
        rewrite (flag_step_length _ _ F1) in Hle. lia. }
      destruct (grow_linked mdf _ _ _ _ Hst) as (added' & E' & L').
      rewrite G1 in E'. apply app_inv_head in E'. subst added'.
      rewrite Hst. cbn [bind].
      assert (F12 : Forall2 flag_step items (fst st))
        by (eapply flag_step_trans; eauto).
      assert (Hfrom : Forall (from_unused items) (snd st)).
      { rewrite G1. apply Forall_app. split.
        - constructor; [ | constructor ]. exists cur.
          repeat split; auto. eapply nth_error_In; eauto.
        - rewrite Forall_forall in *. intros a Ha.
          apply (from_unused_step items (mark_used_at i items)); auto.
          exact (G3 a Ha). }
      assert (Hparab : Forall (fun it => i_bbox it <> []) (snd st)).
      { rewrite Forall_forall in *. intros a Ha.
        destruct (Hfrom a Ha) as (u & Hu' & _ & ->). simpl. auto. }
      assert (Hne : snd st <> []) by (rewrite G1; discriminate).
      destruct (make_paragraph_ok (snd st) Hne Hparab) as (p & Hp & _).
      rewrite Hp. cbn [bind].
      destruct (IH (S i) (fst st) (paragraphs ++ [p]))
        as (cs & new & Hnew & Hmk & Hcl & Hfr & Hsep).
      * rewrite (flag_step_length _ _ F12). lia.
      * intros j it Hj Hn. destruct (Nat.eq_dec j i) as [->|Hne'].
        -- destruct (flag_step_nth _ _ G2 i it Hn) as (a & Ha & Hs).
           rewrite N1 in Ha. inversion Ha; subst a.
           destruct Hs as [->|[_ ->]]; reflexivity.
        -- eapply used_before_step; [ exact Hused | exact F12 | | exact Hn ]. lia.
      * rewrite Forall_forall in *. intros b Hb.
        destruct (Forall2_In_r _ _ _ F12 b Hb) as (a & Ha & [->|[_ ->]]); simpl; auto.
      * eapply StronglySorted_flag_step; eauto.
      * assert (Hfr' : Forall (Forall (from_unused items)) cs).
        { eapply Forall_impl; [ | exact Hfr ]. intros c.
          apply Forall_impl. intros m. now apply from_unused_step. }
        exists (snd st :: cs), (p :: new).
        rewrite Hnew, <- app_assoc. split; [ reflexivity | ].
        split; [ constructor; auto | ].
        split; [ | split; [ constructor; auto | ] ].
        -- constructor; [ | exact Hcl ].
           exists (mark_used cur), added. split; [ exact G1 | ]. split; [ exact L' | ].
           rewrite Forall_forall in *. intros m Hm.
           eapply Rel_first_unused; eauto.
        -- constructor; [ | exact Hsep ].
           rewrite Forall_forall in Hfr, Hfr' |- *. intros c' Hc'. split.
           ++ intros a b Ha Hb.
              pose proof (Hfr c' Hc') as Hb'. rewrite Forall_forall in Hb'.
              destruct (Hb' b Hb) as (u & Hu' & Huu & ->).
              change (i_props (mark_used u)) with (i_props u).
              apply (merges_with_false mdf (snd st)); auto.
              eapply scan_fixed_no_merge; eauto.
           ++ intros seed rest Hseed. rewrite G1 in Hseed. inversion Hseed; subst.
              pose proof (Hfr' c' Hc') as Hb'.
              rewrite Forall_forall in Hb' |- *. intros m Hm.
              eapply Rel_first_unused; eauto.
Qed.

Lemma group_paragraphs_trace (l : list detection) (ps : list paragraph) :
  group_paragraphs l mdf = Ok ps ->
  (forall s items,
     manga_reading_order_sort l = Ok s ->
     Forall2 (fun d it => make_item d = Ok it) s items ->
     StronglySorted Rel items) ->
  exists cs,
    Forall2 (fun c p => make_paragraph c = Ok p) cs ps /\
    Forall (fun c => exists seed added,
              c = seed :: added /\ linked mdf [seed] added /\ Forall (Rel seed) c) cs /\
    Forall (Forall (item_of l)) cs /\
    ForallOrdPairs
      (fun c c' =>
         (forall a b, In a c -> In b c' ->
                      should_merge_bubbles (i_props a) (i_props b) mdf = false) /\
         (forall seed rest, c = seed :: rest -> Forall (Rel seed) c')) cs.
Proof.
  intros Hg Hsorted. destruct (list_eq_dec_nil l) as [->|Hne].
  { simpl in Hg. inversion Hg; subst. exists []. repeat split; constructor. }
  rewrite group_paragraphs_unfold in Hg by assumption.
  destruct (manga_reading_order_sort l) as [s|e|] eqn:Hs; cbn [bind] in Hg;
    try discriminate.
  destruct (mapM make_item s) as [items|e|] eqn:Hitems; cbn [bind] in Hg;
    try discriminate.
  pose proof (mapM_inv _ _ _ Hitems) as Fitems.
  destruct (make_items_spec s items Fitems) as (I1 & I2 & I3).
  pose proof (manga_sort_perm l s Hs) as Hperm.
  destruct (seed_loop_trace (List.length items) 0 items [])
    as (cs & new & Hnew & Hmk & Hcl & Hfr & Hsep).
  - reflexivity.
  - intros j it Hj. lia.
  - rewrite Forall_forall in *. intros it Hit.
    eapply calculate_bbox_properties_inv. now apply I3.
  - now apply (Hsorted s).
  - rewrite Hnew in Hg. simpl in Hg. inversion Hg; subst new.
    exists cs. repeat split; auto.
    eapply Forall_impl; [ | exact Hfr ]. intros c. apply Forall_impl.
    intros m (u & Hu & _ & ->). rewrite Forall_forall in I3. split.
    + eapply Permutation_in; [ exact Hperm | ].
      rewrite <- I1. change (item_det (mark_used u)) with (item_det u).
      now apply in_map.
    + exact (I3 u Hu).
Qed.

End Trace.

Lemma Forall2_In_both {X Y : Type} (T : X -> Y -> Prop) (l : list X) (l' : list Y) :
  Forall2 T l l' -> Forall2 (fun a b => T a b /\ In a l /\ In b l') l l'.
Proof.
  induction 1 as [|a b l l' H F IH]; constructor.
  - simpl; auto.
  - eapply Forall2_impl; [ | exact IH ]. cbv beta. intros x y (H1 & H2 & H3).
    simpl; auto.
Qed.

Lemma ForallOrdPairs_Forall2 {X Y : Type} (T : X -> Y -> Prop)
    (R : X -> X -> Prop) (R' : Y -> Y -> Prop) (l : list X) (l' : list Y) :
  (forall a b a' b', T a a' -> T b b' -> R a b -> R' a' b') ->
  Forall2 T l l' -> ForallOrdPairs R l -> ForallOrdPairs R' l'.
Proof.
  intros H F. induction F as [|a a' l l' Ha F IH]; intros HR; [ constructor | ].
  inversion HR as [|? ? Hall HR']; subst. constructor; [ | now apply IH ].
  rewrite Forall_forall in *. intros b' Hb'.
  destruct (Forall2_In_r _ _ _ F b' Hb') as (b & Hb & Hbb).
  apply (H a b a' b'); auto.
Qed.

Lemma Forall_Forall2_r {X Y : Type} (T : X -> Y -> Prop) (P : X -> Prop)
    (P' : Y -> Prop) (l : list X) (l' : list Y) :
  (forall a b, T a b -> P a -> P' b) ->
  Forall2 T l l' -> Forall P l -> Forall P' l'.
Proof.
  intros H F HP. rewrite Forall_forall in *. intros b Hb.
  destruct (Forall2_In_r _ _ _ F b Hb) as (a & Ha & Hab). eauto.
Qed.

Lemma trivial_rel_data (a a' b b' : item) :
  i_props a' = i_props a -> i_props b' = i_props b -> True -> True.
Proof. auto. Qed.

(** The clusters of a result, without any order on the entries. *)
Lemma group_paragraphs_clusters (l : list detection) (mdf : float)
    (ps : list paragraph) :
  group_paragraphs l mdf = Ok ps ->
  exists cs,
    Forall2 (fun c p => make_paragraph c = Ok p /\ In c cs /\ In p ps) cs ps /\
    Forall (fun c => exists seed added, c = seed :: added /\ linked mdf [seed] added) cs /\
    Forall (Forall (item_of l)) cs /\
    ForallOrdPairs
      (fun c c' => forall a b, In a c -> In b c' ->
                   should_merge_bubbles (i_props a) (i_props b) mdf = false) cs.
Proof.
  intros Hg.
  destruct (group_paragraphs_trace mdf (fun _ _ => True) (fun _ => I)
              trivial_rel_data l ps Hg) as (cs & F & Hcl & Hit & Hsep).
  { intros s items _ F. clear - F.
    induction F; constructor; auto. rewrite Forall_forall. auto. }
  exists cs. split; [ now apply Forall2_In_both | ]. split; [ | split; [ exact Hit | ] ].
  - eapply Forall_impl; [ | exact Hcl ]. intros c (seed & added & E & L & _). eauto.
  - clear - Hsep. induction Hsep as [|c cs Hall Hsep IH]; constructor; auto.
    eapply Forall_impl; [ | exact Hall ]. intros c' [H _]. exact H.
Qed.

Lemma item_det_members (c : list item) (p : paragraph) :
  make_paragraph c = Ok p ->
  forall d, In d (individual_items p) <-> exists m, In m c /\ item_det m = d.
Proof.
  intros Hp d. destruct (make_paragraph_inv c p Hp) as (-> & _).
  rewrite in_map_iff. split; intros (m & H1 & H2).
  - exists m. split; [ | assumption ].
    eapply Permutation_in; [ apply sort_items_perm | exact H2 ].
  - exists m. split; [ assumption | ].
    eapply Permutation_in; [ apply Permutation_sym, sort_items_perm | exact H1 ].
Qed.

(** ** Paragraphs as clusters of the merge relation *)

Lemma item_of_props (l : list detection) (m : item) (p : props) :
  item_of l m -> calculate_bbox_properties (det_bbox (item_det m)) = Ok p ->
  p = i_props m.
Proof.
  intros [_ H] Hp. change (det_bbox (item_det m)) with (i_bbox m) in Hp.
  rewrite H in Hp. now inversion Hp.
Qed.

(** X1. Separation: in a result, no member of a paragraph merges with a
    member of an earlier paragraph (the verdict of [should_merge_bubbles]
    on the earlier and the later member is "no merge"). *)
Theorem paragraphs_are_separated (l : list detection) (mdf : float) :
  match group_paragraphs l mdf with
  | Ok ps =>
      ForallOrdPairs
        (fun p q => forall a b, In a (individual_items p) ->
                                In b (individual_items q) -> never_merges mdf a b) ps
  | _ => True
  end.
Proof.
  destruct (group_paragraphs l mdf) as [ps|e|] eqn:Hg; auto.
  destruct (group_paragraphs_clusters l mdf ps Hg) as (cs & F & _ & Hit & Hsep).
  rewrite Forall_forall in Hit.
  eapply ForallOrdPairs_Forall2; [ | exact F | exact Hsep ].
  cbv beta. intros c c' p q (Hp & Hc & _) (Hq & Hc' & _) H a b Ha Hb pa pb Hpa Hpb.
  apply (item_det_members c p Hp) in Ha. destruct Ha as (ma & Hma & <-).
  apply (item_det_members c' q Hq) in Hb. destruct Hb as (mb & Hmb & <-).
  pose proof (Hit c Hc) as Ic. pose proof (Hit c' Hc') as Ic'.
  rewrite Forall_forall in Ic, Ic'.
  rewrite (item_of_props l ma pa (Ic ma Hma) Hpa).
  rewrite (item_of_props l mb pb (Ic' mb Hmb) Hpb).
  now apply H.
Qed.

Lemma linked_chained (l : list detection) (mdf : float) (added : list item) :
  forall base,
  Forall (item_of l) base -> Forall (item_of l) added -> linked mdf base added ->
  chained mdf (map item_det base) (map item_det added).
Proof.
  induction added as [|c added IH]; intros base Hb Ha H; [ exact I | ].
  destruct H as [Hm H]. inversion Ha as [|? ? Hc Ha']; subst.
  cbn [map chained]. split.
  - unfold merges_with in Hm. apply existsb_exists in Hm.
    destruct Hm as (a & Hin & Hm). apply Exists_exists.
    exists (item_det a). split; [ now apply in_map | ].
    rewrite Forall_forall in Hb. destruct (Hb a Hin) as [_ Hpa].
    destruct Hc as [_ Hpc].
    exists (i_props a), (i_props c). auto.
  - replace (map item_det base ++ [item_det c]) with (map item_det (base ++ [c]))
      by (now rewrite map_app).
    apply IH; auto. apply Forall_app. auto.
Qed.

(** X2. Connectivity: the members of every returned paragraph can be listed
    (a rearrangement of [individual_items]) starting from one of them so
    that each further member merges with a member listed before it. *)
Theorem paragraphs_are_connected (l : list detection) (mdf : float) :
  match group_paragraphs l mdf with
  | Ok ps =>
      Forall (fun p => exists seed rest,
                Permutation (seed :: rest) (individual_items p) /\
                chained mdf [seed] rest) ps
  | _ => True
  end.
Proof.
  destruct (group_paragraphs l mdf) as [ps|e|] eqn:Hg; auto.
  destruct (group_paragraphs_clusters l mdf ps Hg) as (cs & F & Hcl & Hit & _).
  rewrite Forall_forall in Hcl, Hit |- *. intros p Hp.
  destruct (Forall2_In_r _ _ _ F p Hp) as (c & Hc & Hmk & _).
  destruct (Hcl c Hc) as (seed & added & -> & L).
  pose proof (Hit _ Hc) as Ic. inversion Ic as [|? ? Is Ia]; subst.
  exists (item_det seed), (map item_det added). split.
  - destruct (make_paragraph_inv _ p Hmk) as (-> & _).
    change (item_det seed :: map item_det added) with (map item_det (seed :: added)).
    apply Permutation_map, Permutation_sym, sort_items_perm.
  - apply (linked_chained l mdf added [seed]); auto.
Qed.

(** ** The order inside a paragraph *)

Lemma merges_with_key_ok (mdf : float) (base : list item) (c : item) :
  merges_with mdf base c = true ->
  key_ok (item_key c) /\ exists a, In a base /\ key_ok (item_key a).
Proof.
  unfold merges_with. intros H. apply existsb_exists in H.
  destruct H as (a & Ha & Hm).
  destruct (merge_numeric _ _ _ Hm) as ((Xa & Ya & _) & (Xc & Yc & _)).
  split; [ | exists a; split; [ exact Ha | ] ]; split; simpl; auto using neg_not_nan.
Qed.

Lemma linked_key_ok (mdf : float) (added : list item) :
  forall base, linked mdf base added -> Forall (fun c => key_ok (item_key c)) added.
Proof.
  induction added as [|c added IH]; intros base H; [ constructor | ].
  destruct H as [Hm H]. constructor; [ | exact (IH _ H) ].
  exact (proj1 (merges_with_key_ok mdf base c Hm)).
Qed.

Lemma linked_seed_key_ok (mdf : float) (seed c : item) (rest : list item) :
  linked mdf [seed] (c :: rest) -> key_ok (item_key seed).
Proof.
  intros [Hm _]. destruct (merges_with_key_ok mdf [seed] c Hm) as (_ & a & Ha & Hk).
  destruct Ha as [<-|[]]. exact Hk.
Qed.

(** The members of a cluster of two or more have numeric sort keys: each
    of them took part in a merge. *)
Lemma cluster_keys_ok (mdf : float) (seed : item) (added : list item) :
  added <> [] -> linked mdf [seed] added ->
  Forall (fun m => key_ok (item_key m)) (seed :: added).
Proof.
  intros Hne L. destruct added as [|c rest]; [ congruence | ].
  constructor.
  - exact (linked_seed_key_ok mdf seed c rest L).
  - exact (linked_key_ok mdf _ _ L).
Qed.

Lemma key_ok_centers (p : props) :
  key_ok (props_key p) -> not_nan (center_x p) /\ not_nan (center_y p).
Proof. intros [Hy Hx]. simpl in *. auto using neg_not_nan_inv. Qed.

Lemma sort_items_sorted (c : list item) :
  Forall (fun m => key_ok (item_key m)) c ->
  StronglySorted key_not_above (sort_items c).
Proof.
  intros Hok. unfold sort_items.
  set (keyed := map (fun x => (props_key (i_props x), x)) c).
  assert (Hk : forall kd, In kd keyed ->
               fst kd = item_key (snd kd) /\ key_ok (fst kd)).
  { intros kd Hkd. apply in_map_iff in Hkd. destruct Hkd as (it & <- & Hit).
    rewrite Forall_forall in Hok. split; [ reflexivity | exact (Hok it Hit) ]. }
  assert (Hin : forall kd, In kd (sort_keyed key_lt keyed) -> In kd keyed)
    by (intros kd; apply Permutation_in, sort_keyed_perm).
  apply StronglySorted_map
    with (R := fun x y : key * item => key_lt (fst y) (fst x) = false).
  - intros x y Hx Hy Hxy. unfold key_not_above.
    destruct (Hk x (Hin x Hx)) as (<- & _). destruct (Hk y (Hin y Hy)) as (<- & _).
    exact Hxy.
  - apply sort_keyed_sorted with (ok := key_ok).
    + exact key_lt_order_trans.
    + exact key_lt_asym.
    + rewrite Forall_forall. intros kd Hkd. exact (proj2 (Hk kd Hkd)).
Qed.

(** C7. Inside every returned paragraph the entries of [individual_items]
    follow the reading order of their derived rectangles: [center_y] never
    decreases from one entry to the next, and between entries of equal
    [center_y] the [center_x] never increases.  This holds for every input:
    the members of a paragraph of two or more entries have numeric centers,
    as each of them took part in a merge. *)
Theorem paragraph_items_reading_order (l : list detection) (mdf : float)
    (ps : list paragraph) :
  group_paragraphs l mdf = Ok ps ->
  Forall (fun p => consecutive det_reading_le (individual_items p)) ps.
Proof.
  intros Hg.
  destruct (group_paragraphs_clusters l mdf ps Hg) as (cs & F & Hcl & Hit & _).
  rewrite Forall_forall in Hcl, Hit |- *. intros p Hp.
  destruct (Forall2_In_r _ _ _ F p Hp) as (c & Hc & Hmk & _).
  destruct (Hcl c Hc) as (seed & added & -> & L).
  destruct (make_paragraph_inv _ p Hmk) as (-> & _).
  destruct (list_eq_dec_nil added) as [->|Hne].
  - intros i x y Hx Hy. cbn in Hy. destruct i; discriminate.
  - pose proof (cluster_keys_ok mdf seed added Hne L) as Hok.
    pose proof (Hit _ Hc) as Ic.
    pose proof (sort_items_perm (seed :: added)) as Hperm.
    apply StronglySorted_consecutive.
    apply StronglySorted_map with (R := key_not_above);
      [ | now apply sort_items_sorted ].
    rewrite Forall_forall in Ic, Hok.
    intros x y Hx Hy Hxy.
    apply (Permutation_in _ Hperm) in Hx, Hy.
    destruct (Ic x Hx) as [_ Cx]. destruct (Ic y Hy) as [_ Cy].
    destruct (key_ok_centers _ (Hok x Hx)) as [Nxx Nxy].
    destruct (key_ok_centers _ (Hok y Hy)) as [Nyx Nyy].
    exists (i_props x), (i_props y).
    split; [ exact Cx | ]. split; [ exact Cy | ].
    now apply key_le_reading.
Qed.

Lemma paragraph_items_reading_order_witness :
  group_paragraphs [D1; D2] F64.two = Ok [scenario_A_paragraph] /\
  Forall (fun p => consecutive det_reading_le (individual_items p))
         [scenario_A_paragraph].
Proof.
  split; [ vm_compute; reflexivity | ].
  apply (paragraph_items_reading_order [D1; D2] F64.two).
  vm_compute; reflexivity.
Defined.

(** ** The order of the paragraphs *)

Lemma lt_irrefl (x : float) : F64.lt x x = false.
Proof.
  unfold F64.lt, SFltb. destruct x as [s|s| |s m e]; simpl; try reflexivity;
    try (destruct s; reflexivity).
  change (Pos.compare_cont Eq m m) with (Pos.compare m m).
  rewrite Z.compare_refl, Pos.compare_refl. destruct s; reflexivity.
Qed.

Lemma key_lt_irrefl (k : key) : key_lt k k = false.
Proof.
  unfold key_lt. destruct (F64.eqb (fst k) (fst k)); [ | apply lt_irrefl ].
  destruct (F64.eqb (snd k) (snd k)); [ reflexivity | apply lt_irrefl ].
Qed.

(** An element that nothing in the list is strictly below stays first. *)
Lemma sort_keyed_head {K A : Type} (ltK : K -> K -> bool) (x : K * A)
    (l : list (K * A)) :
  (forall y, In y l -> ltK (fst y) (fst x) = false) ->
  sort_keyed ltK (x :: l) = x :: sort_keyed ltK l.
Proof.
  intros H. cbn [sort_keyed].
  destruct (sort_keyed ltK l) as [|y r] eqn:E; [ reflexivity | ].
  cbn [insert_keyed]. rewrite H; [ reflexivity | ].
  eapply Permutation_in; [ apply sort_keyed_perm | ]. rewrite E. now left.
Qed.

Lemma StronglySorted_Forall2 {X Y : Type} (T : X -> Y -> Prop)
    (R : X -> X -> Prop) (R' : Y -> Y -> Prop) (l : list X) (l' : list Y) :
  (forall a b a' b', In a l -> In b l -> T a a' -> T b b' -> R a b -> R' a' b') ->
  Forall2 T l l' -> StronglySorted R l -> StronglySorted R' l'.
Proof.
  intros H F. induction F as [|a a' l l' Ha F IH]; intros HS; [ constructor | ].
  inversion HS as [|? ? HS' Hall]; subst. constructor.
  - apply IH; auto. intros; eapply H; eauto; simpl; auto.
  - rewrite Forall_forall in *. intros b' Hb'.
    destruct (Forall2_In_r _ _ _ F b' Hb') as (b & Hb & Hbb).
    apply (H a b a' b'); simpl; auto.
Qed.

Lemma Forall2_map_l {X Y Z : Type} (f : X -> Y) (T : Y -> Z -> Prop)
    (l : list X) (l' : list Z) :
  Forall2 T (map f l) l' -> Forall2 (fun x z => T (f x) z) l l'.
Proof.
  revert l'. induction l as [|x l IH]; intros l' H; inversion H; subst;
    constructor; auto.
Qed.

Lemma items_sorted (l s : list detection) (items : list item) :
  finite_input l ->
  manga_reading_order_sort l = Ok s ->
  Forall2 (fun d it => make_item d = Ok it) s items ->
  StronglySorted key_not_above items.
Proof.
  intros Hf Hs Fitems.
  destruct (manga_sort_inv l s Hs) as (keyed & _ & F & ->).
  pose proof (keyed_facts l keyed Hf F) as Hk. rewrite Forall_forall in Hk.
  assert (Hin : forall kd, In kd (sort_keyed key_lt keyed) -> In kd keyed)
    by (intros kd; apply Permutation_in, sort_keyed_perm).
  apply Forall2_map_l in Fitems.
  eapply StronglySorted_Forall2; [ | exact Fitems | ].
  - cbv beta. intros a b a' b' Ha Hb Ta Tb H.
    destruct (Hk a (Hin a Ha)) as (pa & Ca & Ka & _).
    destruct (Hk b (Hin b Hb)) as (pb & Cb & Kb & _).
    unfold make_item in Ta, Tb. rewrite Ca in Ta. rewrite Cb in Tb.
    cbn [bind] in Ta, Tb. inversion Ta; inversion Tb; subst.
    unfold key_not_above, item_key. cbn [i_props]. rewrite <- Ka, <- Kb. exact H.
  - apply sort_keyed_sorted with (ok := key_ok);
      [ exact key_lt_order_trans | exact key_lt_asym | ].
    rewrite Forall_forall. intros kd Hkd.
    destruct (Hk kd Hkd) as (p & _ & -> & Nx & Ny).
    split; simpl; auto using neg_not_nan.
Qed.

Lemma key_not_above_reading (l : list detection) (a b : item) :
  finite_input l -> item_of l a -> item_of l b ->
  key_not_above a b -> det_reading_le (item_det a) (item_det b).
Proof.
  intros Hf [Ia Ca] [Ib Cb] H.
  unfold finite_input in Hf. rewrite Forall_forall in Hf.
  destruct (props_center_not_nan _ _ (Hf _ Ia) Ca).
  destruct (props_center_not_nan _ _ (Hf _ Ib) Cb).
  exists (i_props a), (i_props b). split; [ exact Ca | ]. split; [ exact Cb | ].
  now apply key_le_reading.
Qed.

Lemma key_not_above_data (a a' b b' : item) :
  i_props a' = i_props a -> i_props b' = i_props b ->
  key_not_above a b -> key_not_above a' b'.
Proof. unfold key_not_above, item_key. intros -> ->. auto. Qed.

(** X3. For detections with finite coordinates, paragraphs come in the
    reading order of their first members: the first entry of a paragraph's
    [individual_items] precedes, in reading order, every entry of that
    paragraph and every entry of every later paragraph. *)
Theorem paragraphs_follow_reading_order (l : list detection) (mdf : float)
    (ps : list paragraph) :
  finite_input l ->
  group_paragraphs l mdf = Ok ps ->
  Forall (fun p => exists d, hd_error (individual_items p) = Some d /\
                             Forall (det_reading_le d) (individual_items p)) ps /\
  ForallOrdPairs
    (fun p q => forall d, hd_error (individual_items p) = Some d ->
                          Forall (det_reading_le d) (individual_items q)) ps.
Proof.
  intros Hf Hg.
  destruct (group_paragraphs_trace mdf key_not_above
              (fun a => key_lt_irrefl (item_key a)) key_not_above_data l ps Hg)
    as (cs & F & Hcl & Hit & Hsep).
  { intros s items. now apply items_sorted. }
  apply Forall2_In_both in F.
  rewrite Forall_forall in Hcl, Hit.
  assert (Hhead : forall c p seed rest,
            In c cs -> make_paragraph c = Ok p -> c = seed :: rest ->
            hd_error (individual_items p) = Some (item_det seed)).
  { intros c p seed rest Hc Hp ->.
    destruct (Hcl _ Hc) as (seed' & added & E & _ & HR). inversion E; subst seed' added.
    destruct (make_paragraph_inv _ p Hp) as (-> & _).
    unfold sort_items. cbn [map]. rewrite sort_keyed_head; [ reflexivity | ].
    intros y Hy. apply in_map_iff in Hy. destruct Hy as (m & <- & Hm).
    inversion HR as [|? ? _ HR']; subst. rewrite Forall_forall in HR'.
    exact (HR' m Hm). }
  assert (Hmem : forall c c' q seed rest,
            In c cs -> In c' cs -> make_paragraph c' = Ok q -> c = seed :: rest ->
            Forall (key_not_above seed) c' ->
            Forall (det_reading_le (item_det seed)) (individual_items q)).
  { intros c c' q seed rest Hc Hc' Hq -> HR.
    rewrite Forall_forall in HR |- *. intros e He.
    apply (item_det_members c' q Hq) in He. destruct He as (m & Hm & <-).
    pose proof (Hit _ Hc) as Ic. pose proof (Hit _ Hc') as Ic'.
    rewrite Forall_forall in Ic, Ic'.
    apply (key_not_above_reading l); auto. apply Ic. now left. }
  split.
  - rewrite Forall_forall. intros p Hp.
    destruct (Forall2_In_r _ _ _ F p Hp) as (c & Hc & Hmk & _).
    destruct (Hcl _ Hc) as (seed & added & E & _ & HR).
    exists (item_det seed). split.
    + exact (Hhead c p seed added Hc Hmk E).
    + exact (Hmem c c p seed added Hc Hc Hmk E HR).
  - eapply ForallOrdPairs_Forall2; [ | exact F | exact Hsep ].
    cbv beta. intros c c' p q (Hp & Hc & _) (Hq & Hc' & _) [_ H] d Hd.
    destruct (Hcl _ Hc) as (seed & added & E & _ & _).
    rewrite (Hhead c p seed added Hc Hp E) in Hd. inversion Hd; subst d.
    exact (Hmem c c' q seed added Hc Hc' Hq E (H seed added E)).
Qed.

(** ** The paragraph records *)

Lemma built_from_bbox_nonempty (l : list detection) (para : list item) :
  Forall (item_of l) para -> Forall (fun it => i_bbox it <> []) para.
Proof.
  apply Forall_impl. intros it [_ H]. eapply calculate_bbox_properties_inv; eauto.
Qed.

Lemma paragraph_record_consistent_aux (l : list detection) (mdf : float) :
  match group_paragraphs l mdf with
  | Ok ps =>
      Forall (fun p => item_count p = List.length (individual_items p) /\
                       1 <= item_count p) ps
  | _ => True
  end.
Proof.
  destruct (group_paragraphs l mdf) as [ps|e|] eqn:Hg; auto.
  destruct (group_paragraphs_inv l mdf ps Hg) as (_ & _ & B).
  eapply Forall_impl; [ | exact B ]. intros p (para & Hne & HQ & Hp).
  destruct (make_paragraph_inv para p Hp) as (Hi & _ & Hc & _).
  rewrite Hi, Hc, length_map. split; [ reflexivity | ].
  rewrite (Permutation_length (sort_items_perm para)).
  destruct para; [ congruence | simpl; lia ].
Qed.

Lemma paragraph_fields (l : list detection) (mdf : float) (ps : list paragraph) :
  group_paragraphs l mdf = Ok ps ->
  Forall (fun p =>
            item_count p = List.length (individual_items p) /\
            1 <= item_count p /\
            p_text p = join_space (map det_text (individual_items p)) /\
            p_score p = F64.div (py_sum (map det_score (individual_items p)))
                                (F64.of_nat (item_count p)) /\
            exists r, p_bbox p = Some r) ps.
Proof.
  intros Hg.
  destruct (group_paragraphs_inv l mdf ps Hg) as (_ & _ & B).
  eapply Forall_impl; [ | exact B ]. intros p (para & Hne & HQ & Hp).
  destruct (make_paragraph_inv para p Hp) as (Hi & Ht & Hc & Hb & Hs).
  pose proof (sort_items_perm para) as Hperm.
  rewrite Hi, Ht, Hs, Hc, !map_map, length_map.
  split; [ reflexivity | ]. split.
  - rewrite (Permutation_length Hperm). destruct para; [ congruence | simpl; lia ].
  - split; [ reflexivity | ]. split; [ reflexivity | ].
    assert (Hne' : sort_items para <> []).
    { intros E. rewrite E in Hperm. apply Permutation_nil in Hperm. contradiction. }
    destruct (calculate_collective_bbox_ok (sort_items para) Hne')
      as (a & b & c & d & E & _).
    + apply (built_from_bbox_nonempty l). rewrite Forall_forall in *.
      intros it Hit. apply HQ. eapply Permutation_in; eauto.
    + rewrite E in Hb. inversion Hb. eauto.
Qed.

(** *** The interpreter's [sum] *)

Lemma make_paragraph_with_rescore (sum : list float -> float) (c : list item) :
  make_paragraph_with sum c = (p <- make_paragraph c ;; Ok (rescore sum p)).
Proof.
  unfold make_paragraph_with, make_paragraph.
  destruct (calculate_collective_bbox (sort_items c)) as [bb|e|]; cbn [bind];
    try reflexivity.
  destruct (List.length (sort_items c)) as [|n] eqn:El; cbn [bind]; [ reflexivity | ].
  unfold rescore. cbn. now rewrite map_map.
Qed.

Lemma seed_loop_with_rescore (sum : list float -> float) (mdf : float) (n : nat) :
  forall i items paragraphs,
  seed_loop_with sum n i mdf items (map (rescore sum) paragraphs) =
  (ps <- seed_loop n i mdf items paragraphs ;; Ok (map (rescore sum) ps)).
Proof.
  induction n as [|n IH]; intros i items paragraphs; [ reflexivity | ].
  cbn [seed_loop_with seed_loop].
  destruct (nth_error items i) as [cur|]; [ | reflexivity ].
  destruct (used cur); [ apply IH | ].
  destruct (grow (S (List.length items)) mdf (mark_used_at i items) [mark_used cur])
    as [st|e|]; cbn [bind]; try reflexivity.
  rewrite make_paragraph_with_rescore.
  destruct (make_paragraph (snd st)) as [p|e|]; cbn [bind]; try reflexivity.
  rewrite <- IH. now rewrite map_app.
Qed.

Lemma group_paragraphs_with_rescore (sum : list float -> float)
    (l : list detection) (mdf : float) :
  group_paragraphs_with sum l mdf =
  (ps <- group_paragraphs l mdf ;; Ok (map (rescore sum) ps)).
Proof.
  destruct l as [|d l]; [ reflexivity | ].
  unfold group_paragraphs_with, group_paragraphs.
  destruct (manga_reading_order_sort (d :: l)) as [s|e|]; cbn [bind]; try reflexivity.
  destruct (mapM make_item s) as [items|e|]; cbn [bind]; try reflexivity.
  exact (seed_loop_with_rescore sum mdf (List.length items) 0 items []).
Qed.

Lemma rescore_py_sum (l : list detection) (mdf : float) (ps : list paragraph) :
  group_paragraphs l mdf = Ok ps -> map (rescore py_sum) ps = ps.
Proof.
  intros Hg. pose proof (paragraph_fields l mdf ps Hg) as H. clear Hg.
  induction H as [|p ps (_ & _ & _ & Hs & _) _ IH]; [ reflexivity | ].
  cbn [map]. rewrite IH. f_equal.
  unfold rescore. rewrite <- Hs. now destruct p.
Qed.

(** X4. Every returned paragraph is consistent with its member list,
    whichever [sum] the interpreter has: [item_count] is the number of
    [individual_items] and is at least 1, the text is the members' texts
    joined by single spaces in the order of [individual_items], the score is
    [sum] of the members' scores in that order divided by the count, and
    the bbox is never [None].  With the left-to-right [sum] the general
    function is [group_paragraphs]. *)
Theorem paragraph_record_consistent (sum : list float -> float)
    (l : list detection) (mdf : float) :
  match group_paragraphs_with sum l mdf with
  | Ok ps =>
      Forall (fun p =>
                item_count p = List.length (individual_items p) /\
                1 <= item_count p /\
                p_text p = join_space (map det_text (individual_items p)) /\
                p_score p = F64.div (sum (map det_score (individual_items p)))
                                    (F64.of_nat (item_count p)) /\
                exists r, p_bbox p = Some r) ps
  | _ => True
  end /\
  group_paragraphs_with py_sum l mdf = group_paragraphs l mdf.
Proof.
  rewrite !group_paragraphs_with_rescore.
  destruct (group_paragraphs l mdf) as [ps|e|] eqn:Hg; cbn [bind]; auto.
  split; [ | now rewrite (rescore_py_sum l mdf ps Hg) ].
  pose proof (paragraph_fields l mdf ps Hg) as H.
  rewrite Forall_forall in H |- *. intros q Hq.
  apply in_map_iff in Hq. destruct Hq as (p & <- & Hp).
  destruct (H p Hp) as (H1 & H2 & H3 & _ & H5).
  unfold rescore. cbn. auto.
Qed.

(** X23. The interpreter's [sum] bears on the scores only: with any [sum],
    the call fails exactly when it fails with the left-to-right [sum], and
    otherwise returns the same paragraphs, in the same order, with the same
    text, bbox, count and members, each with its score computed by that
    [sum] from its members' scores.  In particular this is so for the
    compensated [sum] of CPython 3.12. *)
Theorem sum_bears_on_scores_only (sum : list float -> float)
    (l : list detection) (mdf : float) :
  match group_paragraphs l mdf with
  | Ok ps =>
      group_paragraphs_with sum l mdf = Ok (map (rescore sum) ps) /\
      Forall (fun p => p_text (rescore sum p) = p_text p /\
                       p_bbox (rescore sum p) = p_bbox p /\
                       item_count (rescore sum p) = item_count p /\
                       individual_items (rescore sum p) = individual_items p) ps
  | Raise e => group_paragraphs_with sum l mdf = Raise e
  | OutOfFuel => group_paragraphs_with sum l mdf = OutOfFuel
  end.
Proof.
  rewrite group_paragraphs_with_rescore.
  destruct (group_paragraphs l mdf) as [ps|e|]; cbn [bind]; try reflexivity.
  split; [ reflexivity | ]. rewrite Forall_forall. intros p _. repeat split.
Qed.

(** X5. The item counts of the returned paragraphs add up to the number of
    input detections; there are at most as many paragraphs as detections,
    and none exactly when the input is empty. *)
Theorem paragraph_counts (l : list detection) (mdf : float) :
  match group_paragraphs l mdf with
  | Ok ps =>
      list_sum (map item_count ps) = List.length l /\
      List.length ps <= List.length l /\
      (ps = [] <-> l = [])
  | _ => True
  end.
Proof.
  pose proof (paragraph_record_consistent_aux l mdf) as Hrec.
  destruct (group_paragraphs l mdf) as [ps|e|] eqn:Hg; auto.
  destruct (group_paragraphs_inv l mdf ps Hg) as (_ & P & _).
  assert (Hsum : list_sum (map item_count ps) = List.length l).
  { rewrite <- (Permutation_length P), length_concat, map_map. f_equal.
    apply map_ext_in. intros p Hp. rewrite Forall_forall in Hrec.
    apply (Hrec p Hp). }
  split; [ exact Hsum | ]. split.
  - rewrite <- Hsum. clear - Hrec. induction Hrec as [|p ps [_ Hp] _ IH]; simpl; lia.
  - split; intros E; subst.
    + simpl in P. apply Permutation_nil in P. exact P.
    + simpl in Hg. now inversion Hg.
Qed.

(** ** Errors *)

(** X6. The call fails, with [ValueError], exactly when some detection has a
    bbox without points, wherever it stands in the input; no partial result
    is returned. *)
Theorem empty_bbox_raises (l : list detection) (mdf : float) :
  Exists (fun d => det_bbox d = []) l <-> group_paragraphs l mdf = Raise ValueError.
Proof.
  split.
  - apply group_paragraphs_raise.
  - intros H. destruct (bbox_empty_dec l) as [Hb|Hb]; [ | exact Hb ].
    destruct (group_paragraphs_ok l mdf Hb) as (ps & E & _). congruence.
Qed.

Lemma empty_bbox_raises_witness :
  Exists (fun d => det_bbox d = []) [D1; no_box; D2] /\
  group_paragraphs [D1; no_box; D2] F64.two = Raise ValueError.
Proof.
  assert (H : Exists (fun d => det_bbox d = []) [D1; no_box; D2])
    by (apply Exists_cons_tl, Exists_cons_hd; reflexivity).
  split; [ exact H | ].
  exact (proj1 (empty_bbox_raises [D1; no_box; D2] F64.two) H).
Defined.

(** ** The derived rectangle *)

Lemma props_minmax (b : bbox) (p : props) :
  calculate_bbox_properties b = Ok p ->
  py_min (map fst b) = Ok (left p) /\ py_max (map fst b) = Ok (right p) /\
  py_min (map snd b) = Ok (top p) /\ py_max (map snd b) = Ok (bottom p).
Proof.
  destruct b as [|pt b]; [ discriminate | ].
  unfold calculate_bbox_properties. cbn [map py_min py_max bind].
  intros H. inversion H; subst; cbn. auto.
Qed.

(** X7. For a bbox with finite coordinates the derived rectangle is well
    formed and tight: [left <= right], [top <= bottom], every point of the
    bbox lies between the edges, and each edge is a coordinate of one of
    the points. *)
Theorem derived_rectangle_bounds (b : bbox) (p : props) :
  Forall finite_point b ->
  calculate_bbox_properties b = Ok p ->
  F64.le (left p) (right p) = true /\ F64.le (top p) (bottom p) = true /\
  Forall (fun pt =>
            F64.le (left p) (fst pt) = true /\ F64.le (fst pt) (right p) = true /\
            F64.le (top p) (snd pt) = true /\ F64.le (snd pt) (bottom p) = true) b /\
  In (left p) (map fst b) /\ In (right p) (map fst b) /\
  In (top p) (map snd b) /\ In (bottom p) (map snd b).
Proof.
  intros Hf Hp.
  destruct (props_minmax b p Hp) as (E1 & E2 & E3 & E4).
  destruct (props_fields b p Hp) as (I1 & I2 & I3 & I4 & _).
  destruct (finite_coords b Hf) as [Hx Hy].
  assert (Nx : Forall not_nan (map fst b))
    by (eapply Forall_impl; [ | exact Hx ]; apply finite_not_nan).
  assert (Ny : Forall not_nan (map snd b))
    by (eapply Forall_impl; [ | exact Hy ]; apply finite_not_nan).
  split; [ now apply (py_min_le _ _ Nx E1) | ].
  split; [ now apply (py_min_le _ _ Ny E3) | ].
  split; [ | auto ].
  rewrite Forall_forall. intros pt Hpt.
  assert (In (fst pt) (map fst b)) by now apply in_map.
  assert (In (snd pt) (map snd b)) by now apply in_map.
  repeat split.
  - now apply (py_min_le _ _ Nx E1).
  - now apply (py_max_ge _ _ Nx E2).
  - now apply (py_min_le _ _ Ny E3).
  - now apply (py_max_ge _ _ Ny E4).
Qed.

Lemma derived_rectangle_bounds_witness :
  Forall finite_point (det_bbox D2) /\
  calculate_bbox_properties (det_bbox D2) = Ok props_D2 /\
  F64.le (left props_D2) (right props_D2) = true.
Proof.
  assert (Hf : Forall finite_point (det_bbox D2)) by finite_tac.
  assert (Hp : calculate_bbox_properties (det_bbox D2) = Ok props_D2)
    by (vm_compute; reflexivity).
  split; [ exact Hf | ]. split; [ exact Hp | ].
  exact (proj1 (derived_rectangle_bounds (det_bbox D2) props_D2 Hf Hp)).
Defined.

Lemma le_antisym_num (x y : float) :
  not_nan x -> not_nan y -> F64.le x y = true -> F64.le y x = true -> same_number x y.
Proof.
  intros Hx Hy H1 H2. apply num_eq_same_number; auto.
  apply le_iff in H1, H2; auto. unfold num_lt, num_eq in *. lia.
Qed.

Lemma py_min_perm (l l' : list float) (m : float) :
  Forall not_nan l -> Permutation l l' -> py_min l = Ok m ->
  exists m', py_min l' = Ok m' /\ same_number m m'.
Proof.
  intros Hn P Hm.
  assert (Hn' : Forall not_nan l') by (eapply Permutation_Forall; eauto).
  assert (Hne : l' <> []).
  { intros ->. apply Permutation_sym, Permutation_nil in P. subst. discriminate. }
  destruct (py_min_ok l' Hne) as (m' & Hm' & Hin').
  assert (Hin : In m l).
  { destruct l; [ discriminate | ]. inversion Hm. apply min_from_in. }
  exists m'. split; [ exact Hm' | ].
  rewrite Forall_forall in Hn, Hn'.
  apply le_antisym_num; auto.
  - apply (py_min_le l m); [ now apply Forall_forall | exact Hm | ].
    eapply Permutation_in; [ apply Permutation_sym, P | exact Hin' ].
  - apply (py_min_le l' m'); [ now apply Forall_forall | exact Hm' | ].
    eapply Permutation_in; [ exact P | exact Hin ].
Qed.

Lemma py_max_perm (l l' : list float) (m : float) :
  Forall not_nan l -> Permutation l l' -> py_max l = Ok m ->
  exists m', py_max l' = Ok m' /\ same_number m m'.
Proof.
  intros Hn P Hm.
  assert (Hn' : Forall not_nan l') by (eapply Permutation_Forall; eauto).
  assert (Hne : l' <> []).
  { intros ->. apply Permutation_sym, Permutation_nil in P. subst. discriminate. }
  destruct (py_max_ok l' Hne) as (m' & Hm' & Hin').
  assert (Hin : In m l).
  { destruct l; [ discriminate | ]. inversion Hm. apply max_from_in. }
  exists m'. split; [ exact Hm' | ].
  rewrite Forall_forall in Hn, Hn'.
  apply le_antisym_num; auto.
  - apply (py_max_ge l' m'); [ now apply Forall_forall | exact Hm' | ].
    eapply Permutation_in; [ exact P | exact Hin ].
  - apply (py_max_ge l m); [ now apply Forall_forall | exact Hm | ].
    eapply Permutation_in; [ apply Permutation_sym, P | exact Hin' ].
Qed.

Lemma add_same_number (a a' b b' : float) :
  same_number a a' -> same_number b b' -> same_number (F64.add a b) (F64.add a' b').
Proof.
  intros [->|(s1 & s1' & -> & ->)] [->|(s2 & s2' & -> & ->)].
  - apply same_number_refl.
  - destruct a' as [s|s| |s m e]; simpl; try apply same_number_refl.
    right. destruct s, s2, s2'; simpl; eauto.
  - destruct b' as [s|s| |s m e]; simpl; try apply same_number_refl.
    right. destruct s, s1, s1'; simpl; eauto.
  - right. destruct s1, s1', s2, s2'; simpl; eauto.
Qed.

Lemma div_same_number (a a' c : float) :
  same_number a a' -> same_number (F64.div a c) (F64.div a' c).
Proof.
  intros [->|(s & s' & -> & ->)]; [ apply same_number_refl | ].
  destruct c as [sc|sc| |sc m e]; simpl; try apply same_number_refl; right; eauto.
Qed.

(** X8. The derived rectangle does not depend on the order of the corner
    points: for finite coordinates, rearranging the points of a bbox gives
    a rectangle record with the same eight numbers. *)
Theorem derived_rectangle_order_free (b b' : bbox) (p : props) :
  Forall finite_point b -> Permutation b b' ->
  calculate_bbox_properties b = Ok p ->
  exists p', calculate_bbox_properties b' = Ok p' /\ same_rectangle p p'.
Proof.
  intros Hf P Hp.
  destruct (props_minmax b p Hp) as (E1 & E2 & E3 & E4).
  destruct (props_fields b p Hp) as (_ & _ & _ & _ & Cx & Cy & W & H).
  destruct (finite_coords b Hf) as [Hx Hy].
  assert (Nx : Forall not_nan (map fst b))
    by (eapply Forall_impl; [ | exact Hx ]; apply finite_not_nan).
  assert (Ny : Forall not_nan (map snd b))
    by (eapply Forall_impl; [ | exact Hy ]; apply finite_not_nan).
  destruct (py_min_perm _ _ _ Nx (Permutation_map fst P) E1) as (l' & L1 & S1).
  destruct (py_max_perm _ _ _ Nx (Permutation_map fst P) E2) as (r' & L2 & S2).
  destruct (py_min_perm _ _ _ Ny (Permutation_map snd P) E3) as (t' & L3 & S3).
  destruct (py_max_perm _ _ _ Ny (Permutation_map snd P) E4) as (b0' & L4 & S4).
  unfold calculate_bbox_properties. rewrite L1, L2, L3, L4. cbn [bind].
  eexists. split; [ reflexivity | ].
  unfold same_rectangle. cbn. rewrite Cx, Cy, W, H.
  repeat split; auto using sub_same_number, div_same_number, add_same_number.
Qed.

Lemma derived_rectangle_order_free_witness :
  Forall finite_point (det_bbox D2) /\
  Permutation (det_bbox D2) (rev (det_bbox D2)) /\
  exists p', calculate_bbox_properties (rev (det_bbox D2)) = Ok p' /\
             same_rectangle props_D2 p'.
Proof.
  assert (Hf : Forall finite_point (det_bbox D2)) by finite_tac.
  split; [ exact Hf | ]. split; [ apply Permutation_rev | ].
  apply (derived_rectangle_order_free (det_bbox D2) (rev (det_bbox D2)) props_D2 Hf).
  - apply Permutation_rev.
  - vm_compute; reflexivity.
Defined.

(** ** The collective bbox, again *)

Lemma flat_map_coords_nil {X : Type} (f : point -> X) (items : list item) :
  flat_map (fun it => map f (i_bbox it)) items = [] <->
  Forall (fun it => i_bbox it = []) items.
Proof.
  induction items as [|it items IH]; simpl.
  - split; auto.
  - split.
    + intros H. apply app_eq_nil in H. destruct H as [H1 H2].
      constructor; [ | now apply IH ]. now destruct (i_bbox it).
    + intros H. inversion H as [|? ? H1 H2]; subst. rewrite H1. simpl. now apply IH.
Qed.

Lemma in_flat_map_coords {X : Type} (f : point -> X) (items : list item) (v : X) :
  In v (flat_map (fun it => map f (i_bbox it)) items) ->
  exists it pt, In it items /\ In pt (i_bbox it) /\ f pt = v.
Proof.
  intros H. apply in_flat_map in H. destruct H as (it & Hit & H).
  apply in_map_iff in H. destruct H as (pt & E & Hpt). eauto.
Qed.

Lemma calculate_collective_bbox_unfold (items : list item) :
  items <> [] ->
  calculate_collective_bbox items =
  (min_x <- py_min (flat_map (fun it => map fst (i_bbox it)) items) ;;
   max_x <- py_max (flat_map (fun it => map fst (i_bbox it)) items) ;;
   min_y <- py_min (flat_map (fun it => map snd (i_bbox it)) items) ;;
   max_y <- py_max (flat_map (fun it => map snd (i_bbox it)) items) ;;
   Ok (Some [(min_x, min_y); (max_x, min_y); (max_x, max_y); (min_x, max_y)])).
Proof. destruct items; [ congruence | reflexivity ]. Qed.

(** X9. For members without a NaN coordinate,
    [calculate_collective_bbox] returns the smallest axis-aligned rectangle
    that holds all their corners: it returns [None] only for an empty list
    and raises [ValueError] only when the list is not empty and no member
    has any point; otherwise it returns the four corners
    [(min_x,min_y), (max_x,min_y), (max_x,max_y), (min_x,max_y)], where
    every corner [(x, y)] of every member satisfies [min_x <= x <= max_x]
    and [min_y <= y <= max_y], and each of the four bounds is a coordinate
    of a corner of a member. *)
Theorem collective_bbox_is_tight (items : list item) :
  Forall (fun it => Forall numeric_point (i_bbox it)) items ->
  match calculate_collective_bbox items with
  | Ok None => items = []
  | Ok (Some r) =>
      exists min_x min_y max_x max_y,
        r = [(min_x, min_y); (max_x, min_y); (max_x, max_y); (min_x, max_y)] /\
        (forall it pt, In it items -> In pt (i_bbox it) ->
           F64.le min_x (fst pt) = true /\ F64.le (fst pt) max_x = true /\
           F64.le min_y (snd pt) = true /\ F64.le (snd pt) max_y = true) /\
        is_member_x items min_x /\ is_member_x items max_x /\
        is_member_y items min_y /\ is_member_y items max_y
  | Raise e =>
      e = ValueError /\ items <> [] /\ Forall (fun it => i_bbox it = []) items
  | OutOfFuel => False
  end.
Proof.
  intros Hnum.
  destruct (list_eq_dec_nil items) as [->|Hne]; [ reflexivity | ].
  rewrite calculate_collective_bbox_unfold by assumption.
  set (xs := flat_map (fun it => map fst (i_bbox it)) items).
  set (ys := flat_map (fun it => map snd (i_bbox it)) items).
  destruct (list_eq_dec_nil xs) as [Ex|Hxs].
  - rewrite Ex. cbn. repeat split; auto. now apply (flat_map_coords_nil fst).
  - assert (Hys : ys <> []).
    { intros Ey. apply Hxs. apply (flat_map_coords_nil fst).
      now apply (flat_map_coords_nil snd). }
    destruct (py_min_ok xs Hxs) as (min_x & E1 & I1).
    destruct (py_max_ok xs Hxs) as (max_x & E2 & I2).
    destruct (py_min_ok ys Hys) as (min_y & E3 & I3).
    destruct (py_max_ok ys Hys) as (max_y & E4 & I4).
    rewrite E1, E2, E3, E4. cbn [bind].
    rewrite Forall_forall in Hnum.
    assert (Nx : Forall not_nan xs).
    { rewrite Forall_forall. intros x Hx.
      destruct (in_flat_map_coords fst items x Hx) as (it & pt & Hit & Hpt & <-).
      pose proof (Hnum it Hit) as Hb. rewrite Forall_forall in Hb.
      exact (proj1 (Hb pt Hpt)). }
    assert (Ny : Forall not_nan ys).
    { rewrite Forall_forall. intros y Hy.
      destruct (in_flat_map_coords snd items y Hy) as (it & pt & Hit & Hpt & <-).
      pose proof (Hnum it Hit) as Hb. rewrite Forall_forall in Hb.
      exact (proj2 (Hb pt Hpt)). }
    exists min_x, min_y, max_x, max_y. split; [ reflexivity | ].
    split.
    + intros it pt Hit Hpt.
      assert (Hx : In (fst pt) xs)
        by (apply in_flat_map; exists it; split; [ assumption | now apply in_map ]).
      assert (Hy : In (snd pt) ys)
        by (apply in_flat_map; exists it; split; [ assumption | now apply in_map ]).
      split; [ exact (py_min_le xs min_x Nx E1 _ Hx) | ].
      split; [ exact (py_max_ge xs max_x Nx E2 _ Hx) | ].
      split; [ exact (py_min_le ys min_y Ny E3 _ Hy)
             | exact (py_max_ge ys max_y Ny E4 _ Hy) ].
    + split; [ now apply (in_flat_map_coords fst) | ].
      split; [ now apply (in_flat_map_coords fst) | ].
      split; [ now apply (in_flat_map_coords snd)
             | now apply (in_flat_map_coords snd) ].
Qed.

Lemma collective_bbox_is_tight_witness :
  Forall (fun it => Forall numeric_point (i_bbox it)) scenario_A_items /\
  exists min_x min_y max_x max_y,
    calculate_collective_bbox scenario_A_items =
      Ok (Some [(min_x, min_y); (max_x, min_y); (max_x, max_y); (min_x, max_y)]) /\
    (forall it pt, In it scenario_A_items -> In pt (i_bbox it) ->
       F64.le min_x (fst pt) = true /\ F64.le (fst pt) max_x = true /\
       F64.le min_y (snd pt) = true /\ F64.le (snd pt) max_y = true).
Proof.
  assert (Hn : Forall (fun it => Forall numeric_point (i_bbox it)) scenario_A_items).
  { unfold numeric_point. finite_tac. }
  split; [ exact Hn | ].
  pose proof (collective_bbox_is_tight scenario_A_items Hn) as H.
  destruct (calculate_collective_bbox scenario_A_items) as [[r|]|e|] eqn:E.
  - destruct H as (min_x & min_y & max_x & max_y & -> & Hin & _).
    exists min_x, min_y, max_x, max_y. split; [ reflexivity | exact Hin ].
  - discriminate H.
  - destruct H as (_ & _ & H). inversion H as [|? ? H1 _]. discriminate H1.
  - contradiction.
Defined.

Lemma collective_bbox_single (it : item) (r : props) :
  calculate_bbox_properties (i_bbox it) = Ok r ->
  calculate_collective_bbox [it] = Ok (Some (corners r)).
Proof.
  intros H. destruct (props_minmax _ _ H) as (E1 & E2 & E3 & E4).
  unfold calculate_collective_bbox. cbn [flat_map]. rewrite !app_nil_r.
  rewrite E1, E2, E3, E4. reflexivity.
Qed.

(** X10. A paragraph with a single member has that member's own rectangle
    as bbox: the corners [(left,top), (right,top), (right,bottom),
    (left,bottom)] of the rectangle derived from the member's bbox. *)
Theorem single_member_bbox (l : list detection) (mdf : float) :
  match group_paragraphs l mdf with
  | Ok ps =>
      Forall (fun p => forall d, individual_items p = [d] ->
                exists r, calculate_bbox_properties (det_bbox d) = Ok r /\
                          p_bbox p = Some (corners r)) ps
  | _ => True
  end.
Proof.
  destruct (group_paragraphs l mdf) as [ps|e|] eqn:Hg; auto.
  destruct (group_paragraphs_inv l mdf ps Hg) as (_ & _ & B).
  eapply Forall_impl; [ | exact B ]. intros p (para & Hne & HQ & Hp) d Hd.
  destruct (make_paragraph_inv para p Hp) as (Hi & _ & _ & Hb & _).
  rewrite Hi in Hd.
  destruct (sort_items para) as [|m [|m' rest]] eqn:Es; try discriminate.
  inversion Hd; subst d.
  assert (Hm : item_of l m).
  { rewrite Forall_forall in HQ. apply HQ.
    eapply Permutation_in; [ apply sort_items_perm | ]. rewrite Es. now left. }
  destruct Hm as [_ Hm]. exists (i_props m). split; [ exact Hm | ].
  rewrite (collective_bbox_single m (i_props m) Hm) in Hb. now inversion Hb.
Qed.

(** ** Re-grouping *)

(** *** Two clusterings of the same elements have the same clusters *)

Lemma ForallOrdPairs_middle {X : Type} (R : X -> X -> Prop) (l1 : list X) :
  forall x l2,
  ForallOrdPairs R (l1 ++ x :: l2) ->
  ForallOrdPairs R (l1 ++ l2) /\ Forall (fun y => R y x) l1 /\ Forall (R x) l2.
Proof.
  induction l1 as [|a l1 IH]; intros x l2 H; simpl in *.
  - inversion H; subst. auto.
  - inversion H as [|? ? Ha H']; subst.
    destruct (IH x l2 H') as (H1 & H2 & H3).
    apply Forall_app in Ha. destruct Ha as [Ha1 Ha2].
    inversion Ha2; subst.
    split; [ constructor; [ apply Forall_app; auto | exact H1 ] | ].
    split; [ constructor; auto | exact H3 ].
Qed.

Section ClusteringUnique.
Context {D : Type}.
Variable eq_dec : forall x y : D, {x = y} + {x <> y}.
Variable G : D -> D -> Prop.

Lemma chain_In (rest : list D) :
  forall seen v, chain G seen rest -> In v rest ->
  exists w, In w (seen ++ rest) /\ G w v.
Proof.
  induction rest as [|d rest IH]; intros seen v H Hv; [ contradiction | ].
  destruct H as [He H]. destruct Hv as [<-|Hv].
  - apply Exists_exists in He. destruct He as (w & Hw & Hg).
    exists w. split; [ apply in_or_app; now left | exact Hg ].
  - destruct (IH (seen ++ [d]) v H Hv) as (w & Hw & Hg).
    exists w. split; [ | exact Hg ]. now rewrite <- app_assoc in Hw.
Qed.

Lemma connected_nonempty (c : list D) : connected G c -> c <> [].
Proof.
  intros (seed & rest & P & _) ->.
  apply Permutation_sym, Permutation_nil in P. discriminate.
Qed.

(** In a cluster of two or more, every member has a neighbour. *)
Lemma connected_neighbor (c : list D) :
  connected G c -> 2 <= List.length c ->
  forall v, In v c -> exists w, In w c /\ (G v w \/ G w v).
Proof.
  intros (seed & rest & P & H) Hlen v Hv.
  rewrite <- (Permutation_length P) in Hlen.
  destruct rest as [|d rest]; [ simpl in Hlen; lia | ].
  apply (Permutation_in _ (Permutation_sym P)) in Hv.
  destruct Hv as [<-|Hv].
  - destruct H as [He _]. inversion He as [? ? Hg|? ? He']; subst; [ | inversion He' ].
    exists d. split; [ | now left ].
    apply (Permutation_in _ P). right. now left.
  - destruct (chain_In _ _ _ H Hv) as (w & Hw & Hg).
    exists w. split; [ | now right ]. apply (Permutation_in _ P). exact Hw.
Qed.

(** A property that no edge inside [L] separates is shared by all the
    members of a chain inside [L]. *)
Lemma chain_same_side (A : D -> Prop) (L : list D) :
  (forall a u, In a L -> In u L -> G a u \/ G u a -> (A a <-> A u)) ->
  forall rest seen s,
  chain G seen rest -> incl (seen ++ rest) L ->
  (forall v, In v seen -> (A v <-> A s)) ->
  forall v, In v rest -> (A v <-> A s).
Proof.
  intros Hedge. induction rest as [|d rest IH]; intros seen s H Hin Hseen v Hv;
    [ contradiction | ].
  destruct H as [He H].
  assert (Hd : A d <-> A s).
  { apply Exists_exists in He. destruct He as (a & Ha & Hg).
    rewrite <- (Hseen a Ha). symmetry. apply Hedge; auto.
    - apply Hin, in_or_app. now left.
    - apply Hin, in_or_app. right. now left. }
  destruct Hv as [<-|Hv]; [ exact Hd | ].
  apply (IH (seen ++ [d]) s H); auto.
  - now rewrite <- app_assoc.
  - intros u Hu. apply in_app_or in Hu. destruct Hu as [Hu|[<-|[]]]; auto.
Qed.

Lemma cluster_incl (c R c' R' : list D) :
  connected G c ->
  (forall a b, In a c' -> In b R' -> ~ G a b /\ ~ G b a) ->
  Permutation (c ++ R) (c' ++ R') ->
  (exists x, In x c /\ In x c') ->
  forall v, In v c -> In v c'.
Proof.
  intros (seed & rest & P & H) Hsep PL (x & Hx & Hx') v Hv.
  assert (Hedge : forall a u, In a (c' ++ R') -> In u (c' ++ R') ->
                  G a u \/ G u a -> (In a c' <-> In u c')).
  { intros a u Ha Hu Hg. split; intros Hin.
    - apply in_app_or in Hu. destruct Hu as [Hu|Hu]; [ exact Hu | ].
      destruct (Hsep a u Hin Hu). tauto.
    - apply in_app_or in Ha. destruct Ha as [Ha|Ha]; [ exact Ha | ].
      destruct (Hsep u a Hin Ha). tauto. }
  assert (Hin : incl ([seed] ++ rest) (c' ++ R')).
  { intros u Hu. apply (Permutation_in _ PL), in_or_app. left.
    apply (Permutation_in _ P). exact Hu. }
  assert (Hall : forall u, In u (seed :: rest) -> (In u c' <-> In seed c')).
  { intros u [<-|Hu]; [ tauto | ].
    apply (chain_same_side (fun v => In v c') (c' ++ R') Hedge rest [seed] seed H Hin);
      auto.
    intros w [<-|[]]. tauto. }
  apply (Permutation_in _ (Permutation_sym P)) in Hx, Hv.
  apply (Hall v Hv). apply (Hall x Hx). exact Hx'.
Qed.

Lemma count_occ_all (c : list D) (x : D) :
  (forall v, In v c -> v = x) -> count_occ eq_dec c x = List.length c.
Proof.
  induction c as [|a c IH]; intros H; [ reflexivity | ].
  rewrite (H a (or_introl eq_refl)). rewrite count_occ_cons_eq by reflexivity.
  simpl. f_equal. apply IH. intros v Hv. apply H. now right.
Qed.

Lemma cluster_alone (c R : list D) :
  connected G c ->
  (forall a b, In a c -> In b R -> ~ G a b /\ ~ G b a) ->
  2 <= List.length c ->
  forall v, In v c -> count_occ eq_dec R v = 0.
Proof.
  intros Hc Hsep Hlen v Hv.
  destruct (connected_neighbor c Hc Hlen v Hv) as (w & Hw & Hg).
  apply count_occ_not_In. intros HR.
  destruct (Hsep w v Hw HR). tauto.
Qed.

Lemma short_cluster (c : list D) (v : D) :
  List.length c < 2 -> In v c -> c = [v].
Proof.
  destruct c as [|a [|b c]]; simpl; intros Hlen Hv; try lia; try contradiction.
  destruct Hv as [->|[]]. reflexivity.
Qed.

(** A cluster of one clustering and a cluster of another, of the same
    elements, that share a member have the same members. *)
Lemma cluster_same (c R c' R' : list D) :
  connected G c -> connected G c' ->
  (forall a b, In a c -> In b R -> ~ G a b /\ ~ G b a) ->
  (forall a b, In a c' -> In b R' -> ~ G a b /\ ~ G b a) ->
  Permutation (c ++ R) (c' ++ R') ->
  (exists x, In x c /\ In x c') ->
  Permutation c c'.
Proof.
  intros Hc Hc' Hsep Hsep' PL Hx.
  assert (I1 : forall v, In v c -> In v c')
    by exact (cluster_incl c R c' R' Hc Hsep' PL Hx).
  assert (I2 : forall v, In v c' -> In v c).
  { apply (cluster_incl c' R' c R Hc' Hsep (Permutation_sym PL)).
    destruct Hx as (x & H1 & H2). eauto. }
  apply (Permutation_count_occ eq_dec). intros v.
  pose proof (proj1 (Permutation_count_occ eq_dec _ _) PL v) as Hn.
  rewrite !count_occ_app in Hn.
  destruct (in_dec eq_dec v c) as [Hv|Hv].
  - pose proof (I1 v Hv) as Hv'.
    destruct (le_lt_dec 2 (List.length c)) as [L|L];
      destruct (le_lt_dec 2 (List.length c')) as [L'|L'].
    + rewrite (cluster_alone c R Hc Hsep L v Hv) in Hn.
      rewrite (cluster_alone c' R' Hc' Hsep' L' v Hv') in Hn. lia.
    + exfalso. pose proof (short_cluster c' v L' Hv') as E.
      assert (Hall : forall u, In u c -> u = v).
      { intros u Hu. apply I1 in Hu. rewrite E in Hu. destruct Hu as [<-|[]]. reflexivity. }
      destruct (connected_neighbor c Hc L v Hv) as (w & Hw & Hg).
      rewrite (Hall w Hw) in Hg.
      rewrite (cluster_alone c R Hc Hsep L v Hv) in Hn.
      rewrite (count_occ_all c v Hall) in Hn.
      rewrite E in Hn at 1. simpl in Hn.
      destruct (eq_dec v v) as [_|N]; [ | congruence ].
      assert (HR : In v R') by (apply (count_occ_In eq_dec); lia).
      destruct (Hsep' v v Hv' HR). tauto.
    + exfalso. pose proof (short_cluster c v L Hv) as E.
      assert (Hall : forall u, In u c' -> u = v).
      { intros u Hu. apply I2 in Hu. rewrite E in Hu. destruct Hu as [<-|[]]. reflexivity. }
      destruct (connected_neighbor c' Hc' L' v Hv') as (w & Hw & Hg).
      rewrite (Hall w Hw) in Hg.
      rewrite (cluster_alone c' R' Hc' Hsep' L' v Hv') in Hn.
      rewrite (count_occ_all c' v Hall) in Hn.
      rewrite E in Hn at 1. simpl in Hn.
      destruct (eq_dec v v) as [_|N]; [ | congruence ].
      assert (HR : In v R) by (apply (count_occ_In eq_dec); lia).
      destruct (Hsep v v Hv HR). tauto.
    + rewrite (short_cluster c v L Hv), (short_cluster c' v L' Hv'). reflexivity.
  - assert (Hv' : ~ In v c') by (intros H; apply Hv, I2, H).
    apply (count_occ_not_In eq_dec) in Hv, Hv'. lia.
Qed.

Lemma separated_concat (c : list D) (cl : list (list D)) :
  Forall (fun k => separated G c k \/ separated G k c) cl ->
  forall a b, In a c -> In b (List.concat cl) -> ~ G a b /\ ~ G b a.
Proof.
  intros H a b Ha Hb. apply in_concat in Hb. destruct Hb as (k & Hk & Hb).
  rewrite Forall_forall in H. destruct (H k Hk) as [S|S].
  - exact (S a b Ha Hb).
  - destruct (S b a Hb Ha). tauto.
Qed.

(** Two clusterings of the same elements have the same clusters. *)
Theorem clustering_unique (cl : list (list D)) :
  forall cl',
  clustering G cl -> clustering G cl' ->
  Permutation (List.concat cl) (List.concat cl') ->
  exists ql, Permutation ql cl' /\ Forall2 (@Permutation D) cl ql.
Proof.
  induction cl as [|c cl IH]; intros cl' [C S] [C' S'] P.
  - exists []. split; [ | constructor ].
    destruct cl' as [|k cl']; [ constructor | ].
    inversion C' as [|? ? Hk _]; subst. apply connected_nonempty in Hk.
    simpl in P. apply Permutation_nil in P. apply app_eq_nil in P.
    destruct P as [-> _]. congruence.
  - inversion C as [|? ? Hc C0]; subst. inversion S as [|? ? Sc S0]; subst.
    assert (Hx : exists x, In x c).
    { destruct c as [|x c0]; [ now apply connected_nonempty in Hc | ].
      exists x. now left. }
    destruct Hx as [x Hx].
    assert (Hx' : In x (List.concat cl')).
    { apply (Permutation_in _ P). simpl. apply in_or_app. now left. }
    apply in_concat in Hx'. destruct Hx' as (c' & Hc'in & Hxc').
    apply in_split in Hc'in. destruct Hc'in as (cl1 & cl2 & ->).
    destruct (ForallOrdPairs_middle _ _ _ _ S') as (S0' & Sl & Sr).
    rewrite Forall_app in C'. destruct C' as [C1 C2].
    inversion C2 as [|? ? Hc' C2']; subst.
    assert (PL : Permutation (c ++ List.concat cl)
                             (c' ++ List.concat (cl1 ++ cl2))).
    { eapply perm_trans; [ exact P | ].
      rewrite !concat_app. simpl. apply Permutation_app_swap_app. }
    assert (Hsep : forall a b, In a c -> In b (List.concat cl) -> ~ G a b /\ ~ G b a).
    { apply separated_concat. eapply Forall_impl; [ | exact Sc ]. auto. }
    assert (Hsep' : forall a b, In a c' -> In b (List.concat (cl1 ++ cl2)) ->
                                ~ G a b /\ ~ G b a).
    { apply separated_concat. apply Forall_app. split.
      - eapply Forall_impl; [ | exact Sl ]. auto.
      - eapply Forall_impl; [ | exact Sr ]. auto. }
    assert (Pc : Permutation c c')
      by (apply (cluster_same c _ c' _ Hc Hc' Hsep Hsep' PL); eauto).
    destruct (IH (cl1 ++ cl2)) as (ql & Pq & Fq).
    + split; assumption.
    + split; [ apply Forall_app; auto | exact S0' ].
    + apply (Permutation_app_inv_l c).
      eapply perm_trans; [ exact PL | ]. apply Permutation_app_tail.
      now apply Permutation_sym.
    + exists (c' :: ql). split; [ | constructor; assumption ].
      eapply perm_trans; [ apply perm_skip; exact Pq | apply Permutation_middle ].
Qed.

End ClusteringUnique.

(** *** A result is a clustering *)

Lemma float_eq_dec (x y : float) : {x = y} + {x <> y}.
Proof.
  unfold float, F64.float in *.
  decide equality; try apply Bool.bool_dec; try apply Z.eq_dec; apply Pos.eq_dec.
Qed.

Lemma detection_eq_dec (x y : detection) : {x = y} + {x <> y}.
Proof.
  unfold detection, bbox, point in *.
  decide equality; [ apply float_eq_dec | ].
  decide equality; [ apply string_dec | ].
  apply list_eq_dec. decide equality; apply float_eq_dec.
Qed.

Lemma chained_chain (mdf : float) (rest : list detection) :
  forall seen, chained mdf seen rest -> chain (merges_det mdf) seen rest.
Proof.
  induction rest as [|d rest IH]; intros seen H; [ exact I | ].
  destruct H as [H1 H2]. split; [ exact H1 | now apply IH ].
Qed.

Lemma cluster_connected (l : list detection) (mdf : float) (seed : item)
    (added : list item) (p : paragraph) :
  make_paragraph (seed :: added) = Ok p ->
  Forall (item_of l) (seed :: added) -> linked mdf [seed] added ->
  connected (merges_det mdf) (individual_items p).
Proof.
  intros Hmk Ic L. inversion Ic as [|? ? Is Ia]; subst.
  exists (item_det seed), (map item_det added). split.
  - destruct (make_paragraph_inv _ p Hmk) as (-> & _).
    change (item_det seed :: map item_det added) with (map item_det (seed :: added)).
    apply Permutation_map, Permutation_sym, sort_items_perm.
  - apply chained_chain. apply (linked_chained l mdf added [seed]); auto.
Qed.

Lemma ForallOrdPairs_map {X Y : Type} (f : X -> Y) (R : Y -> Y -> Prop) (l : list X) :
  ForallOrdPairs (fun a b => R (f a) (f b)) l -> ForallOrdPairs R (map f l).
Proof.
  induction 1 as [|a l Ha _ IH]; simpl; constructor; [ | exact IH ].
  now apply Forall_map.
Qed.

(** The paragraphs of a result, as lists of members, are a clustering for
    the merge verdict: connected by the inner loop, and separated both ways
    because the verdict on derived records does not depend on their order. *)
Lemma group_paragraphs_clustering (l : list detection) (mdf : float)
    (ps : list paragraph) :
  group_paragraphs l mdf = Ok ps ->
  clustering (merges_det mdf) (map individual_items ps) /\ Forall (collected mdf) ps.
Proof.
  intros Hg.
  destruct (group_paragraphs_clusters l mdf ps Hg) as (cs & F & Hcl & Hit & Hsep).
  rewrite Forall_forall in Hcl, Hit.
  split; [ split | ].
  - apply Forall_map. rewrite Forall_forall. intros p Hp.
    destruct (Forall2_In_r _ _ _ F p Hp) as (c & Hc & Hmk & _).
    destruct (Hcl c Hc) as (seed & added & -> & L).
    exact (cluster_connected l mdf seed added p Hmk (Hit _ Hc) L).
  - apply ForallOrdPairs_map.
    eapply ForallOrdPairs_Forall2; [ | exact F | exact Hsep ].
    cbv beta. intros c c' p q (Hp & Hc & _) (Hq & Hc' & _) H a b Ha Hb.
    apply (item_det_members c p Hp) in Ha. destruct Ha as (ma & Hma & <-).
    apply (item_det_members c' q Hq) in Hb. destruct Hb as (mb & Hmb & <-).
    pose proof (Hit c Hc) as Ic. pose proof (Hit c' Hc') as Ic'.
    rewrite Forall_forall in Ic, Ic'.
    pose proof (H ma mb Hma Hmb) as Hno.
    destruct (Ic ma Hma) as [_ Ca]. destruct (Ic' mb Hmb) as [_ Cb].
    split; intros (pa & pb & Hpa & Hpb & Hm).
    + change (det_bbox (item_det ma)) with (i_bbox ma) in Hpa.
      change (det_bbox (item_det mb)) with (i_bbox mb) in Hpb.
      rewrite Ca in Hpa. rewrite Cb in Hpb. inversion Hpa; inversion Hpb; subst.
      congruence.
    + change (det_bbox (item_det mb)) with (i_bbox mb) in Hpa.
      change (det_bbox (item_det ma)) with (i_bbox ma) in Hpb.
      rewrite Cb in Hpa. rewrite Ca in Hpb. inversion Hpa; inversion Hpb; subst.
      rewrite (merge_comm_nan_edges_show (i_props mb) (i_props ma) mdf) in Hm.
      * congruence.
      * exact (derived_nan_edges_show _ _ Cb).
      * exact (derived_nan_edges_show _ _ Ca).
  - rewrite Forall_forall. intros p Hp.
    destruct (Forall2_In_r _ _ _ F p Hp) as (c & Hc & Hmk & _).
    destruct (Hcl c Hc) as (seed & added & -> & L).
    exists seed, added. split; [ exact Hmk | ]. split; [ exact L | ].
    eapply Forall_impl; [ | exact (Hit _ Hc) ]. intros it [_ H]. exact H.
Qed.

(** *** Minimum and maximum past the NaNs *)

Lemma lt_nan_r (x : float) : F64.lt x F64.nan = false.
Proof. destruct x as [s|s| |s m e]; try reflexivity; destruct s; reflexivity. Qed.

Lemma lt_nan_l (x : float) : F64.lt F64.nan x = false.
Proof. destruct x as [s|s| |s m e]; reflexivity. Qed.

Lemma gt_nan_r (x : float) : F64.gt x F64.nan = false.
Proof. destruct x as [s|s| |s m e]; try reflexivity; destruct s; reflexivity. Qed.

Lemma gt_nan_l (x : float) : F64.gt F64.nan x = false.
Proof. destruct x as [s|s| |s m e]; reflexivity. Qed.

Lemma min_from_nan (l : list float) : min_from F64.nan l = F64.nan.
Proof.
  induction l as [|x l IH]; [ reflexivity | ].
  cbn [min_from]. now rewrite lt_nan_r.
Qed.

Lemma max_from_nan (l : list float) : max_from F64.nan l = F64.nan.
Proof.
  induction l as [|x l IH]; [ reflexivity | ].
  cbn [max_from]. now rewrite gt_nan_r.
Qed.

Lemma min_from_not_nan (b : float) (l : list float) :
  not_nan (min_from b l) -> not_nan b.
Proof.
  destruct b as [s|s| |s m e]; try (intros _; reflexivity).
  change S754_nan with F64.nan. now rewrite min_from_nan.
Qed.

Lemma is_nan_eq (x : float) : F64.is_nan x = true -> x = F64.nan.
Proof. destruct x; try discriminate. reflexivity. Qed.

Lemma min_from_numeric (l : list float) :
  forall b, not_nan b -> min_from b l = min_from b (filter numericb l).
Proof.
  induction l as [|x l IH]; intros b Hb; [ reflexivity | ].
  cbn [min_from filter]. destruct (numericb x) eqn:Ex.
  - cbn [min_from]. apply IH. destruct (F64.lt x b); [ | exact Hb ].
    unfold numericb in Ex. unfold not_nan. now destruct (F64.is_nan x).
  - unfold numericb in Ex. apply negb_false_iff, is_nan_eq in Ex. subst x.
    rewrite lt_nan_l. now apply IH.
Qed.

Lemma max_from_numeric (l : list float) :
  forall b, not_nan b -> max_from b l = max_from b (filter numericb l).
Proof.
  induction l as [|x l IH]; intros b Hb; [ reflexivity | ].
  cbn [max_from filter]. destruct (numericb x) eqn:Ex.
  - cbn [max_from]. apply IH. destruct (F64.gt x b); [ | exact Hb ].
    unfold numericb in Ex. unfold not_nan. now destruct (F64.is_nan x).
  - unfold numericb in Ex. apply negb_false_iff, is_nan_eq in Ex. subst x.
    rewrite gt_nan_l. now apply IH.
Qed.

Lemma Permutation_filter_compat {X : Type} (f : X -> bool) (l l' : list X) :
  Permutation l l' -> Permutation (filter f l) (filter f l').
Proof.
  induction 1 as [|x l l' _ IH|x y l|l l1 l' _ IH1 _ IH2]; simpl.
  - constructor.
  - destruct (f x); auto.
  - destruct (f x), (f y); auto using perm_swap.
  - eapply perm_trans; eauto.
Qed.

Lemma filter_numeric (l : list float) : Forall not_nan (filter numericb l).
Proof.
  rewrite Forall_forall. intros x Hx. apply filter_In in Hx.
  destruct Hx as [_ Hx]. unfold numericb in Hx. unfold not_nan.
  now destruct (F64.is_nan x).
Qed.

Lemma py_min_numeric (x : float) (r : list float) :
  not_nan x -> py_min (x :: r) = py_min (filter numericb (x :: r)).
Proof.
  intros Hx. cbn [filter]. unfold numericb at 1. rewrite Hx. cbn [negb py_min].
  f_equal. now apply min_from_numeric.
Qed.

Lemma py_max_numeric (x : float) (r : list float) :
  not_nan x -> py_max (x :: r) = py_max (filter numericb (x :: r)).
Proof.
  intros Hx. cbn [filter]. unfold numericb at 1. rewrite Hx. cbn [negb py_max].
  f_equal. now apply max_from_numeric.
Qed.

(** The minimum (maximum) of two rearrangements of one list that both
    start with a number is the same number: the NaNs behind are skipped. *)
Lemma py_min_perm_head (l1 l2 : list float) (m1 : float) :
  Permutation l1 l2 ->
  (exists x r, l1 = x :: r /\ not_nan x) -> (exists x r, l2 = x :: r /\ not_nan x) ->
  py_min l1 = Ok m1 -> exists m2, py_min l2 = Ok m2 /\ same_number m1 m2.
Proof.
  intros P (x1 & r1 & -> & N1) (x2 & r2 & -> & N2) H.
  rewrite py_min_numeric in H |- * by assumption.
  apply (py_min_perm _ _ m1 (filter_numeric _) (Permutation_filter_compat _ _ _ P) H).
Qed.

Lemma py_max_perm_head (l1 l2 : list float) (m1 : float) :
  Permutation l1 l2 ->
  (exists x r, l1 = x :: r /\ not_nan x) -> (exists x r, l2 = x :: r /\ not_nan x) ->
  py_max l1 = Ok m1 -> exists m2, py_max l2 = Ok m2 /\ same_number m1 m2.
Proof.
  intros P (x1 & r1 & -> & N1) (x2 & r2 & -> & N2) H.
  rewrite py_max_numeric in H |- * by assumption.
  apply (py_max_perm _ _ m1 (filter_numeric _) (Permutation_filter_compat _ _ _ P) H).
Qed.

(** *** The members of a cluster of two or more *)

Lemma merges_with_rect_ok (mdf : float) (base : list item) (c : item) :
  Forall (fun it => calculate_bbox_properties (i_bbox it) = Ok (i_props it)) base ->
  calculate_bbox_properties (i_bbox c) = Ok (i_props c) ->
  merges_with mdf base c = true ->
  rect_ok (i_props c) /\ exists a, In a base /\ rect_ok (i_props a).
Proof.
  unfold merges_with. intros Hb Hc H. apply existsb_exists in H.
  destruct H as (a & Ha & Hm). rewrite Forall_forall in Hb.
  destruct (merge_rect_ok _ _ _ (derived_nan_edges_show _ _ (Hb a Ha))
              (derived_nan_edges_show _ _ Hc) Hm) as [Ra Rc].
  split; [ exact Rc | exists a; auto ].
Qed.

Lemma linked_rect_ok (mdf : float) (added : list item) :
  forall base,
  Forall (fun it => calculate_bbox_properties (i_bbox it) = Ok (i_props it)) base ->
  Forall (fun it => calculate_bbox_properties (i_bbox it) = Ok (i_props it)) added ->
  linked mdf base added -> Forall (fun c => rect_ok (i_props c)) added.
Proof.
  induction added as [|c added IH]; intros base Hb Ha H; [ constructor | ].
  destruct H as [Hm H]. inversion Ha as [|? ? Hc Ha']; subst. constructor.
  - exact (proj1 (merges_with_rect_ok mdf base c Hb Hc Hm)).
  - apply (IH (base ++ [c])); auto. apply Forall_app. auto.
Qed.

Lemma cluster_rect_ok (mdf : float) (seed : item) (added : list item) :
  added <> [] -> linked mdf [seed] added ->
  Forall (fun it => calculate_bbox_properties (i_bbox it) = Ok (i_props it))
         (seed :: added) ->
  Forall (fun m => rect_ok (i_props m)) (seed :: added).
Proof.
  intros Hne L D. inversion D as [|? ? Ds Da]; subst.
  destruct added as [|c rest]; [ congruence | ].
  constructor.
  - destruct L as [Hm _]. inversion Da as [|? ? Dc _]; subst.
    destruct (merges_with_rect_ok mdf [seed] c (Forall_cons _ Ds (Forall_nil _)) Dc Hm)
      as (_ & a & Ha & Hr).
    destruct Ha as [<-|[]]. exact Hr.
  - apply (linked_rect_ok mdf _ [seed]); auto.
Qed.

Lemma rect_ok_first_point (b : bbox) (p : props) :
  calculate_bbox_properties b = Ok p -> rect_ok p ->
  exists pt rest, b = pt :: rest /\ numeric_point pt.
Proof.
  destruct b as [|pt rest]; [ discriminate | ]. intros Hp (L & _ & T & _).
  exists pt, rest. split; [ reflexivity | ].
  destruct (props_minmax _ _ Hp) as (E1 & _ & E3 & _).
  cbn [map py_min] in E1, E3. inversion E1 as [E1']. inversion E3 as [E3'].
  split.
  - apply (min_from_not_nan _ (map fst rest)). rewrite E1'. exact L.
  - apply (min_from_not_nan _ (map snd rest)). rewrite E3'. exact T.
Qed.

Lemma cluster_items_sorted (mdf : float) (seed : item) (added : list item) :
  added <> [] -> linked mdf [seed] added ->
  Forall (fun it => calculate_bbox_properties (i_bbox it) = Ok (i_props it))
         (seed :: added) ->
  StronglySorted det_reading_le (map item_det (sort_items (seed :: added))).
Proof.
  intros Hne L Ic.
  pose proof (cluster_keys_ok mdf seed added Hne L) as Hok.
  pose proof (sort_items_perm (seed :: added)) as Hperm.
  apply StronglySorted_map with (R := key_not_above);
    [ | now apply sort_items_sorted ].
  rewrite Forall_forall in Ic, Hok.
  intros x y Hx Hy Hxy.
  apply (Permutation_in _ Hperm) in Hx, Hy.
  destruct (key_ok_centers _ (Hok x Hx)) as [Nxx Nxy].
  destruct (key_ok_centers _ (Hok y Hy)) as [Nyx Nyy].
  exists (i_props x), (i_props y).
  split; [ exact (Ic x Hx) | ]. split; [ exact (Ic y Hy) | ].
  now apply key_le_reading.
Qed.

(** *** Paragraphs of the same members *)

Lemma same_number_sym (x y : float) : same_number x y -> same_number y x.
Proof. intros [->|(s & s' & -> & ->)]; [ now left | right; eauto ]. Qed.

Lemma same_box_refl (b : option bbox) : same_box b b.
Proof.
  destruct b as [r|]; [ | exact I ]. simpl.
  induction r as [|pt r IH]; constructor; [ | exact IH ].
  split; apply same_number_refl.
Qed.

Lemma flat_map_coords {X : Type} (f : point -> X) (c : list item) :
  flat_map (fun it => map f (i_bbox it)) c = flat_map (map f) (map i_bbox c).
Proof. induction c as [|it c IH]; simpl; [ reflexivity | now rewrite IH ]. Qed.

Lemma collective_bbox_ext (c1 c2 : list item) :
  map i_bbox c1 = map i_bbox c2 ->
  calculate_collective_bbox c1 = calculate_collective_bbox c2.
Proof.
  intros E. destruct c1 as [|a c1], c2 as [|b c2]; try discriminate; [ reflexivity | ].
  rewrite !calculate_collective_bbox_unfold by discriminate.
  now rewrite !flat_map_coords, E.
Qed.

Lemma coords_head (f : point -> float) (items : list item) :
  items <> [] ->
  Forall (fun it => exists pt rest, i_bbox it = pt :: rest /\ not_nan (f pt)) items ->
  exists x r, flat_map (fun it => map f (i_bbox it)) items = x :: r /\ not_nan x.
Proof.
  destruct items as [|it items]; [ congruence | ]. intros _ H.
  inversion H as [|? ? (pt & rest & E & N) _]; subst.
  simpl. rewrite E. simpl. eauto.
Qed.

(** The collective bbox of two rearrangements of the same boxes, each box
    starting with a numeric point, has the same numbers. *)
Lemma collective_bbox_perm (c1 c2 : list item) (b1 b2 : option bbox) :
  Permutation (map i_bbox c1) (map i_bbox c2) ->
  Forall (fun it => exists pt rest, i_bbox it = pt :: rest /\ numeric_point pt) c1 ->
  Forall (fun it => exists pt rest, i_bbox it = pt :: rest /\ numeric_point pt) c2 ->
  calculate_collective_bbox c1 = Ok b1 -> calculate_collective_bbox c2 = Ok b2 ->
  same_box b1 b2.
Proof.
  intros P F1 F2 H1 H2.
  destruct (list_eq_dec_nil c1) as [->|N1].
  { apply Permutation_nil in P. destruct c2; [ | discriminate ].
    inversion H1; inversion H2; subst. exact I. }
  assert (N2 : c2 <> []).
  { intros ->. apply Permutation_sym, Permutation_nil in P.
    destruct c1; [ congruence | discriminate ]. }
  rewrite calculate_collective_bbox_unfold in H1, H2 by assumption.
  assert (Px : Permutation (flat_map (fun it => map fst (i_bbox it)) c1)
                           (flat_map (fun it => map fst (i_bbox it)) c2))
    by (rewrite !flat_map_coords; now apply Permutation_flat_map).
  assert (Py : Permutation (flat_map (fun it => map snd (i_bbox it)) c1)
                           (flat_map (fun it => map snd (i_bbox it)) c2))
    by (rewrite !flat_map_coords; now apply Permutation_flat_map).
  assert (Hx1 := coords_head fst c1 N1
                   (Forall_impl _ (fun it '(ex_intro _ pt (ex_intro _ rest (conj E N))) =>
                      ex_intro _ pt (ex_intro _ rest (conj E (proj1 N)))) F1)).
  assert (Hx2 := coords_head fst c2 N2
                   (Forall_impl _ (fun it '(ex_intro _ pt (ex_intro _ rest (conj E N))) =>
                      ex_intro _ pt (ex_intro _ rest (conj E (proj1 N)))) F2)).
  assert (Hy1 := coords_head snd c1 N1
                   (Forall_impl _ (fun it '(ex_intro _ pt (ex_intro _ rest (conj E N))) =>
                      ex_intro _ pt (ex_intro _ rest (conj E (proj2 N)))) F1)).
  assert (Hy2 := coords_head snd c2 N2
                   (Forall_impl _ (fun it '(ex_intro _ pt (ex_intro _ rest (conj E N))) =>
                      ex_intro _ pt (ex_intro _ rest (conj E (proj2 N)))) F2)).
  set (xs1 := flat_map (fun it => map fst (i_bbox it)) c1) in *.
  set (xs2 := flat_map (fun it => map fst (i_bbox it)) c2) in *.
  set (ys1 := flat_map (fun it => map snd (i_bbox it)) c1) in *.
  set (ys2 := flat_map (fun it => map snd (i_bbox it)) c2) in *.
  destruct (py_min xs1) as [a1|e|] eqn:A1; cbn [bind] in H1; try discriminate.
  destruct (py_max xs1) as [a2|e|] eqn:A2; cbn [bind] in H1; try discriminate.
  destruct (py_min ys1) as [a3|e|] eqn:A3; cbn [bind] in H1; try discriminate.
  destruct (py_max ys1) as [a4|e|] eqn:A4; cbn [bind] in H1; try discriminate.
  destruct (py_min_perm_head xs1 xs2 a1 Px Hx1 Hx2 A1) as (b1' & B1 & S1).
  destruct (py_max_perm_head xs1 xs2 a2 Px Hx1 Hx2 A2) as (b2' & B2 & S2).
  destruct (py_min_perm_head ys1 ys2 a3 Py Hy1 Hy2 A3) as (b3' & B3 & S3).
  destruct (py_max_perm_head ys1 ys2 a4 Py Hy1 Hy2 A4) as (b4' & B4 & S4).
  rewrite B1, B2, B3, B4 in H2. cbn [bind] in H2.
  inversion H1; inversion H2; subst. simpl.
  repeat (apply Forall2_cons; [ split; assumption | ]). apply Forall2_nil.
Qed.

Lemma sorted_perm_eq {X : Type} (R : X -> X -> Prop) (l1 : list X) :
  forall l2,
  StronglySorted R l1 -> StronglySorted R l2 -> Permutation l1 l2 ->
  (forall x y, In x l1 -> In y l1 -> R x y -> R y x -> x = y) ->
  l1 = l2.
Proof.
  induction l1 as [|a l1 IH]; intros l2 S1 S2 P Huniq.
  - apply Permutation_nil in P. now subst.
  - destruct l2 as [|b l2].
    { apply Permutation_sym, Permutation_nil in P. discriminate. }
    inversion S1 as [|? ? S1' F1]; inversion S2 as [|? ? S2' F2]; subst.
    rewrite Forall_forall in F1, F2.
    assert (Hab : a = b).
    { assert (Ha : In a (b :: l2))
        by (eapply Permutation_in; [ exact P | now left ]).
      assert (Hb : In b (a :: l1))
        by (eapply Permutation_in; [ apply Permutation_sym; exact P | now left ]).
      destruct Ha as [Ha|Ha]; [ now symmetry | ].
      destruct Hb as [Hb|Hb]; [ assumption | ].
      apply Huniq; simpl; auto. }
    subst b. f_equal. apply IH; auto.
    + eapply Permutation_cons_inv; exact P.
    + intros; apply Huniq; simpl; auto.
Qed.

Lemma le_antisym_eqb (x y : float) :
  F64.le x y = true -> F64.le y x = true -> F64.eqb x y = true.
Proof.
  intros H1 H2. destruct (le_true_not_nan _ _ H1) as [Nx Ny].
  apply le_iff in H1, H2; auto. apply eqb_iff; auto.
  unfold num_lt, num_eq in *. lia.
Qed.

Lemma eqb_sym (x y : float) : F64.eqb x y = true -> F64.eqb y x = true.
Proof.
  intros H. destruct (eqb_true_not_nan _ _ H) as [Nx Ny].
  apply eqb_iff in H; auto. apply eqb_iff; auto.
  unfold num_eq in *. lia.
Qed.

Lemma det_reading_le_antisym (d1 d2 : detection) :
  det_reading_le d1 d2 -> det_reading_le d2 d1 -> same_center d1 d2 = true.
Proof.
  intros (p1 & p2 & H1 & H2 & Y12 & X12) (q2 & q1 & H2' & H1' & Y21 & X21).
  rewrite H2 in H2'. rewrite H1 in H1'. inversion H2'; inversion H1'; subst q1 q2.
  unfold same_center. rewrite H1, H2.
  assert (Ey : F64.eqb (center_y p1) (center_y p2) = true)
    by now apply le_antisym_eqb.
  rewrite Ey. cbn [andb].
  apply le_antisym_eqb; [ exact (X21 (eqb_sym _ _ Ey)) | exact (X12 Ey) ].
Qed.

(** A paragraph is determined by the list of its members. *)
Lemma paragraph_determined (c c' : list item) (p q : paragraph) :
  make_paragraph c = Ok p -> make_paragraph c' = Ok q ->
  individual_items q = individual_items p -> q = p.
Proof.
  intros Hp Hq E.
  destruct (make_paragraph_inv c p Hp) as (Ip & Tp & Cp & Bp & Sp).
  destruct (make_paragraph_inv c' q Hq) as (Iq & Tq & Cq & Bq & Sq).
  rewrite Ip, Iq in E.
  assert (Et : map i_text (sort_items c') = map i_text (sort_items c)).
  { change i_text with (fun it => det_text (item_det it)).
    rewrite <- !(map_map item_det det_text). now rewrite E. }
  assert (Es : map i_score (sort_items c') = map i_score (sort_items c)).
  { change i_score with (fun it => det_score (item_det it)).
    rewrite <- !(map_map item_det det_score). now rewrite E. }
  assert (Eb : map i_bbox (sort_items c') = map i_bbox (sort_items c)).
  { change i_bbox with (fun it => det_bbox (item_det it)).
    rewrite <- !(map_map item_det det_bbox). now rewrite E. }
  assert (El : List.length (sort_items c') = List.length (sort_items c)).
  { rewrite <- (length_map item_det (sort_items c')), E. apply length_map. }
  rewrite (collective_bbox_ext _ _ Eb) in Bq. rewrite Bp in Bq.
  inversion Bq as [Bq'].
  destruct p, q. cbn in *. subst. rewrite Et, Es, El, E. reflexivity.
Qed.

Lemma same_members_same_cluster (mdf : float) (p q : paragraph) :
  collected mdf p -> collected mdf q ->
  Permutation (individual_items p) (individual_items q) -> same_cluster p q.
Proof.
  intros (sp & ap & Hp & Lp & Dp) (sq & aq & Hq & Lq & Dq) P.
  destruct (make_paragraph_inv _ p Hp) as (Ip & _ & Cp & Bp & _).
  destruct (make_paragraph_inv _ q Hq) as (Iq & _ & Cq & Bq & _).
  pose proof (sort_items_perm (sp :: ap)) as Pp.
  pose proof (sort_items_perm (sq :: aq)) as Pq.
  assert (Hlen : List.length (sq :: aq) = List.length (sp :: ap)).
  { rewrite <- (Permutation_length Pp), <- (Permutation_length Pq).
    rewrite <- (length_map item_det (sort_items (sq :: aq))), <- Iq.
    rewrite <- (length_map item_det (sort_items (sp :: ap))), <- Ip.
    symmetry. now apply Permutation_length. }
  destruct (list_eq_dec_nil ap) as [->|Hne].
  - assert (E : q = p).
    { apply (paragraph_determined _ _ p q Hp Hq).
      rewrite Ip in P |- *. cbn in P |- *.
      now apply Permutation_length_1_inv in P. }
    subst q. split; [ apply Permutation_refl | ]. split; [ reflexivity | ].
    split; [ apply same_box_refl | reflexivity ].
  - assert (Hne' : aq <> []).
    { intros ->. destruct ap; [ congruence | discriminate Hlen ]. }
    split; [ exact P | ]. split.
    { rewrite Cp, Cq, (Permutation_length Pp), (Permutation_length Pq). exact Hlen. }
    split.
    + apply (collective_bbox_perm (sort_items (sp :: ap)) (sort_items (sq :: aq)));
        try assumption.
      * rewrite Ip, Iq in P. apply (Permutation_map det_bbox) in P.
        now rewrite !map_map in P.
      * pose proof (cluster_rect_ok mdf sp ap Hne Lp Dp) as R.
        rewrite Forall_forall in R, Dp |- *. intros it Hit.
        apply (Permutation_in _ Pp) in Hit.
        exact (rect_ok_first_point _ _ (Dp it Hit) (R it Hit)).
      * pose proof (cluster_rect_ok mdf sq aq Hne' Lq Dq) as R.
        rewrite Forall_forall in R, Dq |- *. intros it Hit.
        apply (Permutation_in _ Pq) in Hit.
        exact (rect_ok_first_point _ _ (Dq it Hit) (R it Hit)).
    + intros Hc. apply (paragraph_determined _ _ p q Hp Hq). symmetry.
      apply (sorted_perm_eq det_reading_le).
      * rewrite Ip. now apply (cluster_items_sorted mdf).
      * rewrite Iq. now apply (cluster_items_sorted mdf).
      * exact P.
      * intros x y Hx Hy Hxy Hyx. apply Hc; auto.
        now apply det_reading_le_antisym.
Qed.

Lemma Forall2_map_both {X Y X' Y' : Type} (f : X -> X') (g : Y -> Y')
    (T : X' -> Y' -> Prop) (l : list X) :
  forall l', Forall2 T (map f l) (map g l') -> Forall2 (fun a b => T (f a) (g b)) l l'.
Proof.
  induction l as [|a l IH]; intros [|b l'] H; inversion H; subst; constructor; auto.
Qed.

Lemma Forall2_In_impl {X Y : Type} (T T' : X -> Y -> Prop) (l : list X) (l' : list Y) :
  (forall a b, In a l -> In b l' -> T a b -> T' a b) ->
  Forall2 T l l' -> Forall2 T' l l'.
Proof.
  intros H F. apply Forall2_In_both in F.
  eapply Forall2_impl; [ | exact F ]. cbv beta. intros a b (Hab & Ha & Hb). auto.
Qed.

(** C3, as stated, fails: grouping [regroup_input] yields one paragraph with
    text "S X Y U T Q"; grouping its flattened [individual_items] again,
    with the same factor, yields the same six members with text
    "S X Y T U Q". *)
Lemma regroup_changes_text :
  exists p p',
    group_paragraphs regroup_input F64.two = Ok [p] /\
    group_paragraphs (flatten_items [p]) F64.two = Ok [p'] /\
    p_text p = "S X Y U T Q"%string /\
    p_text p' = "S X Y T U Q"%string /\
    p_text p' <> p_text p /\
    p_bbox p' = p_bbox p /\
    Permutation (individual_items p') (individual_items p).
Proof.
  let r := eval vm_compute in (group_paragraphs regroup_input F64.two) in
  match r with Ok [?p] => exists p end.
  match goal with |- exists p', _ /\ group_paragraphs ?l _ = _ /\ _ =>
    let r := eval vm_compute in (group_paragraphs l F64.two) in
    match r with Ok [?p'] => exists p' end
  end.
  split; [ vm_compute; reflexivity | ].
  split; [ vm_compute; reflexivity | ].
  split; [ reflexivity | ]. split; [ reflexivity | ].
  split; [ cbn [p_text]; discriminate | ]. split; [ reflexivity | ].
  cbn [individual_items].
  apply perm_skip, perm_skip, perm_skip, perm_swap.
Qed.

(** The bbox is the same on both runs as a rectangle of numbers, but a zero
    can change its sign with the order of the members: [max] keeps the first
    of two equal values.  For [zero_input] the right edge is [-0.0] on the
    first run, where [zero_U] comes before [zero_T], and [0.0] on the
    second. *)
Lemma regroup_changes_zero_sign :
  exists p p',
    group_paragraphs zero_input F64.two = Ok [p] /\
    group_paragraphs (flatten_items [p]) F64.two = Ok [p'] /\
    p_text p = "S X Y U T Q"%string /\
    p_text p' = "S X Y T U Q"%string /\
    p_bbox p = Some [(F64.of_Z (-71), F64.of_Z 19); (S754_zero true, F64.of_Z 19);
                     (S754_zero true, F64.of_Z 94); (F64.of_Z (-71), F64.of_Z 94)] /\
    p_bbox p' = Some [(F64.of_Z (-71), F64.of_Z 19); (S754_zero false, F64.of_Z 19);
                      (S754_zero false, F64.of_Z 94); (F64.of_Z (-71), F64.of_Z 94)] /\
    p_bbox p' <> p_bbox p /\
    same_box (p_bbox p) (p_bbox p').
Proof.
  let r := eval vm_compute in (group_paragraphs zero_input F64.two) in
  match r with Ok [?p] => exists p end.
  match goal with |- exists p', _ /\ group_paragraphs ?l _ = _ /\ _ =>
    let r := eval vm_compute in (group_paragraphs l F64.two) in
    match r with Ok [?p'] => exists p' end
  end.
  split; [ vm_compute; reflexivity | ].
  split; [ vm_compute; reflexivity | ].
  split; [ reflexivity | ]. split; [ reflexivity | ].
  split; [ vm_compute; reflexivity | ]. split; [ vm_compute; reflexivity | ].
  split; [ cbn [p_bbox]; discriminate | ].
  cbn [p_bbox same_box].
  repeat (apply Forall2_cons;
          [ split; first [ apply same_number_refl
                         | right; exists true, false; split; reflexivity ] | ]).
  apply Forall2_nil.
Qed.

(** C3, amended. For every input, flattening the [individual_items] of the
    result and grouping them again with the same factor succeeds and yields
    an equivalent partition: the paragraphs of the second run are, in some
    order, paragraphs of the same members as those of the first run (the
    same detections with the same multiplicities), with the same count and
    a bbox of the same numbers; and a paragraph in which no two distinct
    members have the same center comes out again as the very same
    paragraph, text and score included.  Only the order of members that
    share a center, and with it the text, can change. *)
Theorem regroup_idempotent (l : list detection) (mdf : float) (ps : list paragraph) :
  group_paragraphs l mdf = Ok ps ->
  exists ps',
    group_paragraphs (flatten_items ps) mdf = Ok ps' /\
    equivalent_partition ps ps' /\
    (centers_identify l -> Permutation ps ps').
Proof.
  intros Hg.
  destruct (group_paragraphs_inv l mdf ps Hg) as (Hb & P & _).
  fold (flatten_items ps) in P.
  assert (Hb' : Forall (fun d => det_bbox d <> []) (flatten_items ps)).
  { rewrite Forall_forall in Hb |- *. intros d Hd. apply Hb.
    eapply Permutation_in; eauto. }
  destruct (group_paragraphs_ok (flatten_items ps) mdf Hb') as (ps' & Hg' & P' & _).
  destruct (group_paragraphs_clustering l mdf ps Hg) as [K C].
  destruct (group_paragraphs_clustering _ mdf ps' Hg') as [K' C'].
  destruct (clustering_unique detection_eq_dec (merges_det mdf) _ _ K K'
              (Permutation_sym P')) as (ql & Pq & Fq).
  destruct (Permutation_map_inv _ _ Pq) as (qs & -> & Pqs).
  apply Forall2_map_both in Fq.
  assert (Fc : Forall2 same_cluster ps qs).
  { eapply Forall2_In_impl; [ | exact Fq ]. cbv beta. intros p q Hp Hq Hpq.
    rewrite Forall_forall in C, C'.
    apply (same_members_same_cluster mdf); auto.
    apply C'. eapply Permutation_in; [ apply Permutation_sym; exact Pqs | exact Hq ]. }
  exists ps'. split; [ exact Hg' | ]. split.
  - exists qs. split; [ now apply Permutation_sym | exact Fc ].
  - intros Hc.
    assert (E : qs = ps).
    { clear - Fc Hc P. 
      assert (Hin : forall p d, In p ps -> In d (individual_items p) -> In d l).
      { intros p d Hp Hd. apply (Permutation_in _ P). unfold flatten_items.
        apply in_concat. exists (individual_items p). split; [ now apply in_map | auto ]. }
      apply Forall2_In_both in Fc.
      induction Fc as [|p q ps0 qs0 (Hpq & Hp & _) _ IH]; [ reflexivity | ].
      f_equal.
      - destruct Hpq as (_ & _ & _ & H). apply H.
        intros d1 d2 H1 H2. apply Hc; eapply Hin; eauto.
      - apply IH. }
    subst qs. now apply Permutation_sym.
Qed.

Lemma regroup_idempotent_witness :
  exists ps,
    group_paragraphs regroup_input F64.two = Ok ps /\
    exists ps',
      group_paragraphs (flatten_items ps) F64.two = Ok ps' /\
      equivalent_partition ps ps' /\
      (centers_identify regroup_input -> Permutation ps ps').
Proof.
  let r := eval vm_compute in (group_paragraphs regroup_input F64.two) in
  match r with Ok ?ps => exists ps end.
  assert (Hg : group_paragraphs regroup_input F64.two = Ok
    ltac:(let r := eval vm_compute in (group_paragraphs regroup_input F64.two) in
          match r with Ok ?ps => exact ps end)) by (vm_compute; reflexivity).
  split; [ exact Hg | ].
  exact (regroup_idempotent regroup_input F64.two _ Hg).
Defined.

(** ** The thresholds of the merge decision *)

Lemma gt_le_trans (r f f' : float) :
  F64.gt r f' = true -> F64.le f f' = true -> F64.gt r f = true.
Proof.
  rewrite !gt_lt. intros H1 H2.
  destruct (lt_true_not_nan _ _ H1) as [Nf' Nr].
  destruct (le_true_not_nan _ _ H2) as [Nf _].
  apply lt_iff in H1; auto. apply le_iff in H2; auto. apply lt_iff; auto.
  unfold num_lt, num_eq in *. lia.
Qed.

Lemma gt_not_lt (r f f' : float) :
  F64.gt r f' = true -> F64.le f f' = true -> F64.lt r f = false.
Proof.
  rewrite gt_lt. intros H1 H2.
  destruct (lt_true_not_nan _ _ H1) as [Nf' Nr].
  destruct (le_true_not_nan _ _ H2) as [Nf _].
  apply lt_iff in H1; auto. apply le_iff in H2; auto. apply lt_false_iff; auto.
  unfold num_lt, num_eq in *. lia.
Qed.

(** X11. Raising [max_distance_factor] never undoes a merge: two rectangles
    that merge for a factor merge for every larger factor. *)
Theorem merge_monotone_in_factor (p1 p2 : props) (f f' : float) :
  F64.le f f' = true ->
  should_merge_bubbles p1 p2 f = true ->
  should_merge_bubbles p1 p2 f' = true.
Proof.
  intros Hle. unfold should_merge_bubbles.
  destruct (F64.gt (relative_distance p1 p2) f) eqn:G; [ discriminate | ].
  destruct (F64.gt (relative_distance p1 p2) f') eqn:G'; [ | auto ].
  rewrite (gt_le_trans _ f f' G' Hle) in G. discriminate.
Qed.

Lemma merge_monotone_in_factor_witness :
  F64.le F64.two (F64.of_Z 3) = true /\
  should_merge_bubbles props_D1 props_D2 F64.two = true /\
  should_merge_bubbles props_D1 props_D2 (F64.of_Z 3) = true.
Proof.
  assert (H1 : F64.le F64.two (F64.of_Z 3) = true) by reflexivity.
  assert (H2 : should_merge_bubbles props_D1 props_D2 F64.two = true)
    by (vm_compute; reflexivity).
  split; [ exact H1 | ]. split; [ exact H2 | ].
  exact (merge_monotone_in_factor props_D1 props_D2 F64.two (F64.of_Z 3) H1 H2).
Defined.

(** X12. A [max_distance_factor] of 1.5 or more is never the deciding
    threshold: every such factor, the default 2.0 included, gives the same
    verdicts as the factor 1.5. *)
Theorem factor_saturates_at_1_5 (p1 p2 : props) (f : float) :
  F64.le F64.c1_5 f = true ->
  should_merge_bubbles p1 p2 f = should_merge_bubbles p1 p2 F64.c1_5.
Proof.
  intros Hle. unfold should_merge_bubbles.
  set (r := relative_distance p1 p2).
  destruct (F64.gt r f) eqn:G.
  - now rewrite (gt_le_trans r F64.c1_5 f G Hle).
  - destruct (F64.gt r F64.c1_5) eqn:G'; [ | reflexivity ].
    rewrite (gt_not_lt r F64.c1_5 F64.c1_5 G' eq_refl).
    rewrite (gt_not_lt r F64.c0_8 F64.c1_5 G' eq_refl). reflexivity.
Qed.

Lemma factor_saturates_at_1_5_witness :
  F64.le F64.c1_5 F64.two = true /\
  should_merge_bubbles props_D1 props_D2 F64.two =
  should_merge_bubbles props_D1 props_D2 F64.c1_5.
Proof.
  assert (H : F64.le F64.c1_5 F64.two = true) by reflexivity.
  split; [ exact H | ].
  exact (factor_saturates_at_1_5 props_D1 props_D2 F64.two H).
Defined.

Lemma lt_trans_0_8 (r : float) : F64.lt r F64.c0_8 = true -> F64.lt r F64.c1_5 = true.
Proof.
  intros H. destruct (lt_true_not_nan _ _ H) as [Nr N8].
  assert (N15 : not_nan F64.c1_5) by reflexivity.
  apply (lt_iff r F64.c0_8 Nr N8) in H. apply (lt_iff r F64.c1_5 Nr N15).
  unfold num_lt in *. unfold F64.c0_8, F64.c1_5 in *.
  cbn [cls sexp sman] in *. lia.
Qed.

(** X13. Two rectangles merge only when their relative distance is below
    1.5 and not above [max_distance_factor]. *)
Theorem merge_needs_closeness (p1 p2 : props) (f : float) :
  if should_merge_bubbles p1 p2 f
  then F64.lt (relative_distance p1 p2) F64.c1_5 = true /\
       F64.gt (relative_distance p1 p2) f = false
  else True.
Proof.
  unfold should_merge_bubbles.
  destruct (F64.gt (relative_distance p1 p2) f); [ exact I | ].
  destruct (F64.lt (relative_distance p1 p2) F64.c1_5) eqn:L; simpl.
  - destruct (is_horizontally_aligned p1 p2 || is_vertically_aligned p1 p2); auto.
    destruct (F64.lt (relative_distance p1 p2) F64.c0_8); auto.
  - destruct (F64.lt (relative_distance p1 p2) F64.c0_8) eqn:L8; [ | exact I ].
    rewrite (lt_trans_0_8 _ L8) in L. discriminate.
Qed.

(** ** Distances *)

Lemma sqrt_not_negative (x : float) : not_negative x -> not_negative (F64.sqrt x).
Proof.
  unfold F64.sqrt, SFsqrt. destruct x as [s|s| |s m e]; simpl; auto.
  - intros ->. exact eq_refl.
  - intros ->.
    destruct (SFsqrt_core_binary F64.prec F64.emax (Z.pos m) e) as [[mz ez] lz] eqn:E.
    apply has_sign_false_not_negative, binary_round_aux_sign.
    unfold SFsqrt_core_binary in E.
    set (m' := match _ with Z.pos _ => _ | Z0 => _ | Z.neg _ => _ end) in E.
    assert (Hm' : (0 <= m')%Z).
    { unfold m'. destruct (_ - _)%Z; try lia. apply Z.shiftl_nonneg. lia. }
    pose proof (Z.sqrtrem_spec m' Hm') as Hs.
    destruct (Z.sqrtrem m') as [q r]. inversion E; subst. lia.
Qed.

Lemma gt_zero_shape (a : float) :
  F64.gt a F64.zero = true ->
  a = S754_infinity false \/ exists m e, a = S754_finite false m e.
Proof.
  destruct a as [s|s| |s m e]; simpl; try discriminate.
  - destruct s; try discriminate. auto.
  - destruct s; try discriminate. eauto.
Qed.

Lemma div_not_negative (d a : float) :
  not_negative d -> F64.gt a F64.zero = true -> not_negative (F64.div d a).
Proof.
  intros Hd Ha. destruct (gt_zero_shape a Ha) as [->|(ma & ea & ->)].
  - destruct d as [s|s| |s m e]; simpl; auto.
  - destruct d as [s|s| |s m e]; simpl in *; auto; subst; simpl; auto.
    unfold F64.div, SFdiv.
    destruct (SFdiv_core_binary F64.prec F64.emax (Z.pos m) e (Z.pos ma) ea)
      as [[mz ez] lz] eqn:E.
    apply has_sign_false_not_negative. cbn [xorb]. apply binary_round_aux_sign.
    unfold SFdiv_core_binary in E.
    set (m' := match _ with Z.pos _ => _ | Z0 => _ | Z.neg _ => _ end) in E.
    assert (Hm' : (0 <= m')%Z).
    { unfold m'. destruct (_ - _ - _)%Z; try lia. apply Z.shiftl_nonneg. lia. }
    pose proof (Z.div_pos m' (Z.pos ma) Hm' eq_refl) as Hq.
    unfold Z.div in Hq. destruct (Z.div_eucl m' (Z.pos ma)) as [q r].
    inversion E; subst. exact Hq.
Qed.

Lemma avg_size_relative_distance (p1 p2 : props) :
  relative_distance p1 p2 =
  if F64.gt (avg_size p1 p2) F64.zero
  then F64.div (calculate_distance p1 p2) (avg_size p1 p2)
  else F64.inf.
Proof. reflexivity. Qed.

Lemma distance_not_negative (p1 p2 : props) : not_negative (calculate_distance p1 p2).
Proof.
  unfold calculate_distance.
  apply sqrt_not_negative, add_not_negative; apply square_not_negative.
Qed.

Lemma relative_distance_not_negative (p1 p2 : props) :
  not_negative (relative_distance p1 p2).
Proof.
  rewrite avg_size_relative_distance.
  destruct (F64.gt (avg_size p1 p2) F64.zero) eqn:G; [ | exact eq_refl ].
  apply div_not_negative; [ apply distance_not_negative | exact G ].
Qed.

(** X14. The distance of two rectangle records does not depend on their
    order and is never below zero, and so is the relative distance; this
    holds for all records, whatever their fields. *)
Theorem distances_symmetric_not_negative (p1 p2 : props) :
  calculate_distance p1 p2 = calculate_distance p2 p1 /\
  F64.lt (calculate_distance p1 p2) F64.zero = false /\
  relative_distance p1 p2 = relative_distance p2 p1 /\
  F64.lt (relative_distance p1 p2) F64.zero = false.
Proof.
  split; [ apply calculate_distance_sym | ].
  split; [ apply not_negative_lt_zero, distance_not_negative | ].
  split; [ apply relative_distance_sym | ].
  apply not_negative_lt_zero, relative_distance_not_negative.
Qed.

Lemma negative_factor_no_merge (p1 p2 : props) (f : float) :
  F64.lt f F64.zero = true -> should_merge_bubbles p1 p2 f = false.
Proof.
  intros Hf. unfold should_merge_bubbles.
  pose proof (relative_distance_not_negative p1 p2) as Hr.
  destruct (relative_distance p1 p2) as [s|s| |s m e]; simpl in Hr; subst;
    try reflexivity;
    destruct f as [sf|sf| |sf mf ef]; try discriminate;
    try (destruct sf; try discriminate; reflexivity);
    destruct s; reflexivity.
Qed.

(** X15. With a negative [max_distance_factor] no two rectangle records
    merge. *)
Theorem negative_factor_never_merges (p1 p2 : props) (f : float) :
  F64.lt f F64.zero = true -> should_merge_bubbles p1 p2 f = false.
Proof. exact (negative_factor_no_merge p1 p2 f). Qed.

Lemma negative_factor_never_merges_witness :
  F64.lt (F64.of_Z (-1)) F64.zero = true /\
  should_merge_bubbles props_D1 props_D2 (F64.of_Z (-1)) = false.
Proof.
  assert (H : F64.lt (F64.of_Z (-1)) F64.zero = true) by reflexivity.
  split; [ exact H | ].
  exact (negative_factor_never_merges props_D1 props_D2 (F64.of_Z (-1)) H).
Defined.

(** ** When nothing merges *)

Lemma mark_used_at_app (done todo : list item) (u : item) :
  mark_used_at (List.length done) (done ++ u :: todo) = done ++ mark_used u :: todo.
Proof. induction done as [|a done IH]; simpl; [ reflexivity | now rewrite IH ]. Qed.

Lemma nth_error_middle (done todo : list item) (u : item) :
  nth_error (done ++ u :: todo) (List.length done) = Some u.
Proof. induction done as [|a done IH]; simpl; auto. Qed.

Lemma make_paragraph_single (u : item) :
  i_bbox u <> [] ->
  exists p, make_paragraph [u] = Ok p /\ individual_items p = [item_det u].
Proof.
  intros Hb.
  destruct (make_paragraph_ok [u]) as (p & Hp & Hi & _);
    [ discriminate | constructor; auto | ].
  exists p. split; [ exact Hp | exact Hi ].
Qed.

Lemma seed_loop_no_merge (mdf : float) (todo : list item) :
  forall done paragraphs,
  Forall (fun it => used it = true) done ->
  Forall (fun it => used it = false) todo ->
  Forall (fun it => i_bbox it <> []) todo ->
  ForallOrdPairs
    (fun a b => should_merge_bubbles (i_props a) (i_props b) mdf = false) todo ->
  exists new,
    seed_loop (List.length todo) (List.length done) mdf (done ++ todo) paragraphs =
      Ok (paragraphs ++ new) /\
    map individual_items new = map (fun it => [item_det it]) todo.
Proof.
  induction todo as [|u todo IH]; intros done paragraphs Hdone Htodo Hbb Hsep.
  - exists []. simpl. now rewrite app_nil_r.
  - inversion Htodo as [|? ? Hu Htodo']; inversion Hbb as [|? ? Hub Hbb'];
      inversion Hsep as [|? ? Hall Hsep']; subst.
    cbn [List.length seed_loop]. rewrite nth_error_middle, Hu, mark_used_at_app.
    assert (Hscan : scan mdf (done ++ mark_used u :: todo) [mark_used u] =
                    (done ++ mark_used u :: todo, [mark_used u], false)).
    { apply scan_no_merge. intros v Hv Hvu.
      apply in_app_or in Hv. destruct Hv as [Hv|[<-|Hv]].
      - rewrite Forall_forall in Hdone. rewrite (Hdone v Hv) in Hvu. discriminate.
      - discriminate.
      - unfold merges_with. cbn [existsb i_props mark_used].
        rewrite Forall_forall in Hall. now rewrite (Hall v Hv). }
    cbn [grow]. rewrite Hscan. cbn [bind fst snd].
    destruct (make_paragraph_single (mark_used u) Hub) as (p & Hp & Hi).
    rewrite Hp. cbn [bind].
    destruct (IH (done ++ [mark_used u]) (paragraphs ++ [p])) as (new & Hnew & Hmap); auto.
    + apply Forall_app. split; [ exact Hdone | ]. repeat constructor.
    + rewrite length_app, Nat.add_1_r, <- app_assoc in Hnew. cbn [app] in Hnew.
      exists (p :: new). rewrite Hnew, <- app_assoc. split; [ reflexivity | ].
      cbn [map]. now rewrite Hi, Hmap.
Qed.

Lemma no_merge_singletons (l s : list detection) (mdf : float) (ps : list paragraph) :
  group_paragraphs l mdf = Ok ps ->
  manga_reading_order_sort l = Ok s ->
  (forall items, Forall2 (fun d it => make_item d = Ok it) s items ->
     ForallOrdPairs
       (fun a b => should_merge_bubbles (i_props a) (i_props b) mdf = false) items) ->
  map individual_items ps = map (fun d => [d]) s.
Proof.
  intros Hg Hs Hsep. destruct (list_eq_dec_nil l) as [->|Hne].
  { simpl in Hg, Hs. inversion Hg; inversion Hs; subst. reflexivity. }
  rewrite group_paragraphs_unfold in Hg by assumption.
  rewrite Hs in Hg. cbn [bind] in Hg.
  destruct (mapM make_item s) as [items|e|] eqn:Hitems; cbn [bind] in Hg;
    try discriminate.
  pose proof (mapM_inv _ _ _ Hitems) as Fitems.
  destruct (make_items_spec s items Fitems) as (I1 & I2 & I3).
  destruct (seed_loop_no_merge mdf items [] []) as (new & Hnew & Hmap).
  - constructor.
  - rewrite <- I2. rewrite Forall_forall. intros it Hit.
    apply filter_In in Hit. destruct Hit as [_ Hit].
    unfold unusedb in Hit. now destruct (used it).
  - eapply Forall_impl; [ | exact I3 ]. intros it Hit.
    exact (calculate_bbox_properties_inv _ _ Hit).
  - now apply Hsep.
  - change (seed_loop (List.length items) 0 mdf items [] = Ok new) in Hnew.
    rewrite Hnew in Hg. inversion Hg; subst ps.
    rewrite Hmap, <- I1, map_map. reflexivity.
Qed.

Lemma ForallOrdPairs_Forall2_items (s : list detection) (items : list item)
    (R : detection -> detection -> Prop) (R' : item -> item -> Prop) :
  (forall a b a' b', make_item a = Ok a' -> make_item b = Ok b' -> R a b -> R' a' b') ->
  Forall2 (fun d it => make_item d = Ok it) s items ->
  ForallOrdPairs R s -> ForallOrdPairs R' items.
Proof.
  intros H F.
  apply (ForallOrdPairs_Forall2 (fun d it => make_item d = Ok it) R R' s items H F).
Qed.

(** X16. When no detection merges with a detection that follows it in
    reading order, every detection becomes a paragraph of its own and the
    paragraphs come in reading order: the member lists are the singletons
    of the sorted detections. *)
Theorem isolated_detections_stay_alone (l s : list detection) (mdf : float)
    (ps : list paragraph) :
  group_paragraphs l mdf = Ok ps ->
  manga_reading_order_sort l = Ok s ->
  ForallOrdPairs (never_merges mdf) s ->
  map individual_items ps = map (fun d => [d]) s.
Proof.
  intros Hg Hs Hsep. apply (no_merge_singletons l s mdf ps Hg Hs).
  intros items F.
  apply (ForallOrdPairs_Forall2_items s items (never_merges mdf)); auto.
  intros a b a' b' Ha Hb H.
  destruct (make_item_inv a a' Ha) as (Ea & _ & Ca).
  destruct (make_item_inv b b' Hb) as (Eb & _ & Cb).
  apply H.
  - rewrite <- Ea. exact Ca.
  - rewrite <- Eb. exact Cb.
Qed.

Lemma isolated_detections_stay_alone_witness :
  exists ps,
    group_paragraphs [D3; D1] F64.two = Ok ps /\
    manga_reading_order_sort [D3; D1] = Ok [D3; D1] /\
    ForallOrdPairs (never_merges F64.two) [D3; D1] /\
    map individual_items ps = [[D3]; [D1]].
Proof.
  let r := eval vm_compute in (group_paragraphs [D3; D1] F64.two) in
  match r with Ok ?ps => exists ps end.
  assert (Hg : group_paragraphs [D3; D1] F64.two = Ok _) by (vm_compute; reflexivity).
  assert (Hs : manga_reading_order_sort [D3; D1] = Ok [D3; D1])
    by (vm_compute; reflexivity).
  assert (Hsep : ForallOrdPairs (never_merges F64.two) [D3; D1]).
  { repeat constructor. intros pa pb Ha Hb.
    vm_compute in Ha, Hb. inversion Ha; inversion Hb; subst.
    vm_compute. reflexivity. }
  split; [ exact Hg | ]. split; [ exact Hs | ]. split; [ exact Hsep | ].
  exact (isolated_detections_stay_alone [D3; D1] [D3; D1] F64.two _ Hg Hs Hsep).
Defined.

(** X17. With a negative [max_distance_factor] the grouping does nothing:
    every detection is returned as a paragraph of its own, in reading
    order. *)
Theorem negative_factor_keeps_detections_apart (l s : list detection) (mdf : float)
    (ps : list paragraph) :
  F64.lt mdf F64.zero = true ->
  group_paragraphs l mdf = Ok ps ->
  manga_reading_order_sort l = Ok s ->
  map individual_items ps = map (fun d => [d]) s.
Proof.
  intros Hf Hg Hs. apply (no_merge_singletons l s mdf ps Hg Hs).
  intros items _. clear - Hf. induction items as [|a items IH]; constructor; auto.
  rewrite Forall_forall. intros b _. now apply negative_factor_no_merge.
Qed.

Lemma negative_factor_keeps_detections_apart_witness :
  exists ps,
    F64.lt (F64.of_Z (-1)) F64.zero = true /\
    group_paragraphs [D1; D2] (F64.of_Z (-1)) = Ok ps /\
    manga_reading_order_sort [D1; D2] = Ok [D2; D1] /\
    map individual_items ps = [[D2]; [D1]].
Proof.
  let r := eval vm_compute in (group_paragraphs [D1; D2] (F64.of_Z (-1))) in
  match r with Ok ?ps => exists ps end.
  assert (Hf : F64.lt (F64.of_Z (-1)) F64.zero = true) by reflexivity.
  assert (Hg : group_paragraphs [D1; D2] (F64.of_Z (-1)) = Ok _)
    by (vm_compute; reflexivity).
  assert (Hs : manga_reading_order_sort [D1; D2] = Ok [D2; D1])
    by (vm_compute; reflexivity).
  split; [ exact Hf | ]. split; [ exact Hg | ]. split; [ exact Hs | ].
  exact (negative_factor_keeps_detections_apart [D1; D2] [D2; D1] (F64.of_Z (-1)) _
           Hf Hg Hs).
Defined.

(** ** Coincident centers *)

Lemma sub_self (x : float) : finite x -> F64.sub x x = S754_zero false.
Proof.
  unfold finite. destruct x as [s|s| |s m e]; simpl; try discriminate; intros _.
  - now destruct s.
  - unfold F64.sub, SFsub. rewrite Z.sub_diag. reflexivity.
Qed.

Lemma le_zero_not_gt (f : float) : F64.le F64.zero f = true -> F64.gt F64.zero f = false.
Proof.
  destruct f as [s|s| |s m e]; simpl; try discriminate; try reflexivity;
    destruct s; try discriminate; reflexivity.
Qed.

(** X18. Two rectangle records with the same finite center merge whenever
    their average size is positive and [max_distance_factor] is not
    negative: a box detected twice always joins its twin. *)
Theorem coincident_centers_merge (p1 p2 : props) (f : float) :
  finite (center_x p1) -> finite (center_y p1) ->
  center_x p2 = center_x p1 -> center_y p2 = center_y p1 ->
  F64.gt (avg_size p1 p2) F64.zero = true ->
  F64.le F64.zero f = true ->
  should_merge_bubbles p1 p2 f = true.
Proof.
  intros Fx Fy Ex Ey Ha Hf.
  assert (Hd : calculate_distance p1 p2 = S754_zero false).
  { unfold calculate_distance. rewrite Ex, Ey, !sub_self by assumption. reflexivity. }
  assert (Hr : relative_distance p1 p2 = S754_zero false).
  { rewrite avg_size_relative_distance, Ha, Hd.
    destruct (gt_zero_shape _ Ha) as [->|(m & e & ->)]; reflexivity. }
  unfold should_merge_bubbles. rewrite Hr.
  change (S754_zero false) with F64.zero. rewrite (le_zero_not_gt f Hf).
  destruct (F64.lt F64.zero F64.c1_5 &&
            (is_horizontally_aligned p1 p2 || is_vertically_aligned p1 p2));
    reflexivity.
Qed.

Lemma coincident_centers_merge_witness :
  finite (center_x props_D1) /\ finite (center_y props_D1) /\
  F64.gt (avg_size props_D1 props_D1) F64.zero = true /\
  F64.le F64.zero F64.two = true /\
  should_merge_bubbles props_D1 props_D1 F64.two = true.
Proof.
  assert (H1 : finite (center_x props_D1)) by reflexivity.
  assert (H2 : finite (center_y props_D1)) by reflexivity.
  assert (H3 : F64.gt (avg_size props_D1 props_D1) F64.zero = true)
    by (vm_compute; reflexivity).
  assert (H4 : F64.le F64.zero F64.two = true) by reflexivity.
  split; [ exact H1 | ]. split; [ exact H2 | ]. split; [ exact H3 | ].
  split; [ exact H4 | ].
  exact (coincident_centers_merge props_D1 props_D1 F64.two H1 H2 eq_refl eq_refl H3 H4).
Defined.

(** ** The order of the input *)

(** X19. For detections with finite coordinates among which two with the
    same center are the same detection, the result does not depend on the
    order in which the detections are given. *)
Theorem input_order_is_irrelevant (l l' : list detection) (mdf : float) :
  finite_input l -> centers_identify l -> Permutation l' l ->
  group_paragraphs l' mdf = group_paragraphs l mdf.
Proof.
  intros Hf Hc P. destruct (list_eq_dec_nil l) as [->|Hne].
  { apply Permutation_sym, Permutation_nil in P. now subst. }
  assert (Hne' : l' <> []).
  { intros ->. apply Permutation_nil in P. contradiction. }
  destruct (bbox_empty_dec l) as [Hb|Hb].
  - destruct (manga_sort_ok l Hb) as [s Hs].
    rewrite !group_paragraphs_unfold by assumption.
    now rewrite (manga_sort_perm_invariant l l' s Hf Hc P Hs), Hs.
  - rewrite (group_paragraphs_raise l mdf Hb). apply group_paragraphs_raise.
    apply Exists_exists in Hb. destruct Hb as (d & Hd & E).
    apply Exists_exists. exists d. split; [ | exact E ].
    eapply Permutation_in; [ apply Permutation_sym, P | exact Hd ].
Qed.

Lemma input_order_is_irrelevant_witness :
  finite_input [D1; D2] /\ centers_identify [D1; D2] /\
  Permutation [D2; D1] [D1; D2] /\
  group_paragraphs [D2; D1] F64.two = group_paragraphs [D1; D2] F64.two.
Proof.
  split; [ exact scenario_A_finite | ]. split; [ exact scenario_A_centers | ].
  split; [ apply perm_swap | ].
  exact (input_order_is_irrelevant [D1; D2] [D2; D1] F64.two
           scenario_A_finite scenario_A_centers (perm_swap D1 D2 [])).
Defined.

Lemma mapM_of_Forall2 {X Y : Type} (f : X -> result Y) (l : list X) (bs : list Y) :
  Forall2 (fun a b => f a = Ok b) l bs -> mapM f l = Ok bs.
Proof.
  induction 1 as [|a b l bs H _ IH]; simpl; [ reflexivity | ].
  now rewrite H, IH.
Qed.

Lemma sort_keyed_fixed {K A : Type} (ltK : K -> K -> bool) (l : list (K * A)) :
  StronglySorted (fun x y => ltK (fst y) (fst x) = false) l ->
  sort_keyed ltK l = l.
Proof.
  induction 1 as [|x l HS IH Hall]; [ reflexivity | ].
  rewrite sort_keyed_head, IH; [ reflexivity | ].
  rewrite Forall_forall in Hall. exact Hall.
Qed.

(** X20. Sorting is idempotent: for detections with finite coordinates, the
    reading-order sort of an already sorted list returns it unchanged. *)
Theorem manga_reading_order_sort_idempotent (l s : list detection) :
  finite_input l ->
  manga_reading_order_sort l = Ok s ->
  manga_reading_order_sort s = Ok s.
Proof.
  intros Hf Hs.
  destruct (manga_sort_inv l s Hs) as (keyed & _ & F & ->).
  pose proof (keyed_facts l keyed Hf F) as Hk. rewrite Forall_forall in Hk.
  set (sk := sort_keyed key_lt keyed).
  assert (Hin : forall kd, In kd sk -> In kd keyed)
    by (intros kd; apply Permutation_in, sort_keyed_perm).
  assert (Fsk : Forall2 (fun d kd => keyed_of d = Ok kd) (map snd sk) sk).
  { assert (H : forall kd, In kd sk -> keyed_of (snd kd) = Ok kd).
    { intros kd Hkd. destruct (Forall2_In_r _ _ _ F kd (Hin kd Hkd)) as (d & _ & Hd).
      destruct (keyed_of_inv d kd Hd) as [_ E]. now rewrite E. }
    clear - H. induction sk as [|kd sk IH]; simpl; constructor.
    - apply H. now left.
    - apply IH. intros; apply H; now right. }
  rewrite manga_sort_unfold, (mapM_of_Forall2 _ _ _ Fsk). cbn [bind].
  rewrite sort_keyed_fixed; [ reflexivity | ].
  apply sort_keyed_sorted with (ok := key_ok);
    [ exact key_lt_order_trans | exact key_lt_asym | ].
  rewrite Forall_forall. intros kd Hkd.
  destruct (Hk kd Hkd) as (p & _ & -> & Nx & Ny).
  split; simpl; auto using neg_not_nan.
Qed.

Lemma manga_reading_order_sort_idempotent_witness :
  finite_input [D1; D2] /\
  manga_reading_order_sort [D1; D2] = Ok [D2; D1] /\
  manga_reading_order_sort [D2; D1] = Ok [D2; D1].
Proof.
  assert (Hs : manga_reading_order_sort [D1; D2] = Ok [D2; D1])
    by (vm_compute; reflexivity).
  split; [ exact scenario_A_finite | ]. split; [ exact Hs | ].
  exact (manga_reading_order_sort_idempotent [D1; D2] [D2; D1] scenario_A_finite Hs).
Defined.

(** ** Alignment *)

(** X21. Both alignment tests are symmetric in their two rectangle records,
    for records whose edges and extents are numbers. *)
Theorem alignment_is_symmetric (p1 p2 : props) :
  rect_ok p1 -> rect_ok p2 ->
  is_horizontally_aligned p1 p2 = is_horizontally_aligned p2 p1 /\
  is_vertically_aligned p1 p2 = is_vertically_aligned p2 p1.
Proof.
  intros (L1 & R1 & T1 & B1 & W1 & H1) (L2 & R2 & T2 & B2 & W2 & H2).
  split; apply overlap_test_sym; assumption.
Qed.

Lemma alignment_is_symmetric_witness :
  rect_ok props_D1 /\ rect_ok props_D2 /\
  is_horizontally_aligned props_D1 props_D2 = true /\
  is_horizontally_aligned props_D2 props_D1 = true.
Proof.
  assert (H1 : rect_ok props_D1) by (unfold rect_ok, not_nan; repeat split).
  assert (H2 : rect_ok props_D2) by (unfold rect_ok, not_nan; repeat split).
  split; [ exact H1 | ]. split; [ exact H2 | ].
  split; [ vm_compute; reflexivity | ].
  rewrite <- (proj1 (alignment_is_symmetric props_D1 props_D2 H1 H2)).
  vm_compute; reflexivity.
Defined.

Lemma paragraphs_follow_reading_order_witness :
  exists ps,
    finite_input [D1; D2; D3] /\
    group_paragraphs [D1; D2; D3] F64.two = Ok ps /\
    map individual_items ps = [[D3]; [D2; D1]] /\
    ForallOrdPairs
      (fun p q => forall d, hd_error (individual_items p) = Some d ->
                            Forall (det_reading_le d) (individual_items q)) ps.
Proof.
  let r := eval vm_compute in (group_paragraphs [D1; D2; D3] F64.two) in
  match r with Ok ?ps => exists ps end.
  assert (Hf : finite_input [D1; D2; D3])
    by (unfold finite_input, finite_detection; finite_tac).
  assert (Hg : group_paragraphs [D1; D2; D3] F64.two = Ok _)
    by (vm_compute; reflexivity).
  split; [ exact Hf | ]. split; [ exact Hg | ].
  split; [ vm_compute; reflexivity | ].
  exact (proj2 (paragraphs_follow_reading_order [D1; D2; D3] F64.two _ Hf Hg)).
Defined.

(** ** The pre-pass and the grouping together *)

Lemma fix_results_bbox (sp : option (string -> list string)) (rs : list detection) :
  map det_bbox (fix_results sp rs) = map det_bbox rs.
Proof. unfold fix_results. rewrite map_map. reflexivity. Qed.

Lemma fix_results_score (sp : option (string -> list string)) (rs : list detection) :
  map det_score (fix_results sp rs) = map det_score rs.
Proof. unfold fix_results. rewrite map_map. reflexivity. Qed.

Lemma fix_results_none (rs : list detection) : fix_results None rs = rs.
Proof.
  unfold fix_results. rewrite <- (map_id rs) at 2. apply map_ext.
  intros [[b t] s]. reflexivity.
Qed.

(** X22. ([api_read_text] returns no paragraphs for an empty result list,
    as the grouping of an empty list does.)  The paragraphs of a response
    cover the OCR results: whatever the
    splitter does, the members of the returned paragraphs are a
    rearrangement of the fixed results, their bboxes and scores are those
    of the OCR results, the item counts add up to the number of results
    ([total_lines]), and a result whose text has a space keeps its text.
    The only failure is the [ValueError] of a result with an empty bbox.
    Without a splitter the members are the OCR results themselves. *)
Theorem read_text_paragraphs_cover_results
    (splitter : option (string -> list string)) (results : list detection) :
  match read_text_paragraphs splitter results with
  | Ok ps =>
      Permutation (flatten_items ps) (fix_results splitter results) /\
      Permutation (map det_bbox (flatten_items ps)) (map det_bbox results) /\
      Permutation (map det_score (flatten_items ps)) (map det_score results) /\
      list_sum (map item_count ps) = List.length results /\
      Forall (fun d => contains_space (det_text d) = true ->
                       In d (flatten_items ps)) results /\
      (splitter = None -> Permutation (flatten_items ps) results)
  | Raise e => e = ValueError /\ Exists (fun d => det_bbox d = []) results
  | OutOfFuel => False
  end.
Proof.
  unfold read_text_paragraphs.
  pose proof (paragraph_record_consistent_aux (fix_results splitter results) F64.two)
    as Hrec.
  destruct (bbox_empty_dec (fix_results splitter results)) as [Hb|Hb].
  - destruct (group_paragraphs_ok _ F64.two Hb) as (ps & E & P & _).
    rewrite E in *. fold (flatten_items ps) in P.
    split; [ exact P | ].
    split; [ rewrite <- (fix_results_bbox splitter results); now apply Permutation_map | ].
    split; [ rewrite <- (fix_results_score splitter results); now apply Permutation_map | ].
    split; [ | split ].
    + transitivity (List.length (fix_results splitter results));
        [ | unfold fix_results; apply length_map ].
      rewrite <- (Permutation_length P). unfold flatten_items.
      rewrite length_concat, map_map. f_equal.
      apply map_ext_in. intros p Hp. rewrite Forall_forall in Hrec.
      apply (Hrec p Hp).
    + rewrite Forall_forall. intros d Hd Hsp.
      eapply Permutation_in; [ apply Permutation_sym, P | ].
      unfold fix_results. apply in_map_iff. exists d. split; [ | exact Hd ].
      unfold fix_text. destruct d as [[b t] s]. cbn [det_text det_bbox det_score fst snd] in *.
      destruct splitter; [ rewrite Hsp | ]; reflexivity.
    + intros ->. now rewrite fix_results_none in P.
  - rewrite (group_paragraphs_raise _ F64.two Hb). split; [ reflexivity | ].
    apply Exists_exists in Hb. destruct Hb as (d & Hd & E).
    unfold fix_results in Hd. apply in_map_iff in Hd. destruct Hd as (d0 & <- & Hd0).
    apply Exists_exists. exists d0. split; [ exact Hd0 | exact E ].
Qed.
